(** * Option_Pricer: the pricing core of [pricing.py]

    A shallow embedding of [src/pricing.py] (Black-Scholes and Black-76
    prices, Greeks, implied volatility) and the properties its
    specification states about them.

    Numbers.  [numpy] float64 arithmetic is modelled by exact arithmetic on
    the real numbers: [np.log] is [ln], [np.exp] is [exp], [np.sqrt] is
    [sqrt], [norm.pdf] and [norm.cdf] are the density and the distribution
    function of the standard normal law.  The formulas are only meaningful
    where the float computation produces no infinity and no NaN, that is
    for a positive underlying, strike, expiry and volatility; statements
    carry these side conditions.

    Exact arithmetic has neither rounding nor a largest number.  In double
    precision [norm.cdf] returns exactly 0.0 or 1.0 far in the tails, so the
    computed price of a contract deep in or out of the money does not move
    with the volatility, and can be exactly 0.0.  What is proved below is
    therefore what rounding leaves in place: identities between formulas,
    bounds that are not strict, derivatives, and which call returns and which
    raises.  Strict order between two computed prices and the recovery of a
    volatility from a price are properties of the formulas only and are not
    stated of the program.

    Control.  A Python call either returns a value or raises; a raising
    call is [Raise e], and [try ... except ValueError] is [catch_ValueError].
    The division [S / K] of two Python floats raises ZeroDivisionError for a
    zero strike; the other divisions have a [numpy] divisor and do not raise.
    [scipy.optimize.brentq] is not part of the repository: the solver is
    parameterised by it. *)

From Stdlib Require Import Reals Ranalysis5 Lra Lia ZArith Bool String List.
From Stdlib Require Import ClassicalEpsilon.
Import ListNotations.

Local Open Scope R_scope.

(** ** Python results and exceptions *)

Module Py.

(** The message of a ZeroDivisionError depends on whether the operands are
    ints or floats; it is left out. *)
Inductive exn : Type :=
| ValueError (msg : string)
| RuntimeError (msg : string)
| ZeroDivisionError.

Inductive result (A : Type) : Type :=
| Return (a : A)
| Raise (e : exn).

Arguments Return {A} a.
Arguments Raise {A} e.

Definition bind {A B : Type} (m : result A) (k : A -> result B) : result B :=
  match m with
  | Return a => k a
  | Raise e => Raise e
  end.

(** [try: body except ValueError: handler] *)
Definition catch_ValueError {A : Type} (body : result A) (handler : result A)
  : result A :=
  match body with
  | Raise (ValueError _) => handler
  | other => other
  end.

Definition is_ValueError {A : Type} (m : result A) : Prop :=
  exists msg, m = Raise (ValueError msg).

(** [x / y] on two Python floats: a zero divisor raises.  (A division whose
    divisor is a [numpy] float, such as [sigma * np.sqrt(T)], does not raise;
    it is plain division below.) *)
Definition div (x y : R) : result R :=
  if Req_dec_T y 0 then Raise ZeroDivisionError else Return (x / y).

End Py.

Import Py.

Notation "x <- m ;; k" := (Py.bind m (fun x => k))
  (at level 61, m at next level, right associativity).

(** ** The standard normal law: [scipy.stats.norm] *)

(** [norm.pdf(x) = exp(-x**2/2) / sqrt(2*pi)] *)
Definition norm_pdf (x : R) : R := exp (- x ^ 2 / 2) / sqrt (2 * PI).

Lemma sqrt_2PI_pos : 0 < sqrt (2 * PI).
Proof. apply sqrt_lt_R0. generalize PI_RGT_0. lra. Qed.

Lemma norm_pdf_pos (x : R) : 0 < norm_pdf x.
Proof.
  unfold norm_pdf. apply Rdiv_lt_0_compat; [apply exp_pos | apply sqrt_2PI_pos].
Qed.

Lemma derivable_pt_lim_eq (f g : R -> R) (x l l' : R) :
  derivable_pt_lim f x l -> (forall y, f y = g y) -> l = l' ->
  derivable_pt_lim g x l'.
Proof.
  intros Hf Hfg <-. exact (derivable_pt_lim_ext f g x l Hfg Hf).
Qed.

Lemma continuity_pt_eq (f g : R -> R) (x : R) :
  (forall y, f y = g y) -> continuity_pt f x -> continuity_pt g x.
Proof.
  intros Hfg Hf.
  apply (continuity_pt_locally_ext f g 1 x); [lra | intros; apply Hfg | exact Hf].
Qed.

Lemma norm_pdf_derivable (x : R) :
  derivable_pt_lim norm_pdf x (- x * norm_pdf x).
Proof.
  set (u := fun y : R => - y ^ 2 / 2).
  assert (Hu : derivable_pt_lim u x (- x)).
  { apply (derivable_pt_lim_eq (fun y => (- (fun z => z ^ 2))%F y * / 2) u x
             (- (INR 2 * x ^ Nat.pred 2) * / 2)).
    - apply derivable_pt_lim_scal_right, derivable_pt_lim_opp,
        derivable_pt_lim_pow.
    - intro y; reflexivity.
    - simpl; field. }
  apply (derivable_pt_lim_eq (fun y => comp exp u y * / sqrt (2 * PI))
           norm_pdf x (exp (u x) * - x * / sqrt (2 * PI))).
  - apply derivable_pt_lim_scal_right, derivable_pt_lim_comp;
      [exact Hu | apply derivable_pt_lim_exp].
  - intro y; reflexivity.
  - unfold norm_pdf, u; field. apply Rgt_not_eq, sqrt_2PI_pos.
Qed.

Lemma norm_pdf_continuous : continuity norm_pdf.
Proof.
  intro x. apply derivable_continuous_pt.
  exists (- x * norm_pdf x). apply norm_pdf_derivable.
Qed.

Lemma norm_pdf_integrable (a b : R) : Riemann_integrable norm_pdf a b.
Proof.
  destruct (Rle_dec a b) as [Hab | Hab].
  - apply continuity_implies_RiemannInt; [exact Hab |].
    intros; apply norm_pdf_continuous.
  - apply RiemannInt_P1, continuity_implies_RiemannInt; [lra |].
    intros; apply norm_pdf_continuous.
Qed.

(** [norm.cdf(x)]: one half plus the area under the density between 0 and x *)
Definition norm_cdf (x : R) : R := 1 / 2 + RiemannInt (norm_pdf_integrable 0 x).

(** ** Python's [round(x, ndigits)] *)

(** Nearest integer, ties to the even one. *)
Definition rint (x : R) : Z :=
  let n := Int_part x in
  let f := frac_part x in
  if Rlt_dec f (1 / 2) then n
  else if Rlt_dec (1 / 2) f then (n + 1)%Z
  else if Z.even n then n else (n + 1)%Z.

Definition round (x : R) (ndigits : nat) : R :=
  IZR (rint (x * 10 ^ ndigits)) / 10 ^ ndigits.

(** Comparison of two floats as a Python boolean. *)
Definition Rle_bool (x y : R) : bool := if Rle_dec x y then true else false.

(** ** [pricing.py] *)

Local Open Scope string_scope.

Definition option_type_error : exn :=
  ValueError "option_type must be 'call' or 'put'".

Definition model_error : exn :=
  ValueError "model must be 'spot' or 'futures'".

(** --- Black-Scholes --- *)
Definition black_scholes (S K T r sigma : R) (option_type : string)
  : result R :=
  S_over_K <- Py.div S K ;;
  let d1 := (ln S_over_K + (r + 0.5 * sigma ^ 2) * T) / (sigma * sqrt T) in
  let d2 := d1 - sigma * sqrt T in
  if option_type =? "call" then
    Return (S * norm_cdf d1 - K * exp (- r * T) * norm_cdf d2)
  else if option_type =? "put" then
    Return (K * exp (- r * T) * norm_cdf (- d2) - S * norm_cdf (- d1))
  else
    Raise option_type_error.

(** --- Black-76 (Futures) --- *)
Definition black_76 (F K T r sigma : R) (option_type : string) : result R :=
  F_over_K <- Py.div F K ;;
  let d1 := (ln F_over_K + 0.5 * sigma ^ 2 * T) / (sigma * sqrt T) in
  let d2 := d1 - sigma * sqrt T in
  let df := exp (- r * T) in
  if option_type =? "call" then
    Return (df * (F * norm_cdf d1 - K * norm_cdf d2))
  else if option_type =? "put" then
    Return (df * (K * norm_cdf (- d2) - F * norm_cdf (- d1)))
  else
    Raise option_type_error.

(** --- Unified Pricer --- *)
Definition price_option (model : string) (S_or_F K T r sigma : R)
  (option_type : string) : result R :=
  if model =? "spot" then black_scholes S_or_F K T r sigma option_type
  else if model =? "futures" then black_76 S_or_F K T r sigma option_type
  else Raise model_error.

(** --- Greeks --- *)

(** The dictionary the Greeks functions return, in insertion order. *)
Definition greeks_dict (delta gamma vega theta rho : R) : list (string * R) :=
  [ ("Delta", round delta 4);
    ("Gamma", round gamma 4);
    ("Vega", round vega 4);
    ("Theta", round theta 4);
    ("Rho", round rho 4) ].

Definition calculate_greeks_bs (S K T r sigma : R) (option_type : string)
  : result (list (string * R)) :=
  S_over_K <- Py.div S K ;;
  let d1 := (ln S_over_K + (r + 0.5 * sigma ^ 2) * T) / (sigma * sqrt T) in
  let d2 := d1 - sigma * sqrt T in
  branch <-
    (if option_type =? "call" then
       let delta := norm_cdf d1 in
       let theta := (- S * norm_pdf d1 * sigma / (2 * sqrt T)
                     - r * K * exp (- r * T) * norm_cdf d2) / 365 in
       let rho := K * T * exp (- r * T) * norm_cdf d2 / 100 in
       Return (delta, theta, rho)
     else if option_type =? "put" then
       let delta := norm_cdf d1 - 1 in
       let theta := (- S * norm_pdf d1 * sigma / (2 * sqrt T)
                     + r * K * exp (- r * T) * norm_cdf (- d2)) / 365 in
       let rho := - K * T * exp (- r * T) * norm_cdf (- d2) / 100 in
       Return (delta, theta, rho)
     else
       Raise option_type_error) ;;
  let '(delta, theta, rho) := branch in
  let gamma := norm_pdf d1 / (S * sigma * sqrt T) in
  let vega := S * norm_pdf d1 * sqrt T / 100 in
  Return (greeks_dict delta gamma vega theta rho).

Definition calculate_greeks_black76 (F K T r sigma : R) (option_type : string)
  : result (list (string * R)) :=
  F_over_K <- Py.div F K ;;
  let d1 := (ln F_over_K + 0.5 * sigma ^ 2 * T) / (sigma * sqrt T) in
  let d2 := d1 - sigma * sqrt T in
  let df := exp (- r * T) in
  let gamma := norm_pdf d1 / (F * sigma * sqrt T) in
  let vega := F * norm_pdf d1 * sqrt T * df / 100 in
  branch <-
    (if option_type =? "call" then
       let delta := df * norm_cdf d1 in
       let rho := T * K * df * norm_cdf d2 / 100 in
       let theta := (- F * norm_pdf d1 * sigma * df / (2 * sqrt T)
                     - r * F * norm_cdf d1 * df) / 365 in
       Return (delta, theta, rho)
     else if option_type =? "put" then
       let delta := - df * norm_cdf (- d1) in
       let rho := - T * K * df * norm_cdf (- d2) / 100 in
       let theta := (- F * norm_pdf d1 * sigma * df / (2 * sqrt T)
                     + r * F * norm_cdf (- d1) * df) / 365 in
       Return (delta, theta, rho)
     else
       Raise option_type_error) ;;
  let '(delta, theta, rho) := branch in
  Return (greeks_dict delta gamma vega theta rho).

Definition calculate_greeks (model : string) (S_or_F K T r sigma : R)
  (option_type : string) : result (list (string * R)) :=
  if model =? "spot" then calculate_greeks_bs S_or_F K T r sigma option_type
  else if model =? "futures" then
    calculate_greeks_black76 S_or_F K T r sigma option_type
  else Raise model_error.

(** --- Implied Volatility --- *)

Section ImpliedVolatility.

(** [scipy.optimize.brentq(f, a, b)]: the objective may raise, and so may
    the root finder. *)
Variable brentq : (R -> result R) -> R -> R -> result R.

Definition implied_volatility (option_market_price S K T r : R)
  (option_type : string) : result (option R) :=
  let objective_function := fun sigma : R =>
    p <- black_scholes S K T r sigma option_type ;;
    Return (p - option_market_price) in
  catch_ValueError
    (test_low <- black_scholes S K T r 0.0001 option_type ;;
     test_high <- black_scholes S K T r 3.0 option_type ;;
     if negb (Rle_bool test_low option_market_price
              && Rle_bool option_market_price test_high)
     then Return None
     else
       implied_vol <- brentq objective_function 0.0001 3.0 ;;
       Return (Some (round implied_vol 4)))
    (Return None).

Definition implied_volatility_black76 (option_market_price F K T r : R)
  (option_type : string) : result (option R) :=
  let objective_function := fun sigma : R =>
    p <- black_76 F K T r sigma option_type ;;
    Return (p - option_market_price) in
  catch_ValueError
    (test_low <- black_76 F K T r 0.0001 option_type ;;
     test_high <- black_76 F K T r 3.0 option_type ;;
     if negb (Rle_bool test_low option_market_price
              && Rle_bool option_market_price test_high)
     then Return None
     else
       implied_vol <- brentq objective_function 0.0001 3.0 ;;
       Return (Some (round implied_vol 4)))
    (Return None).

Definition get_implied_volatility (model : string)
  (market_price S_or_F K T r : R) (option_type : string)
  : result (option R) :=
  if model =? "spot" then
    implied_volatility market_price S_or_F K T r option_type
  else if model =? "futures" then
    implied_volatility_black76 market_price S_or_F K T r option_type
  else Raise model_error.

End ImpliedVolatility.

(** ** The closed forms, as the specification writes them *)

Module ClosedForm.

(** Spot model (dividendless Black-Scholes) *)
Definition d1_spot (S K T r sigma : R) : R :=
  (ln (S / K) + (r + 0.5 * sigma ^ 2) * T) / (sigma * sqrt T).
Definition d2_spot (S K T r sigma : R) : R :=
  d1_spot S K T r sigma - sigma * sqrt T.
Definition call_spot (S K T r sigma : R) : R :=
  S * norm_cdf (d1_spot S K T r sigma)
  - K * exp (- (r * T)) * norm_cdf (d2_spot S K T r sigma).
Definition put_spot (S K T r sigma : R) : R :=
  K * exp (- (r * T)) * norm_cdf (- d2_spot S K T r sigma)
  - S * norm_cdf (- d1_spot S K T r sigma).

(** Futures model (Black-76) *)
Definition d1_futures (F K T sigma : R) : R :=
  (ln (F / K) + 0.5 * sigma ^ 2 * T) / (sigma * sqrt T).
Definition d2_futures (F K T sigma : R) : R :=
  d1_futures F K T sigma - sigma * sqrt T.
Definition df (T r : R) : R := exp (- (r * T)).
Definition call_futures (F K T r sigma : R) : R :=
  df T r * (F * norm_cdf (d1_futures F K T sigma)
            - K * norm_cdf (d2_futures F K T sigma)).
Definition put_futures (F K T r sigma : R) : R :=
  df T r * (K * norm_cdf (- d2_futures F K T sigma)
            - F * norm_cdf (- d1_futures F K T sigma)).

(** The price of either model and either option type. *)
Definition price (model : string) (S_or_F K T r sigma : R)
  (option_type : string) : R :=
  if model =? "spot" then
    if option_type =? "call" then call_spot S_or_F K T r sigma
    else put_spot S_or_F K T r sigma
  else
    if option_type =? "call" then call_futures S_or_F K T r sigma
    else put_futures S_or_F K T r sigma.

End ClosedForm.

Definition valid_option_type (option_type : string) : Prop :=
  option_type = "call" \/ option_type = "put".

Definition valid_model (model : string) : Prop :=
  model = "spot" \/ model = "futures".

(** ** Vocabulary of the statements *)


Definition has_decimals (n : nat) (v : R) : Prop :=
  exists z : Z, v = IZR z / 10 ^ n.

Fixpoint dict_get (key : string) (d : list (string * R)) : option R :=
  match d with
  | [] => None
  | (k, v) :: rest => if key =? k then Some v else dict_get key rest
  end.

(** Theta and Rho of the futures model. *)
Module FuturesGreeks.

Import ClosedForm.

(** As the specification states them: the spot-model formulas with [F] in
    place of [S] and the discount factor applied. *)
Definition theta_call_spec (F K T r sigma : R) : R :=
  (- F * norm_pdf (d1_futures F K T sigma) * sigma * df T r / (2 * sqrt T)
   - r * K * df T r * norm_cdf (d2_futures F K T sigma)) / 365.
Definition rho_call_spec (F K T r sigma : R) : R :=
  K * T * df T r * norm_cdf (d2_futures F K T sigma) / 100.

(** Theta as [calculate_greeks_black76] computes it: the second term is
    the rate times the discounted [F * Phi(d1)], not [K * Phi(d2)]. *)
Definition theta_call (F K T r sigma : R) : R :=
  (- F * norm_pdf (d1_futures F K T sigma) * sigma * df T r / (2 * sqrt T)
   - r * F * df T r * norm_cdf (d1_futures F K T sigma)) / 365.

End FuturesGreeks.

(** The derivative of [d1] of the spot model in the volatility. *)
Definition d1_spot_derivative (S K T r sigma : R) : R :=
  (sigma * T * (sigma * sqrt T)
   - sqrt T * (ln (S / K) + (r + 0.5 * sigma ^ 2) * T))
  / Rsqr (sigma * sqrt T).

(** The residual handed to the root finder. *)
Definition objective (model : string) (S_or_F K T r : R)
  (option_type : string) (market_price : R) : R -> result R :=
  fun sigma =>
    p <- price_option model S_or_F K T r sigma option_type ;;
    Return (p - market_price).

(** The solver once the bracket check has passed: run the root finder,
    round its result, turn a ValueError into "not found". *)
Definition root_finding (brentq : (R -> result R) -> R -> R -> result R)
  (model : string) (S_or_F K T r : R) (option_type : string)
  (market_price : R) : result (option R) :=
  catch_ValueError
    (implied_vol <-
       brentq (objective model S_or_F K T r option_type market_price)
         0.0001 3.0 ;;
     Return (Some (round implied_vol 4)))
    (Return None).

(** ** What [scipy.optimize.brentq] promises *)

(** Default tolerances of [brentq]: [xtol=2e-12], [rtol=4*eps]. *)
Definition xtol : R := 2e-12.
Definition rtol : R := 8.881784197001252e-16.

(** The documented contract of the root finder: for an objective that is
    continuous on [[a, b]] and whose values at the two ends do not have the
    same sign, the result [x0] lies in the bracket and an exact root [x]
    satisfies [|x - x0| <= xtol + rtol * |x0|]. *)
Definition brentq_contract
  (brentq : (R -> result R) -> R -> R -> result R) : Prop :=
  forall (f : R -> result R) (g : R -> R) (a b : R),
    a < b ->
    (forall x, a <= x <= b -> f x = Return (g x)) ->
    (forall x, a <= x <= b -> continuity_pt g x) ->
    g a * g b <= 0 ->
    exists x0 x,
      brentq f a b = Return x0
      /\ a <= x0 <= b
      /\ a <= x <= b /\ g x = 0
      /\ Rabs (x - x0) <= xtol + rtol * Rabs x0.

(** An idealised root finder: some exact root in the bracket when there is
    one, and the ValueError of [brentq] otherwise. *)
Definition exact_root (f : R -> result R) (a b : R) : result R :=
  match excluded_middle_informative
          (exists z, a <= z <= b /\ f z = Return 0) with
  | left H => Return (proj1_sig (constructive_indefinite_description _ H))
  | right _ => Raise (ValueError "f(a) and f(b) must have different signs")
  end.

(** A stand-in root finder that always gives up, with the RuntimeError by
    which [brentq] reports non-convergence; it only instantiates statements
    that hold for every root finder. *)
Definition no_convergence (f : R -> result R) (a b : R) : result R :=
  Raise (RuntimeError "Failed to converge after 100 iterations.").

(** ** Vocabulary of the further properties *)

(** The number a call returned; 0 when it raised (only used where the call is
    known to return). *)
Definition returned (m : result R) : R :=
  match m with
  | Return v => v
  | Raise _ => 0
  end.

(** The price as a number, for valid arguments. *)
Definition price_value (model : string) (S_or_F K T r sigma : R)
  (option_type : string) : R :=
  returned (price_option model S_or_F K T r sigma option_type).

(** ** [streamlit_App.py]: the Calculate handler

    The script is rerun by Streamlit on every interaction; the widgets give
    the values of the form, and the only state that survives a rerun is the
    list [st.session_state.positions].  The handler of the Calculate button
    is modelled by its effect on that list; what it displays ([st.metric],
    [st.write], [st.error], [st.warning]) is left out.  A [datetime.date] is
    its day number, so that [(expiry_date - today).days] is a difference of
    integers. *)

(** A value stored in a position: text, a number or a date. *)
Inductive value : Type :=
| VStr (s : string)
| VNum (x : R)
| VDate (d : Z).

(** A dictionary with string keys, in insertion order. *)
Definition dict : Type := list (string * value).

Fixpoint dict_lookup (key : string) (d : dict) : option value :=
  match d with
  | [] => None
  | (k, v) :: rest => if key =? k then Some v else dict_lookup key rest
  end.

(** [d[key] = v]: replaces the value of an existing key, appends a new one. *)
Fixpoint dict_set (key : string) (v : value) (d : dict) : dict :=
  match d with
  | [] => [(key, v)]
  | (k, w) :: rest =>
      if key =? k then (k, v) :: rest else (k, w) :: dict_set key v rest
  end.

(** [d.update(greeks)] *)
Definition dict_update (d : dict) (greeks : list (string * R)) : dict :=
  fold_left (fun acc kv => dict_set (fst kv) (VNum (snd kv)) acc) greeks d.

(** The values of the widgets when the button is pressed. *)
Record form : Type := {
  instrument : string;
  form_option_type : string;
  form_S_or_F : R;
  form_K : R;
  book : string;
  product_code : string;
  form_r : R;
  entry_price : R;
  entry_date : Z;
  expiry_date : Z;
  form_market_price : R;
  (** the volatility field, shown only when no market price is given *)
  sigma_input : R
}.

Definition Rlt_bool (x y : R) : bool := if Rlt_dec x y then true else false.

(** [use_iv = market_price > 0] *)
Definition use_iv (f : form) : bool := Rlt_bool 0 (form_market_price f).

(** [model_type = "spot" if instrument == "stocks" else "futures"] *)
Definition model_type (f : form) : string :=
  if instrument f =? "stocks" then "spot" else "futures".

Section CalculateHandler.

Variable brentq : (R -> result R) -> R -> R -> result R.

(** The volatility the handler prices with.  In [if iv:] both None and 0.0
    are false. *)
Definition handler_sigma (f : form) (T : R) : result R :=
  if use_iv f then
    iv <- get_implied_volatility brentq (model_type f) (form_market_price f)
            (form_S_or_F f) (form_K f) T (form_r f) (form_option_type f) ;;
    match iv with
    | Some v => if Req_dec_T v 0 then Return 0.2 else Return v
    | None => Return 0.2
    end
  else Return (sigma_input f).

(** The body of [if st.button("Calculate"):], as a function of today's date,
    the form and the stored positions. *)
Definition on_calculate (today : Z) (f : form) (positions : list dict)
  : result (list dict) :=
  let T := IZR (expiry_date f - today) / 365 in
  if Rle_bool T 0 then Return positions
  else
    let model_type := model_type f in
    sigma <- handler_sigma f T ;;
    model_price <- price_option model_type (form_S_or_F f) (form_K f) T
                     (form_r f) sigma (form_option_type f) ;;
    let pnl := model_price - entry_price f in
    greeks <- calculate_greeks model_type (form_S_or_F f) (form_K f) T
                (form_r f) sigma (form_option_type f) ;;
    let status := if (today <? expiry_date f)%Z then "Open" else "Closed" in
    let position :=
      [ ("Book", VStr (book f));
        ("Product Code", VStr (product_code f));
        ("Instrument", VStr (instrument f));
        ("Type", VStr (form_option_type f));
        ("Strike", VNum (form_K f));
        ("Entry Date", VDate (entry_date f));
        ("Expiry Date", VDate (expiry_date f));
        ("Entry Price", VNum (entry_price f));
        ("Model Price", VNum (round model_price 2));
        ("PnL", VNum (round pnl 2));
        ("Status", VStr status) ] in
    Return (positions ++ [dict_update position greeks])%list.

End CalculateHandler.

(** A filled-in form: an at-the-money call on a stock at 100, expiring on
    day 30, with the given market price of the option. *)
Definition sample_form (market_price : R) : form :=
  {| instrument := "stocks";
     form_option_type := "call";
     form_S_or_F := 100;
     form_K := 100;
     book := "Book 1";
     product_code := "GAS-MAR25";
     form_r := 0;
     entry_price := 10;
     entry_date := 0;
     expiry_date := 30;
     form_market_price := market_price;
     sigma_input := 0.2 |}.

(** The keys of a stored position, in order. *)
Definition position_keys : list string :=
  ["Book"; "Product Code"; "Instrument"; "Type"; "Strike"; "Entry Date";
   "Expiry Date"; "Entry Price"; "Model Price"; "PnL"; "Status";
   "Delta"; "Gamma"; "Vega"; "Theta"; "Rho"].

(** ** The Gaussian integral: vocabulary

    Used to show that the distribution function lies strictly between 0
    and 1. *)

Definition gauss (x : R) : R := exp (- x ^ 2 / 2).

(** The area under [gauss] between 0 and x. *)
Definition Psi (x : R) : R := sqrt (2 * PI) * (norm_cdf x - 1 / 2).

(** The integrand of the auxiliary integral and its first two derivatives
    in [x]. *)
Definition aux (x t : R) : R := exp (- (x ^ 2 * (1 + t ^ 2)) / 2) / (1 + t ^ 2).
Definition aux_x (x t : R) : R := - x * exp (- (x ^ 2 * (1 + t ^ 2)) / 2).
Definition aux_xx (x t : R) : R :=
  (x ^ 2 * (1 + t ^ 2) - 1) * exp (- (x ^ 2 * (1 + t ^ 2)) / 2).

Lemma one_plus_sq_pos (t : R) : 0 < 1 + t ^ 2.
Proof. pose proof (pow2_ge_0 t). lra. Qed.

Lemma aux_continuous (x : R) : continuity (aux x).
Proof.
  unfold aux. reg.
  intro t. pose proof (one_plus_sq_pos t). simpl in *. lra.
Qed.

Lemma aux_integrable (x : R) : Riemann_integrable (aux x) 0 1.
Proof.
  apply continuity_implies_RiemannInt; [lra |].
  intros; apply aux_continuous.
Qed.

(** The auxiliary integral [J x = int_0^1 exp(-x^2 (1+t^2)/2) / (1+t^2) dt]. *)
Definition J (x : R) : R := RiemannInt (aux_integrable x).

(** [mills_gap y= phi(y) - y * Phi(-y)] is positive: the upper tail of the
    normal law beyond [y > 0] weighs less than [phi(y) / y]. *)
Definition mills_gap (y : R) : R := norm_pdf y - y * norm_cdf (- y).

(** [Phi / phi] is strictly increasing. *)
Definition mills (x : R) : R := norm_cdf x / norm_pdf x.

(** ** Properties of the normal law *)

Lemma norm_pdf_even (x : R) : norm_pdf (- x) = norm_pdf x.
Proof. unfold norm_pdf. do 2 f_equal. field. Qed.

(** The distribution function is a primitive of the density. *)
Lemma norm_cdf_derivable (x : R) : derivable_pt_lim norm_cdf x (norm_pdf x).
Proof.
  assert (Hab : x - 1 <= x + 1) by lra.
  assert (C0 : forall y, x - 1 <= y <= x + 1 -> continuity_pt norm_pdf y)
    by (intros; apply norm_pdf_continuous).
  set (c := 1 / 2 + RiemannInt (norm_pdf_integrable 0 (x - 1))).
  apply (derivable_pt_lim_locally_ext
           (fct_cte c + primitive Hab (FTC_P1 Hab C0))%F norm_cdf
           x (x - 1) (x + 1)); [lra | |].
  - intros z Hz. unfold plus_fct, fct_cte, primitive, norm_cdf, c.
    destruct (Rle_dec (x - 1) z) as [H1 | H1]; [| lra].
    destruct (Rle_dec z (x + 1)) as [H2 | H2]; [| lra].
    rewrite Rplus_assoc. f_equal. apply RiemannInt_P26.
  - replace (norm_pdf x) with (0 + norm_pdf x) by ring.
    apply derivable_pt_lim_plus; [apply derivable_pt_lim_const |].
    apply RiemannInt_P28. lra.
Qed.

Lemma norm_cdf_continuous (x : R) : continuity_pt norm_cdf x.
Proof.
  apply derivable_continuous_pt. exists (norm_pdf x). apply norm_cdf_derivable.
Qed.

Lemma norm_cdf_0 : norm_cdf 0 = 1 / 2.
Proof. unfold norm_cdf. rewrite RiemannInt_P9. ring. Qed.

(** Symmetry of the normal law: [norm.cdf(-x) = 1 - norm.cdf(x)]. *)
Lemma norm_cdf_opp (x : R) : norm_cdf (- x) = 1 - norm_cdf x.
Proof.
  set (g := fun y : R => norm_cdf (- y) + norm_cdf y).
  assert (Hg : forall y, derivable_pt_lim g y 0).
  { intro y.
    apply (derivable_pt_lim_eq (comp norm_cdf (- id) + norm_cdf)%F g y
             (norm_pdf (- y) * - 1 + norm_pdf y)).
    - apply derivable_pt_lim_plus; [| apply norm_cdf_derivable].
      apply derivable_pt_lim_comp.
      + apply derivable_pt_lim_opp, derivable_pt_lim_id.
      + apply norm_cdf_derivable.
    - intro z; reflexivity.
    - rewrite norm_pdf_even; ring. }
  assert (pr : derivable g) by (intro y; exists 0; apply Hg).
  assert (Hc : constant g).
  { apply (null_derivative_1 g pr). intro y.
    apply (uniqueness_limite g y); [| apply Hg].
    destruct (pr y) as [l Hl]; exact Hl. }
  specialize (Hc x 0). unfold g in Hc.
  rewrite Ropp_0, norm_cdf_0 in Hc. lra.
Qed.

(** The distribution function is strictly increasing. *)
Lemma norm_cdf_increasing (x y : R) : x < y -> norm_cdf x < norm_cdf y.
Proof.
  intro Hxy.
  destruct (MVT_cor2 norm_cdf norm_pdf x y Hxy) as [c [Hc _]].
  - intros; apply norm_cdf_derivable.
  - assert (0 < norm_pdf c * (y - x))
      by (apply Rmult_lt_0_compat; [apply norm_pdf_pos | lra]).
    lra.
Qed.

(** ** Numeric bounds on the normal law *)

Lemma sqrt_2PI_bounds : 2 <= sqrt (2 * PI) <= 3.
Proof.
  pose proof PI_4 as H4. pose proof PI2_1 as H1.
  assert (E2 : sqrt (2 * 2) = 2) by (apply sqrt_square; lra).
  assert (E3 : sqrt (3 * 3) = 3) by (apply sqrt_square; lra).
  split.
  - rewrite <- E2 at 1. apply sqrt_le_1_alt. lra.
  - rewrite <- E3. apply sqrt_le_1_alt. lra.
Qed.

Lemma norm_pdf_le_half (c : R) : norm_pdf c <= 1 / 2.
Proof.
  pose proof sqrt_2PI_bounds as [Hlo _].
  assert (He : exp (- c ^ 2 / 2) <= 1).
  { rewrite <- exp_0. destruct (Req_dec (c ^ 2) 0) as [E | E].
    - rewrite E. replace (- 0 / 2) with 0 by field. lra.
    - left. apply exp_increasing. pose proof (pow2_ge_0 c). lra. }
  unfold norm_pdf. apply (Rmult_le_reg_r (sqrt (2 * PI))); [lra |].
  unfold Rdiv. rewrite Rmult_assoc, Rinv_l by lra.
  pose proof (exp_pos (- c ^ 2 / 2)). nra.
Qed.

(** On [-b, b] the density is at least [(1 - b^2/2) / 3]. *)
Lemma norm_pdf_lower (b c : R) :
  - b <= c <= b -> b ^ 2 <= 2 -> (1 - b ^ 2 / 2) / 3 <= norm_pdf c.
Proof.
  intros Hc Hb.
  pose proof sqrt_2PI_bounds as [Hlo Hhi].
  assert (Hcb : c ^ 2 <= b ^ 2) by nra.
  pose proof (exp_ineq1_le (- c ^ 2 / 2)) as He.
  unfold norm_pdf.
  apply (Rle_trans _ (exp (- c ^ 2 / 2) / 3)).
  - unfold Rdiv. apply Rmult_le_compat_r; lra.
  - unfold Rdiv. apply Rmult_le_compat_l; [left; apply exp_pos |].
    apply Rinv_le_contravar; lra.
Qed.

Lemma norm_cdf_diff_upper (x y : R) :
  x < y -> norm_cdf y - norm_cdf x <= (y - x) / 2.
Proof.
  intro Hxy.
  destruct (MVT_cor2 norm_cdf norm_pdf x y Hxy) as [c [Hc _]].
  - intros; apply norm_cdf_derivable.
  - pose proof (norm_pdf_le_half c). rewrite Hc. nra.
Qed.

Lemma norm_cdf_diff_lower (b x y : R) :
  - b <= x -> x < y -> y <= b -> b ^ 2 <= 2 ->
  (1 - b ^ 2 / 2) / 3 * (y - x) <= norm_cdf y - norm_cdf x.
Proof.
  intros Hbx Hxy Hyb Hb.
  destruct (MVT_cor2 norm_cdf norm_pdf x y Hxy) as [c [Hc Hin]].
  - intros; apply norm_cdf_derivable.
  - assert (Hm : (1 - b ^ 2 / 2) / 3 <= norm_pdf c)
      by (apply norm_pdf_lower; lra).
    rewrite Hc. apply Rmult_le_compat_r; lra.
Qed.

(** ** Calculus of the closed forms in the volatility *)

Section Vega.

Variables S K T r : R.
Hypothesis S_pos : 0 < S.
Hypothesis K_pos : 0 < K.
Hypothesis T_pos : 0 < T.

Let d1 := ClosedForm.d1_spot S K T r.
Let d2 := ClosedForm.d2_spot S K T r.
Let call := ClosedForm.call_spot S K T r.
Let d1' := d1_spot_derivative S K T r.

Lemma sqrt_T_pos : 0 < sqrt T.
Proof. apply sqrt_lt_R0, T_pos. Qed.

Lemma sqrt_T_sqr : sqrt T * sqrt T = T.
Proof. apply sqrt_sqrt; lra. Qed.

Lemma d1_derivable (sigma : R) :
  0 < sigma -> derivable_pt_lim d1 sigma (d1' sigma).
Proof.
  intro Hs. pose proof sqrt_T_pos as HT.
  set (u := fun s : R => ln (S / K) + (r + 0.5 * s ^ 2) * T).
  set (v := fun s : R => s * sqrt T).
  assert (Hu : derivable_pt_lim u sigma (sigma * T)).
  { apply (derivable_pt_lim_eq
             (fct_cte (ln (S / K) + r * T)
              + (fun s => ((fun z => z ^ 2) s * (0.5 * T))%R))%F u sigma
             (0 + INR 2 * sigma ^ Nat.pred 2 * (0.5 * T))).
    - apply derivable_pt_lim_plus; [apply derivable_pt_lim_const |].
      apply derivable_pt_lim_scal_right, derivable_pt_lim_pow.
    - intro y; unfold plus_fct, fct_cte, u; lra.
    - simpl; lra. }
  assert (Hv : derivable_pt_lim v sigma (sqrt T)).
  { apply (derivable_pt_lim_eq (fun s => id s * sqrt T) v sigma
             (1 * sqrt T)).
    - apply derivable_pt_lim_scal_right, derivable_pt_lim_id.
    - intro y; reflexivity.
    - ring. }
  apply (derivable_pt_lim_eq (u / v)%F d1 sigma
           ((sigma * T * v sigma - sqrt T * u sigma) / Rsqr (v sigma))).
  - apply derivable_pt_lim_div; [exact Hu | exact Hv |].
    unfold v; apply Rgt_not_eq, Rmult_lt_0_compat; lra.
  - intro y; reflexivity.
  - reflexivity.
Qed.

(** The identity behind vega: [S phi(d1) = K exp(-rT) phi(d2)]. *)
Lemma pdf_d1_d2 (sigma : R) :
  0 < sigma ->
  S * norm_pdf (d1 sigma) = K * exp (- (r * T)) * norm_pdf (d2 sigma).
Proof.
  intro Hs. pose proof sqrt_T_pos as HT. pose proof sqrt_T_sqr as HTT.
  assert (Hv : sigma * sqrt T <> 0)
    by (apply Rgt_not_eq, Rmult_lt_0_compat; lra).
  assert (HS : S = K * exp (ln (S / K))).
  { rewrite exp_ln; [field; lra | apply Rdiv_lt_0_compat; lra]. }
  assert (Hd : d1 sigma * (sigma * sqrt T)
               = ln (S / K) + (r + 0.5 * sigma ^ 2) * T).
  { unfold d1, ClosedForm.d1_spot. field. split; lra. }
  unfold norm_pdf. rewrite HS at 1.
  unfold Rdiv. rewrite <- !Rmult_assoc. f_equal.
  rewrite !Rmult_assoc, <- !exp_plus. do 2 f_equal.
  unfold d2, ClosedForm.d2_spot. fold d1.
  set (x := d1 sigma) in *. set (w := sqrt T) in *.
  assert (H2 : (x - sigma * w) ^ 2
               = x ^ 2 - 2 * (x * (sigma * w)) + sigma ^ 2 * (w * w))
    by ring.
  rewrite H2, Hd, HTT. lra.
Qed.

(** Vega of the spot call before scaling: [S phi(d1) sqrt(T)]. *)
Lemma call_spot_derivable (sigma : R) :
  0 < sigma ->
  derivable_pt_lim call sigma (S * norm_pdf (d1 sigma) * sqrt T).
Proof.
  intro Hs.
  pose proof (d1_derivable sigma Hs) as H1.
  assert (H2 : derivable_pt_lim d2 sigma (d1' sigma - sqrt T)).
  { apply (derivable_pt_lim_eq (d1 - (fun s => (id s * sqrt T)%R))%F d2 sigma
             (d1' sigma - 1 * sqrt T)).
    - apply derivable_pt_lim_minus; [exact H1 |].
      apply derivable_pt_lim_scal_right, derivable_pt_lim_id.
    - intro y; reflexivity.
    - ring. }
  apply (derivable_pt_lim_eq
           (mult_real_fct S (comp norm_cdf d1)
            - mult_real_fct (K * exp (- (r * T))) (comp norm_cdf d2))%F
           call sigma
           (S * (norm_pdf (d1 sigma) * d1' sigma)
            - K * exp (- (r * T))
              * (norm_pdf (d2 sigma) * (d1' sigma - sqrt T)))).
  - apply derivable_pt_lim_minus; apply derivable_pt_lim_scal;
      apply derivable_pt_lim_comp;
      solve [assumption | apply norm_cdf_derivable].
  - intro y; reflexivity.
  - pose proof (pdf_d1_d2 sigma Hs) as Hid.
    set (a := norm_pdf (d1 sigma)) in *.
    set (b := norm_pdf (d2 sigma)) in *.
    set (D := K * exp (- (r * T))) in *.
    replace (D * (b * (d1' sigma - sqrt T)))
      with (D * b * (d1' sigma - sqrt T)) by ring.
    rewrite <- Hid. ring.
Qed.

Lemma call_spot_continuous (sigma : R) :
  0 < sigma -> continuity_pt call sigma.
Proof.
  intro Hs. apply derivable_continuous_pt.
  exists (S * norm_pdf (d1 sigma) * sqrt T).
  apply call_spot_derivable, Hs.
Qed.

End Vega.

(** ** The source functions compute the closed forms *)

(** The division [S / K] of the four pricing and Greeks functions. *)
Lemma div_nonzero (x y : R) : y <> 0 -> Py.div x y = Return (x / y).
Proof.
  intro H. unfold Py.div. destruct (Req_dec_T y 0); [contradiction | reflexivity].
Qed.

Lemma div_zero (x : R) : Py.div x 0 = Raise ZeroDivisionError.
Proof.
  unfold Py.div. destruct (Req_dec_T 0 0) as [_ | H]; [reflexivity |].
  exfalso. apply H. reflexivity.
Qed.

(** A non-zero side condition, from the hypotheses at hand. *)
Ltac nonzero :=
  solve [assumption | apply Rgt_not_eq; assumption | lra].

Ltac closed_form :=
  cbv zeta; rewrite ?String.eqb_refl; cbv iota;
  rewrite <- ?Ropp_mult_distr_l; reflexivity.

Lemma black_scholes_call (S K T r sigma : R) :
  K <> 0 ->
  black_scholes S K T r sigma "call"
  = Return (ClosedForm.call_spot S K T r sigma).
Proof.
  intro HK.
  unfold black_scholes, ClosedForm.call_spot, ClosedForm.d2_spot,
    ClosedForm.d1_spot.
  rewrite (div_nonzero S K HK). cbn [bind].
  closed_form.
Qed.

Lemma black_scholes_put (S K T r sigma : R) :
  K <> 0 ->
  black_scholes S K T r sigma "put"
  = Return (ClosedForm.put_spot S K T r sigma).
Proof.
  intro HK.
  unfold black_scholes, ClosedForm.put_spot, ClosedForm.d2_spot,
    ClosedForm.d1_spot.
  rewrite (div_nonzero S K HK). cbn [bind].
  change ("put" =? "call") with false. closed_form.
Qed.

Lemma black_76_call (F K T r sigma : R) :
  K <> 0 ->
  black_76 F K T r sigma "call"
  = Return (ClosedForm.call_futures F K T r sigma).
Proof.
  intro HK.
  unfold black_76, ClosedForm.call_futures, ClosedForm.d2_futures,
    ClosedForm.d1_futures, ClosedForm.df.
  rewrite (div_nonzero F K HK). cbn [bind].
  closed_form.
Qed.

Lemma black_76_put (F K T r sigma : R) :
  K <> 0 ->
  black_76 F K T r sigma "put"
  = Return (ClosedForm.put_futures F K T r sigma).
Proof.
  intro HK.
  unfold black_76, ClosedForm.put_futures, ClosedForm.d2_futures,
    ClosedForm.d1_futures, ClosedForm.df.
  rewrite (div_nonzero F K HK). cbn [bind].
  change ("put" =? "call") with false. closed_form.
Qed.

Lemma price_option_valid (model : string) (S_or_F K T r sigma : R)
  (option_type : string) :
  valid_model model -> valid_option_type option_type -> K <> 0 ->
  price_option model S_or_F K T r sigma option_type
  = Return (ClosedForm.price model S_or_F K T r sigma option_type).
Proof.
  intros [-> | ->] [-> | ->] HK; unfold price_option, ClosedForm.price.
  - change ("spot" =? "spot") with true. apply black_scholes_call, HK.
  - change ("spot" =? "spot") with true. apply black_scholes_put, HK.
  - change ("futures" =? "spot") with false. apply black_76_call, HK.
  - change ("futures" =? "spot") with false. apply black_76_put, HK.
Qed.

(** With a zero strike the division raises before anything else is looked
    at, whatever the option type. *)
Lemma black_scholes_zero_strike (S T r sigma : R) (option_type : string) :
  black_scholes S 0 T r sigma option_type = Raise ZeroDivisionError.
Proof. unfold black_scholes. rewrite div_zero. reflexivity. Qed.

Lemma black_76_zero_strike (F T r sigma : R) (option_type : string) :
  black_76 F 0 T r sigma option_type = Raise ZeroDivisionError.
Proof. unfold black_76. rewrite div_zero. reflexivity. Qed.



(** ** Put-call parity and the futures price as a discounted spot price *)

Lemma parity_spot (S K T r sigma : R) :
  ClosedForm.call_spot S K T r sigma - ClosedForm.put_spot S K T r sigma
  = S - K * exp (- (r * T)).
Proof.
  unfold ClosedForm.call_spot, ClosedForm.put_spot.
  rewrite !norm_cdf_opp. ring.
Qed.

Lemma parity_futures (F K T r sigma : R) :
  ClosedForm.call_futures F K T r sigma - ClosedForm.put_futures F K T r sigma
  = ClosedForm.df T r * (F - K).
Proof.
  unfold ClosedForm.call_futures, ClosedForm.put_futures.
  rewrite !norm_cdf_opp. ring.
Qed.

Lemma d1_futures_spot (F K T sigma : R) :
  ClosedForm.d1_futures F K T sigma = ClosedForm.d1_spot F K T 0 sigma.
Proof.
  unfold ClosedForm.d1_futures, ClosedForm.d1_spot. f_equal. ring.
Qed.

Lemma call_futures_spot (F K T r sigma : R) :
  ClosedForm.call_futures F K T r sigma
  = ClosedForm.df T r * ClosedForm.call_spot F K T 0 sigma.
Proof.
  unfold ClosedForm.call_futures, ClosedForm.call_spot, ClosedForm.d2_futures,
    ClosedForm.d2_spot.
  rewrite d1_futures_spot.
  replace (- (0 * T)) with 0 by ring. rewrite exp_0. ring.
Qed.

Lemma df_pos (T r : R) : 0 < ClosedForm.df T r.
Proof. apply exp_pos. Qed.

(** ** Continuity of the four prices in the volatility *)

Section Continuity.

Variables S_or_F K T r : R.
Hypothesis S_pos : 0 < S_or_F.
Hypothesis K_pos : 0 < K.
Hypothesis T_pos : 0 < T.

Lemma price_continuous (model option_type : string) (sigma : R) :
  valid_model model -> valid_option_type option_type -> 0 < sigma ->
  continuity_pt
    (fun s => ClosedForm.price model S_or_F K T r s option_type) sigma.
Proof.
  intros Hm Ho Hs.
  pose proof (call_spot_continuous S_or_F K T r S_pos K_pos T_pos sigma Hs)
    as Hc.
  pose proof (call_spot_continuous S_or_F K T 0 S_pos K_pos T_pos sigma Hs)
    as Hc0.
  destruct Hm as [-> | ->], Ho as [-> | ->]; cbn.
  - exact Hc.
  - apply (continuity_pt_eq
             (ClosedForm.call_spot S_or_F K T r
              - fct_cte (S_or_F - K * exp (- (r * T))))%F).
    + intro s. unfold minus_fct, fct_cte.
      pose proof (parity_spot S_or_F K T r s). lra.
    + apply continuity_pt_minus; [exact Hc | apply continuity_pt_const].
      intros x y; reflexivity.
  - apply (continuity_pt_eq
             (mult_real_fct (ClosedForm.df T r)
                (ClosedForm.call_spot S_or_F K T 0))).
    + intro s. unfold mult_real_fct. symmetry. apply call_futures_spot.
    + apply continuity_pt_scal, Hc0.
  - apply (continuity_pt_eq
             (mult_real_fct (ClosedForm.df T r)
                (ClosedForm.call_spot S_or_F K T 0)
              - fct_cte (ClosedForm.df T r * (S_or_F - K)))%F).
    + intro s. unfold minus_fct, mult_real_fct, fct_cte.
      pose proof (parity_futures S_or_F K T r s).
      pose proof (call_futures_spot S_or_F K T r s). lra.
    + apply continuity_pt_minus; [| apply continuity_pt_const].
      * apply continuity_pt_scal, Hc0.
      * intros x y; reflexivity.
Qed.

End Continuity.

(** ** Rounding *)

Lemma Rabs_le_bounds (a b : R) : Rabs a <= b -> - b <= a <= b.
Proof. unfold Rabs. destruct (Rcase_abs a); lra. Qed.

Lemma rint_error (x : R) : Rabs (IZR (rint x) - x) <= 1 / 2.
Proof.
  unfold rint.
  pose proof (base_fp x) as [Hf0 Hf1].
  pose proof (Rplus_Int_part_frac_part x) as Hx.
  destruct (Rlt_dec (frac_part x) (1 / 2)) as [Hlt | Hge].
  - apply Rabs_le; lra.
  - destruct (Rlt_dec (1 / 2) (frac_part x)) as [Hgt | Hle].
    + rewrite plus_IZR. apply Rabs_le; lra.
    + destruct (Z.even (Int_part x)).
      * apply Rabs_le; lra.
      * rewrite plus_IZR. apply Rabs_le; lra.
Qed.

Lemma rint_IZR (z : Z) : rint (IZR z) = z.
Proof.
  assert (Hi : Int_part (IZR z) = z) by (symmetry; apply Int_part_spec; lra).
  unfold rint, frac_part. rewrite Hi.
  destruct (Rlt_dec (IZR z - IZR z) (1 / 2)); [reflexivity | lra].
Qed.

(** Two reals more than one apart round to different integers. *)
Lemma rint_separated (x y : R) : 1 < x - y -> rint x <> rint y.
Proof.
  intros Hxy Heq.
  pose proof (rint_error x) as Hx. pose proof (rint_error y) as Hy.
  rewrite Heq in Hx.
  apply Rabs_le_bounds in Hx. apply Rabs_le_bounds in Hy. lra.
Qed.

Lemma pow10_pos (n : nat) : 0 < 10 ^ n.
Proof. apply pow_lt; lra. Qed.

Lemma round_error (x : R) (n : nat) :
  Rabs (round x n - x) <= 1 / 2 / 10 ^ n.
Proof.
  pose proof (pow10_pos n) as Hp.
  pose proof (rint_error (x * 10 ^ n)) as He.
  unfold round.
  replace (IZR (rint (x * 10 ^ n)) / 10 ^ n - x)
    with ((IZR (rint (x * 10 ^ n)) - x * 10 ^ n) * / 10 ^ n)
    by (field; lra).
  rewrite Rabs_mult, (Rabs_pos_eq (/ 10 ^ n))
    by (left; apply Rinv_0_lt_compat, Hp).
  unfold Rdiv. apply Rmult_le_compat_r; [| exact He].
  left; apply Rinv_0_lt_compat, Hp.
Qed.

Lemma round_4_error (x : R) : Rabs (round x 4 - x) <= 0.00005.
Proof.
  pose proof (round_error x 4) as H.
  replace (1 / 2 / 10 ^ 4) with 0.00005 in H by lra. exact H.
Qed.

(** A rounded value is left unchanged by rounding: it has [n] decimals. *)
Lemma round_idempotent (x : R) (n : nat) : round (round x n) n = round x n.
Proof.
  pose proof (pow10_pos n) as Hp.
  unfold round at 1.
  replace (round x n * 10 ^ n) with (IZR (rint (x * 10 ^ n)))
    by (unfold round; field; lra).
  rewrite rint_IZR. reflexivity.
Qed.

Lemma round_separated (x y : R) :
  0.0001 < x - y -> round x 4 <> round y 4.
Proof.
  intros Hxy Heq. unfold round in Heq.
  assert (Hz : IZR (rint (x * 10 ^ 4)) = IZR (rint (y * 10 ^ 4))).
  { apply (Rmult_eq_reg_r (/ 10 ^ 4)); [exact Heq |].
    apply Rinv_neq_0_compat. lra. }
  apply eq_IZR in Hz. revert Hz. apply rint_separated. lra.
Qed.

Lemma round_has_decimals (x : R) (n : nat) : has_decimals n (round x n).
Proof. exists (rint (x * 10 ^ n)). reflexivity. Qed.


(** ** Dispatch on the two enumerations *)

Lemma not_call_put (option_type : string) :
  ~ valid_option_type option_type ->
  (option_type =? "call") = false /\ (option_type =? "put") = false.
Proof.
  intro H. split; apply String.eqb_neq; intro E; apply H; [left | right];
    exact E.
Qed.

Lemma not_spot_futures (model : string) :
  ~ valid_model model ->
  (model =? "spot") = false /\ (model =? "futures") = false.
Proof.
  intro H. split; apply String.eqb_neq; intro E; apply H; [left | right];
    exact E.
Qed.

Lemma black_scholes_invalid (S K T r sigma : R) (option_type : string) :
  ~ valid_option_type option_type -> K <> 0 ->
  black_scholes S K T r sigma option_type = Raise option_type_error.
Proof.
  intros H HK. destruct (not_call_put _ H) as [Hc Hp].
  unfold black_scholes. rewrite (div_nonzero S K HK). cbn [bind]. cbv zeta.
  rewrite Hc, Hp. reflexivity.
Qed.

Lemma black_76_invalid (F K T r sigma : R) (option_type : string) :
  ~ valid_option_type option_type -> K <> 0 ->
  black_76 F K T r sigma option_type = Raise option_type_error.
Proof.
  intros H HK. destruct (not_call_put _ H) as [Hc Hp].
  unfold black_76. rewrite (div_nonzero F K HK). cbn [bind]. cbv zeta.
  rewrite Hc, Hp. reflexivity.
Qed.

Lemma calculate_greeks_bs_invalid (S K T r sigma : R) (option_type : string) :
  ~ valid_option_type option_type -> K <> 0 ->
  calculate_greeks_bs S K T r sigma option_type = Raise option_type_error.
Proof.
  intros H HK. destruct (not_call_put _ H) as [Hc Hp].
  unfold calculate_greeks_bs. rewrite (div_nonzero S K HK). cbn [bind]. cbv zeta.
  rewrite Hc, Hp. reflexivity.
Qed.

Lemma calculate_greeks_black76_invalid (F K T r sigma : R)
  (option_type : string) :
  ~ valid_option_type option_type -> K <> 0 ->
  calculate_greeks_black76 F K T r sigma option_type = Raise option_type_error.
Proof.
  intros H HK. destruct (not_call_put _ H) as [Hc Hp].
  unfold calculate_greeks_black76. rewrite (div_nonzero F K HK). cbn [bind]. cbv zeta.
  rewrite Hc, Hp. reflexivity.
Qed.

Lemma valid_model_cases (model : string) :
  valid_model model \/ ~ valid_model model.
Proof.
  unfold valid_model.
  destruct (string_dec model "spot"); [tauto |].
  destruct (string_dec model "futures"); tauto.
Qed.

Lemma straddle_invalid : ~ valid_option_type "straddle".
Proof. intros [H | H]; discriminate H. Qed.

Lemma calculate_greeks_bs_valid (S K T r sigma : R) (option_type : string) :
  valid_option_type option_type -> K <> 0 ->
  exists delta gamma vega theta rho,
    calculate_greeks_bs S K T r sigma option_type
    = Return (greeks_dict delta gamma vega theta rho).
Proof.
  intros [-> | ->] HK; unfold calculate_greeks_bs;
    rewrite (div_nonzero S K HK); cbn [bind]; cbv zeta.
  - rewrite String.eqb_refl. do 5 eexists. reflexivity.
  - change ("put" =? "call") with false. rewrite String.eqb_refl.
    do 5 eexists. reflexivity.
Qed.

Lemma calculate_greeks_black76_valid (F K T r sigma : R)
  (option_type : string) :
  valid_option_type option_type -> K <> 0 ->
  exists delta gamma vega theta rho,
    calculate_greeks_black76 F K T r sigma option_type
    = Return (greeks_dict delta gamma vega theta rho).
Proof.
  intros [-> | ->] HK; unfold calculate_greeks_black76;
    rewrite (div_nonzero F K HK); cbn [bind]; cbv zeta.
  - rewrite String.eqb_refl. do 5 eexists. reflexivity.
  - change ("put" =? "call") with false. rewrite String.eqb_refl.
    do 5 eexists. reflexivity.
Qed.

Lemma calculate_greeks_black76_call (F K T r sigma : R) :
  K <> 0 ->
  exists delta gamma vega,
    calculate_greeks_black76 F K T r sigma "call"
    = Return (greeks_dict delta gamma vega
                (FuturesGreeks.theta_call F K T r sigma)
                (FuturesGreeks.rho_call_spec F K T r sigma)).
Proof.
  intro HK.
  unfold calculate_greeks_black76. rewrite (div_nonzero F K HK). cbn [bind].
  cbv zeta. rewrite String.eqb_refl.
  cbn [bind]. do 3 eexists. f_equal.
  unfold FuturesGreeks.theta_call, FuturesGreeks.rho_call_spec,
    ClosedForm.d2_futures, ClosedForm.d1_futures, ClosedForm.df.
  rewrite <- !Ropp_mult_distr_l. f_equal; f_equal; ring.
Qed.





(** ** The implied-volatility solver *)

Lemma Rle_bool_true (x y : R) : x <= y -> Rle_bool x y = true.
Proof. intro H. unfold Rle_bool. destruct (Rle_dec x y); [reflexivity | lra]. Qed.

Lemma Rle_bool_false (x y : R) : y < x -> Rle_bool x y = false.
Proof. intro H. unfold Rle_bool. destruct (Rle_dec x y); [lra | reflexivity]. Qed.

Section Solver.

Variable brentq : (R -> result R) -> R -> R -> result R.

Lemma get_implied_volatility_invalid
  (model option_type : string) (market_price S_or_F K T r : R) :
  valid_model model -> ~ valid_option_type option_type -> K <> 0 ->
  get_implied_volatility brentq model market_price S_or_F K T r option_type
  = Return None.
Proof.
  intros Hm Ho HK. unfold get_implied_volatility. destruct Hm as [-> | ->].
  - change ("spot" =? "spot") with true. cbv iota.
    unfold implied_volatility. cbv zeta.
    rewrite !black_scholes_invalid by assumption. reflexivity.
  - change ("futures" =? "spot") with false.
    change ("futures" =? "futures") with true. cbv iota.
    unfold implied_volatility_black76. cbv zeta.
    rewrite !black_76_invalid by assumption. reflexivity.
Qed.

(** With a zero strike the solver's first pricing call raises
    ZeroDivisionError, which its handler does not catch. *)
Lemma get_implied_volatility_zero_strike
  (model option_type : string) (market_price S_or_F T r : R) :
  valid_model model ->
  get_implied_volatility brentq model market_price S_or_F 0 T r option_type
  = Raise ZeroDivisionError.
Proof.
  intros Hm. unfold get_implied_volatility. destruct Hm as [-> | ->].
  - change ("spot" =? "spot") with true. cbv iota.
    unfold implied_volatility. cbv zeta.
    rewrite !black_scholes_zero_strike. reflexivity.
  - change ("futures" =? "spot") with false.
    change ("futures" =? "futures") with true. cbv iota.
    unfold implied_volatility_black76. cbv zeta.
    rewrite !black_76_zero_strike. reflexivity.
Qed.

(** The solver in terms of the two bracket prices. *)
Lemma get_implied_volatility_valid
  (model option_type : string) (market_price S_or_F K T r : R) :
  valid_model model -> valid_option_type option_type -> K <> 0 ->
  get_implied_volatility brentq model market_price S_or_F K T r option_type
  = if negb
         (Rle_bool (ClosedForm.price model S_or_F K T r 0.0001 option_type)
            market_price
          && Rle_bool market_price
               (ClosedForm.price model S_or_F K T r 3.0 option_type))
    then Return None
    else root_finding brentq model S_or_F K T r option_type market_price.
Proof.
  intros Hm Ho HK. unfold get_implied_volatility, root_finding, objective.
  destruct Hm as [-> | ->].
  - change ("spot" =? "spot") with true. cbv iota.
    unfold implied_volatility. cbv zeta.
    pose proof (price_option_valid "spot" S_or_F K T r 0.0001 option_type
                  (or_introl eq_refl) Ho HK) as Hlo.
    pose proof (price_option_valid "spot" S_or_F K T r 3.0 option_type
                  (or_introl eq_refl) Ho HK) as Hhi.
    change (price_option "spot") with black_scholes in *.
    rewrite Hlo, Hhi. cbn [bind].
    destruct (negb _); reflexivity.
  - change ("futures" =? "spot") with false.
    change ("futures" =? "futures") with true. cbv iota.
    unfold implied_volatility_black76. cbv zeta.
    pose proof (price_option_valid "futures" S_or_F K T r 0.0001 option_type
                  (or_intror eq_refl) Ho HK) as Hlo.
    pose proof (price_option_valid "futures" S_or_F K T r 3.0 option_type
                  (or_intror eq_refl) Ho HK) as Hhi.
    change (price_option "futures") with black_76 in *.
    rewrite Hlo, Hhi. cbn [bind].
    destruct (negb _); reflexivity.
Qed.

End Solver.

Lemma sign_change_root (g : R -> R) (a b : R) :
  a < b ->
  (forall x, a <= x <= b -> continuity_pt g x) ->
  g a * g b <= 0 ->
  exists z, a <= z <= b /\ g z = 0.
Proof.
  intros Hab Hc Hs.
  destruct (Req_dec (g a) 0) as [Ea | Na]; [exists a; split; [lra | exact Ea] |].
  destruct (Req_dec (g b) 0) as [Eb | Nb]; [exists b; split; [lra | exact Eb] |].
  destruct (Rlt_dec (g a) 0) as [La | Ga].
  - assert (Hb : 0 < g b) by nra.
    destruct (IVT_interv g a b Hc Hab La Hb) as [z Hz]. exists z; exact Hz.
  - assert (Ha : 0 < g a) by lra.
    assert (Hb : g b < 0) by nra.
    destruct (IVT_interv (- g)%F a b) as [z [Hz Ez]].
    + intros x Hx. apply continuity_pt_opp, Hc, Hx.
    + exact Hab.
    + unfold opp_fct; lra.
    + unfold opp_fct; lra.
    + exists z. split; [exact Hz |]. unfold opp_fct in Ez. lra.
Qed.

Lemma exact_root_contract : brentq_contract exact_root.
Proof.
  intros f g a b Hab Hf Hc Hs.
  destruct (sign_change_root g a b Hab Hc Hs) as [z [Hz Ez]].
  assert (Hex : exists z, a <= z <= b /\ f z = Return 0).
  { exists z. split; [exact Hz |]. rewrite Hf by exact Hz. rewrite Ez.
    reflexivity. }
  unfold exact_root.
  destruct (excluded_middle_informative _) as [H | H]; [| contradiction].
  destruct (constructive_indefinite_description _ H) as [x0 [Hx0 Ex0]].
  cbn [proj1_sig].
  assert (Eg : g x0 = 0).
  { rewrite Hf in Ex0 by exact Hx0. injection Ex0 as E. exact E. }
  exists x0, x0. repeat split; try lra; try exact Eg.
  rewrite Rminus_diag, Rabs_R0. unfold xtol, rtol.
  pose proof (Rabs_pos x0). nra.
Qed.

(** ** The solver on a market price inside the bracket *)

(** With a root finder that meets the contract of [brentq], a market price
    between the two bracket prices makes the solver return the rounding of
    the root finder's result, which lies within the tolerance of a
    volatility that reproduces the market price. *)
Lemma solver_returns
  (brentq : (R -> result R) -> R -> R -> result R)
  (model option_type : string) (market_price S_or_F K T r : R) :
  brentq_contract brentq ->
  valid_model model -> valid_option_type option_type ->
  0 < S_or_F -> 0 < K -> 0 < T ->
  ClosedForm.price model S_or_F K T r 0.0001 option_type <= market_price
  <= ClosedForm.price model S_or_F K T r 3.0 option_type ->
  exists x0 x,
    get_implied_volatility brentq model market_price S_or_F K T r option_type
    = Return (Some (round x0 4))
    /\ 0.0001 <= x0 <= 3.0
    /\ 0.0001 <= x <= 3.0
    /\ ClosedForm.price model S_or_F K T r x option_type = market_price
    /\ Rabs (x - x0) <= xtol + rtol * Rabs x0.
Proof.
  intros Hb Hm Ho HS HK HT [H1 H2].
  set (price := fun s => ClosedForm.price model S_or_F K T r s option_type).
  set (g := fun s : R => price s - market_price).
  destruct (Hb (objective model S_or_F K T r option_type market_price)
              g 0.0001 3.0) as (x0 & x & Hret & Hx0 & Hx & Hroot & Htol).
  - lra.
  - intros s _. unfold objective.
    rewrite price_option_valid by nonzero. reflexivity.
  - intros s Hs.
    apply (continuity_pt_eq (price - fct_cte market_price)%F g).
    + intro y; reflexivity.
    + apply continuity_pt_minus; [| apply continuity_pt_const].
      * apply price_continuous; try assumption. lra.
      * intros y z; reflexivity.
  - unfold g, price. nra.
  - exists x0, x. split; [| split; [exact Hx0 |]].
    + rewrite get_implied_volatility_valid by nonzero.
      rewrite (Rle_bool_true _ _ H1), (Rle_bool_true _ _ H2).
      cbn [andb negb]. unfold root_finding. rewrite Hret. reflexivity.
    + split; [exact Hx |]. split; [| exact Htol].
      unfold g, price in Hroot. lra.
Qed.

(** ** Two worked contracts *)

(** An at-the-money contract: S = K = 100, T = 0.25, r = 0 *)

Lemma ln_100_100 : ln (100 / 100) = 0.
Proof. replace (100 / 100) with 1 by field. apply ln_1. Qed.

Lemma sqrt_quarter : sqrt 0.25 = 0.5.
Proof.
  replace 0.25 with (0.5 * 0.5) by lra. apply sqrt_square. lra.
Qed.

Lemma atm_call_spot (sigma : R) :
  sigma <> 0 ->
  ClosedForm.call_spot 100 100 0.25 0 sigma
  = 100 * (norm_cdf (0.25 * sigma) - norm_cdf (- (0.25 * sigma))).
Proof.
  intro Hs.
  assert (H1 : ClosedForm.d1_spot 100 100 0.25 0 sigma = 0.25 * sigma).
  { unfold ClosedForm.d1_spot. rewrite ln_100_100, sqrt_quarter.
    apply (Rmult_eq_reg_r (sigma * 0.5)); [| nra].
    unfold Rdiv. rewrite Rmult_assoc, Rinv_l by nra. simpl. lra. }
  assert (H2 : ClosedForm.d2_spot 100 100 0.25 0 sigma = - (0.25 * sigma)).
  { unfold ClosedForm.d2_spot. rewrite H1, sqrt_quarter. lra. }
  unfold ClosedForm.call_spot. rewrite H1, H2.
  replace (- (0 * 0.25)) with 0 by lra. rewrite exp_0. ring.
Qed.

Lemma atm_bracket :
  ClosedForm.call_spot 100 100 0.25 0 0.0001 <= 10
  /\ 10 <= ClosedForm.call_spot 100 100 0.25 0 3.0.
Proof.
  rewrite !atm_call_spot by lra. split.
  - pose proof (norm_cdf_diff_upper (- (0.25 * 0.0001)) (0.25 * 0.0001)).
    lra.
  - pose proof (norm_cdf_diff_lower 0.75 (- (0.25 * 3.0)) (0.25 * 3.0)).
    lra.
Qed.

(** A futures contract at the money: F = K = 100, T = 1, r = 0.05,
    sigma = 0.2. *)
Lemma futures_example_d1 : ClosedForm.d1_futures 100 100 1 0.2 = 0.1.
Proof.
  unfold ClosedForm.d1_futures. rewrite ln_100_100, sqrt_1. lra.
Qed.

Lemma futures_example_d2 : ClosedForm.d2_futures 100 100 1 0.2 = - 0.1.
Proof.
  unfold ClosedForm.d2_futures. rewrite futures_example_d1, sqrt_1. lra.
Qed.

Lemma futures_example_theta_gap :
  0.0001 < FuturesGreeks.theta_call_spec 100 100 1 0.05 0.2
           - FuturesGreeks.theta_call 100 100 1 0.05 0.2.
Proof.
  unfold FuturesGreeks.theta_call_spec, FuturesGreeks.theta_call.
  rewrite futures_example_d2, futures_example_d1.
  pose proof (exp_ineq1_le (- (0.05 * 1))) as Hdf.
  fold (ClosedForm.df 1 0.05) in Hdf.
  pose proof (norm_cdf_diff_lower 0.1 (- 0.1) 0.1) as Hphi.
  set (D := ClosedForm.df 1 0.05) in *.
  set (a := norm_cdf 0.1) in *. set (b := norm_cdf (- 0.1)) in *.
  set (A := - (100) * norm_pdf 0.1 * 0.2 * D / (2 * sqrt 1)).
  assert (Hab : 0.066 <= a - b) by lra.
  assert (HD : 0.95 <= D) by lra.
  assert (Hprod : 0.95 * 0.066 <= D * (a - b)) by nra.
  lra.
Qed.

(** ** Properties stated by the specification *)

(** C1: for positive S (or F), K, T and sigma, the spot-model price is the
    dividendless Black-Scholes closed form and the futures-model price is the
    Black-76 closed form, for calls and for puts. *)
Theorem price_option_closed_form (S_or_F K T r sigma : R) :
  0 < S_or_F -> 0 < K -> 0 < T -> 0 < sigma ->
  price_option "spot" S_or_F K T r sigma "call"
  = Return (ClosedForm.call_spot S_or_F K T r sigma)
  /\ price_option "spot" S_or_F K T r sigma "put"
     = Return (ClosedForm.put_spot S_or_F K T r sigma)
  /\ price_option "futures" S_or_F K T r sigma "call"
     = Return (ClosedForm.call_futures S_or_F K T r sigma)
  /\ price_option "futures" S_or_F K T r sigma "put"
     = Return (ClosedForm.put_futures S_or_F K T r sigma).
Proof.
  intros _ HK _ _.
  assert (HK0 : K <> 0) by lra.
  repeat split.
  - apply (price_option_valid "spot" S_or_F K T r sigma "call");
      [left; reflexivity | left; reflexivity | exact HK0].
  - apply (price_option_valid "spot" S_or_F K T r sigma "put");
      [left; reflexivity | right; reflexivity | exact HK0].
  - apply (price_option_valid "futures" S_or_F K T r sigma "call");
      [right; reflexivity | left; reflexivity | exact HK0].
  - apply (price_option_valid "futures" S_or_F K T r sigma "put");
      [right; reflexivity | right; reflexivity | exact HK0].
Qed.

Lemma price_option_closed_form_witness :
  price_option "spot" 100 100 1 0.05 0.2 "call"
  = Return (ClosedForm.call_spot 100 100 1 0.05 0.2)
  /\ price_option "spot" 100 100 1 0.05 0.2 "put"
     = Return (ClosedForm.put_spot 100 100 1 0.05 0.2)
  /\ price_option "futures" 100 100 1 0.05 0.2 "call"
     = Return (ClosedForm.call_futures 100 100 1 0.05 0.2)
  /\ price_option "futures" 100 100 1 0.05 0.2 "put"
     = Return (ClosedForm.put_futures 100 100 1 0.05 0.2).
Proof. apply price_option_closed_form; lra. Defined.

(** C2: the futures-model Theta does not follow the claimed pattern.  On the
    contract F = K = 100, T = 1, r = 0.05, sigma = 0.2 the Greeks entry point
    returns, for a call, a Rho that is the claimed formula rounded to 4
    decimals, and a Theta that is neither the claimed formula nor its
    rounding to 4 decimals: [calculate_greeks_black76] multiplies the rate by
    [F * Phi(d1)] where the claimed formula, like [calculate_greeks_bs] and
    like its own Rho, has [K * Phi(d2)]. *)
Lemma futures_theta_diverges :
  exists g theta rho,
    calculate_greeks "futures" 100 100 1 0.05 0.2 "call" = Return g
    /\ dict_get "Rho" g = Some rho
    /\ rho = round (FuturesGreeks.rho_call_spec 100 100 1 0.05 0.2) 4
    /\ dict_get "Theta" g = Some theta
    /\ theta <> round (FuturesGreeks.theta_call_spec 100 100 1 0.05 0.2) 4
    /\ theta <> FuturesGreeks.theta_call_spec 100 100 1 0.05 0.2.
Proof.
  destruct (calculate_greeks_black76_call 100 100 1 0.05 0.2 ltac:(lra))
    as (delta & gamma & vega & Hg).
  eexists. eexists. eexists. split; [exact Hg |].
  split; [reflexivity |]. split; [reflexivity |]. split; [reflexivity |].
  pose proof futures_example_theta_gap as Hgap.
  split.
  - intro E. symmetry in E. revert E. apply round_separated. exact Hgap.
  - pose proof (round_4_error (FuturesGreeks.theta_call 100 100 1 0.05 0.2))
      as He.
    apply Rabs_le_bounds in He. lra.
Qed.

(** C3: put-call parity.  With the same parameters the call price minus the
    put price is [S - K exp(-rT)] in the spot model and [df (F - K)] in the
    futures model; in exact arithmetic the two sides are equal, hence within
    the tolerance 1e-6. *)
Theorem put_call_parity (S_or_F K T r sigma : R) :
  0 < S_or_F -> 0 < K -> 0 < T -> 0 < sigma ->
  (exists c p,
      price_option "spot" S_or_F K T r sigma "call" = Return c
      /\ price_option "spot" S_or_F K T r sigma "put" = Return p
      /\ c - p = S_or_F - K * exp (- (r * T))
      /\ Rabs (c - p - (S_or_F - K * exp (- (r * T)))) <= 1e-6)
  /\ (exists c p,
         price_option "futures" S_or_F K T r sigma "call" = Return c
         /\ price_option "futures" S_or_F K T r sigma "put" = Return p
         /\ c - p = exp (- (r * T)) * (S_or_F - K)
         /\ Rabs (c - p - exp (- (r * T)) * (S_or_F - K)) <= 1e-6).
Proof.
  intros _ HK _ _.
  assert (Hprice : forall model option_type,
             valid_model model -> valid_option_type option_type ->
             price_option model S_or_F K T r sigma option_type
             = Return (ClosedForm.price model S_or_F K T r sigma option_type))
    by (intros; apply price_option_valid; nonzero).
  pose proof (Hprice "spot" "call" (or_introl eq_refl) (or_introl eq_refl))
    as Hsc.
  pose proof (Hprice "spot" "put" (or_introl eq_refl) (or_intror eq_refl))
    as Hsp.
  pose proof (Hprice "futures" "call" (or_intror eq_refl) (or_introl eq_refl))
    as Hfc.
  pose proof (Hprice "futures" "put" (or_intror eq_refl) (or_intror eq_refl))
    as Hfp.
  cbn in Hsc, Hsp, Hfc, Hfp.
  split.
  - exists (ClosedForm.call_spot S_or_F K T r sigma),
      (ClosedForm.put_spot S_or_F K T r sigma).
    pose proof (parity_spot S_or_F K T r sigma) as Hpar.
    repeat split; try assumption.
    rewrite Hpar, Rminus_diag, Rabs_R0. lra.
  - exists (ClosedForm.call_futures S_or_F K T r sigma),
      (ClosedForm.put_futures S_or_F K T r sigma).
    pose proof (parity_futures S_or_F K T r sigma) as Hpar.
    unfold ClosedForm.df in Hpar.
    repeat split; try assumption.
    rewrite Hpar, Rminus_diag, Rabs_R0. lra.
Qed.

Lemma put_call_parity_witness :
  (exists c p,
      price_option "spot" 100 100 1 0.05 0.2 "call" = Return c
      /\ price_option "spot" 100 100 1 0.05 0.2 "put" = Return p
      /\ c - p = 100 - 100 * exp (- (0.05 * 1))
      /\ Rabs (c - p - (100 - 100 * exp (- (0.05 * 1)))) <= 1e-6)
  /\ (exists c p,
         price_option "futures" 100 100 1 0.05 0.2 "call" = Return c
         /\ price_option "futures" 100 100 1 0.05 0.2 "put" = Return p
         /\ c - p = exp (- (0.05 * 1)) * (100 - 100)
         /\ Rabs (c - p - exp (- (0.05 * 1)) * (100 - 100)) <= 1e-6).
Proof. apply put_call_parity; lra. Defined.

(** C4: on a valid contract the solver returns None when the market price is
    strictly below the model price at sigma = 0.0001 or strictly above the
    model price at sigma = 3.0; otherwise it goes on to the root finder. *)
Theorem bracket_rejection
  (brentq : (R -> result R) -> R -> R -> result R)
  (model option_type : string) (market_price S_or_F K T r : R)
  (price_lo price_hi : R) :
  valid_model model -> valid_option_type option_type ->
  0 < S_or_F -> 0 < K -> 0 < T ->
  price_option model S_or_F K T r 0.0001 option_type = Return price_lo ->
  price_option model S_or_F K T r 3.0 option_type = Return price_hi ->
  (market_price < price_lo \/ price_hi < market_price ->
   get_implied_volatility brentq model market_price S_or_F K T r option_type
   = Return None)
  /\ (price_lo <= market_price <= price_hi ->
      get_implied_volatility brentq model market_price S_or_F K T r
        option_type
      = root_finding brentq model S_or_F K T r option_type market_price).
Proof.
  intros Hm Ho _ HK _ Hlo Hhi.
  rewrite price_option_valid in Hlo, Hhi by nonzero.
  injection Hlo as <-. injection Hhi as <-.
  rewrite get_implied_volatility_valid by nonzero.
  split.
  - intros [Hlt | Hgt].
    + rewrite (Rle_bool_false _ _ Hlt). reflexivity.
    + rewrite (Rle_bool_false _ _ Hgt), andb_false_r. reflexivity.
  - intros [H1 H2].
    rewrite (Rle_bool_true _ _ H1), (Rle_bool_true _ _ H2). reflexivity.
Qed.

Lemma bracket_rejection_witness :
  (10 < ClosedForm.call_spot 100 100 0.25 0 0.0001
   \/ ClosedForm.call_spot 100 100 0.25 0 3.0 < 10 ->
   get_implied_volatility exact_root "spot" 10 100 100 0.25 0 "call"
   = Return None)
  /\ (ClosedForm.call_spot 100 100 0.25 0 0.0001 <= 10
      <= ClosedForm.call_spot 100 100 0.25 0 3.0 ->
      get_implied_volatility exact_root "spot" 10 100 100 0.25 0 "call"
      = root_finding exact_root "spot" 100 100 0.25 0 "call" 10).
Proof.
  apply bracket_rejection;
    solve [lra | left; reflexivity
          | apply (price_option_valid "spot" 100 100 0.25 0 _ "call");
            solve [left; reflexivity | lra]].
Defined.






(** C10: with a recognised model and an option type outside call/put the
    implied-volatility entry point returns None: the ValueError of the pricing
    function is caught by the solver's handler. *)
Theorem implied_volatility_invalid_option_type
  (brentq : (R -> result R) -> R -> R -> result R)
  (model option_type : string) (market_price S_or_F K T r : R) :
  valid_model model -> ~ valid_option_type option_type ->
  0 < S_or_F -> 0 < K -> 0 < T ->
  (exists sigma, is_ValueError
                   (price_option model S_or_F K T r sigma option_type))
  /\ get_implied_volatility brentq model market_price S_or_F K T r option_type
     = Return None.
Proof.
  intros Hm Ho _ HK _. split.
  - exists 0.0001. unfold price_option. destruct Hm as [-> | ->].
    + change ("spot" =? "spot") with true. cbv iota.
      rewrite black_scholes_invalid by nonzero. eexists; reflexivity.
    + change ("futures" =? "spot") with false.
      change ("futures" =? "futures") with true. cbv iota.
      rewrite black_76_invalid by nonzero. eexists; reflexivity.
  - apply get_implied_volatility_invalid; nonzero.
Qed.

Lemma implied_volatility_invalid_option_type_witness :
  (exists sigma, is_ValueError
                   (price_option "spot" 100 100 0.25 0 sigma "straddle"))
  /\ get_implied_volatility exact_root "spot" 10 100 100 0.25 0 "straddle"
     = Return None.
Proof.
  apply implied_volatility_invalid_option_type;
    solve [lra | left; reflexivity | exact straddle_invalid].
Defined.

(** ** Further properties of [pricing.py] *)

(** *** The price as a function of each argument *)

Lemma price_value_closed_form
  (model option_type : string) (S_or_F K T r sigma : R) :
  valid_model model -> valid_option_type option_type -> K <> 0 ->
  price_value model S_or_F K T r sigma option_type
  = ClosedForm.price model S_or_F K T r sigma option_type.
Proof.
  intros Hm Ho HK. unfold price_value.
  rewrite price_option_valid by nonzero. reflexivity.
Qed.

Lemma cdf_comp_derivable (d : R -> R) (x d' : R) :
  derivable_pt_lim d x d' ->
  derivable_pt_lim (fun y => norm_cdf (d y)) x (norm_pdf (d x) * d').
Proof.
  intro Hd.
  apply (derivable_pt_lim_eq (comp norm_cdf d) (fun y => norm_cdf (d y)) x
           (norm_pdf (d x) * d')).
  - apply (derivable_pt_lim_comp d norm_cdf x d' (norm_pdf (d x)));
      [exact Hd | apply norm_cdf_derivable].
  - intro y; reflexivity.
  - reflexivity.
Qed.

(** The derivative of [A Phi(d1) - B Phi(d2)] when all four vary. *)
Lemma call_form_derivable (A B d1 d2 : R -> R) (x A' B' d1' d2' : R) :
  derivable_pt_lim A x A' -> derivable_pt_lim B x B' ->
  derivable_pt_lim d1 x d1' -> derivable_pt_lim d2 x d2' ->
  derivable_pt_lim (fun y => A y * norm_cdf (d1 y) - B y * norm_cdf (d2 y)) x
    (A' * norm_cdf (d1 x) + A x * (norm_pdf (d1 x) * d1')
     - (B' * norm_cdf (d2 x) + B x * (norm_pdf (d2 x) * d2'))).
Proof.
  intros HA HB H1 H2.
  apply (derivable_pt_lim_eq
           (minus_fct (mult_fct A (fun y => norm_cdf (d1 y)))
              (mult_fct B (fun y => norm_cdf (d2 y))))
           (fun y => A y * norm_cdf (d1 y) - B y * norm_cdf (d2 y)) x
           (A' * norm_cdf (d1 x) + A x * (norm_pdf (d1 x) * d1')
            - (B' * norm_cdf (d2 x) + B x * (norm_pdf (d2 x) * d2')))).
  - apply derivable_pt_lim_minus.
    + apply (derivable_pt_lim_mult A (fun y => norm_cdf (d1 y)) x A'
               (norm_pdf (d1 x) * d1') HA).
      apply (cdf_comp_derivable d1), H1.
    + apply (derivable_pt_lim_mult B (fun y => norm_cdf (d2 y)) x B'
               (norm_pdf (d2 x) * d2') HB).
      apply (cdf_comp_derivable d2), H2.
  - intro y; reflexivity.
  - reflexivity.
Qed.

Section Underlying.

Variables K T r sigma : R.
Hypothesis K_pos : 0 < K.
Hypothesis T_pos : 0 < T.
Hypothesis sigma_pos : 0 < sigma.

Let d1 := fun s : R => ClosedForm.d1_spot s K T r sigma.
Let d2 := fun s : R => ClosedForm.d2_spot s K T r sigma.

Lemma vol_sqrt_T_pos : 0 < sigma * sqrt T.
Proof. apply Rmult_lt_0_compat; [exact sigma_pos | apply sqrt_T_pos, T_pos]. Qed.

Lemma d1_derivable_S (S : R) :
  0 < S -> derivable_pt_lim d1 S (/ S / (sigma * sqrt T)).
Proof.
  intro HS.
  assert (Hln : derivable_pt_lim (fun s => ln (s / K)) S (/ S)).
  { apply (derivable_pt_lim_eq (comp ln (fun s => id s * / K))
             (fun s => ln (s / K)) S (/ (S * / K) * (1 * / K))).
    - apply derivable_pt_lim_comp.
      + apply derivable_pt_lim_scal_right, derivable_pt_lim_id.
      + apply derivable_pt_lim_ln. unfold id.
        apply Rmult_lt_0_compat; [exact HS | apply Rinv_0_lt_compat, K_pos].
    - intro y; reflexivity.
    - field. split; lra. }
  apply (derivable_pt_lim_eq
           (fun s => ((fun y => ln (y / K))
                      + fct_cte ((r + 0.5 * sigma ^ 2) * T))%F s
                     / (sigma * sqrt T))
           d1 S ((/ S + 0) / (sigma * sqrt T))).
  - apply derivable_pt_lim_div_scal, derivable_pt_lim_plus;
      [exact Hln | apply derivable_pt_lim_const].
  - intro y; reflexivity.
  - rewrite Rplus_0_r. reflexivity.
Qed.

Lemma d2_derivable_S (S : R) :
  0 < S -> derivable_pt_lim d2 S (/ S / (sigma * sqrt T)).
Proof.
  intro HS.
  apply (derivable_pt_lim_eq (d1 - fct_cte (sigma * sqrt T))%F d2 S
           (/ S / (sigma * sqrt T) - 0)).
  - apply derivable_pt_lim_minus;
      [apply d1_derivable_S, HS | apply derivable_pt_lim_const].
  - intro y; reflexivity.
  - ring.
Qed.

(** The spot call price moves with the underlying at the rate [Phi(d1)]. *)
Lemma call_spot_derivable_S (S : R) :
  0 < S ->
  derivable_pt_lim (fun s => ClosedForm.call_spot s K T r sigma) S
    (norm_cdf (d1 S)).
Proof.
  intro HS. pose proof vol_sqrt_T_pos as Hv.
  apply (derivable_pt_lim_eq
           (fun s => id s * norm_cdf (d1 s)
                     - fct_cte (K * exp (- (r * T))) s * norm_cdf (d2 s))
           (fun s => ClosedForm.call_spot s K T r sigma) S
           (1 * norm_cdf (d1 S)
            + id S * (norm_pdf (d1 S) * (/ S / (sigma * sqrt T)))
            - (0 * norm_cdf (d2 S)
               + fct_cte (K * exp (- (r * T))) S
                 * (norm_pdf (d2 S) * (/ S / (sigma * sqrt T)))))).
  - apply call_form_derivable.
    + apply derivable_pt_lim_id.
    + apply derivable_pt_lim_const.
    + apply d1_derivable_S, HS.
    + apply d2_derivable_S, HS.
  - intro y; reflexivity.
  - pose proof (pdf_d1_d2 S K T r HS K_pos T_pos sigma sigma_pos) as Hid.
    unfold id, fct_cte. fold (d1 S) in Hid. fold (d2 S) in Hid.
    set (a := norm_pdf (d1 S)) in *. set (b := norm_pdf (d2 S)) in *.
    set (D := K * exp (- (r * T))) in *.
    replace (D * (b * (/ S / (sigma * sqrt T))))
      with (D * b * (/ S / (sigma * sqrt T))) by ring.
    rewrite <- Hid. ring.
Qed.

(** [Phi(d1)] moves with the underlying at the rate
    [phi(d1) / (S sigma sqrt T)]. *)
Lemma delta_spot_derivable_S (S : R) :
  0 < S ->
  derivable_pt_lim (fun s => norm_cdf (d1 s)) S
    (norm_pdf (d1 S) / (S * sigma * sqrt T)).
Proof.
  intro HS. pose proof vol_sqrt_T_pos as Hv.
  apply (derivable_pt_lim_eq (fun s => norm_cdf (d1 s))
           (fun s => norm_cdf (d1 s)) S
           (norm_pdf (d1 S) * (/ S / (sigma * sqrt T)))).
  - apply (cdf_comp_derivable d1), d1_derivable_S, HS.
  - intro y; reflexivity.
  - pose proof (sqrt_T_pos T T_pos). field. repeat split; lra.
Qed.

End Underlying.

(** The same derivative when [A phi(d1) = B phi(d2)] at the point. *)
Lemma call_form_derivable_balanced
  (A B d1 d2 : R -> R) (x A' B' d1' d2' : R) :
  derivable_pt_lim A x A' -> derivable_pt_lim B x B' ->
  derivable_pt_lim d1 x d1' -> derivable_pt_lim d2 x d2' ->
  A x * norm_pdf (d1 x) = B x * norm_pdf (d2 x) ->
  derivable_pt_lim (fun y => A y * norm_cdf (d1 y) - B y * norm_cdf (d2 y)) x
    (A' * norm_cdf (d1 x) - B' * norm_cdf (d2 x)
     + A x * norm_pdf (d1 x) * (d1' - d2')).
Proof.
  intros HA HB H1 H2 Hid.
  apply (derivable_pt_lim_eq
           (fun y => A y * norm_cdf (d1 y) - B y * norm_cdf (d2 y))
           (fun y => A y * norm_cdf (d1 y) - B y * norm_cdf (d2 y)) x
           (A' * norm_cdf (d1 x) + A x * (norm_pdf (d1 x) * d1')
            - (B' * norm_cdf (d2 x) + B x * (norm_pdf (d2 x) * d2')))).
  - apply call_form_derivable; assumption.
  - intro y; reflexivity.
  - replace (B x * (norm_pdf (d2 x) * d2'))
      with (B x * norm_pdf (d2 x) * d2') by ring.
    rewrite <- Hid. ring.
Qed.

(** The discounted strike [K exp(-(q t))] as a function of the rate and of
    the expiry. *)
Lemma discount_derivable_r (K T r : R) :
  derivable_pt_lim (fun q => K * exp (- (q * T))) r
    (- (K * T * exp (- (r * T)))).
Proof.
  apply (derivable_pt_lim_eq
           (mult_real_fct K (comp exp (fun q => (- id)%F q * T)))
           (fun q => K * exp (- (q * T))) r
           (K * (exp (- id r * T) * (- 1 * T)))).
  - apply derivable_pt_lim_scal.
    apply (derivable_pt_lim_comp (fun q => (- id)%F q * T) exp r
             (- 1 * T) (exp (- id r * T))).
    + apply derivable_pt_lim_scal_right, derivable_pt_lim_opp,
        derivable_pt_lim_id.
    + apply derivable_pt_lim_exp.
  - intro q. unfold mult_real_fct, comp, opp_fct, id.
    rewrite Ropp_mult_distr_l. reflexivity.
  - unfold id. rewrite <- Ropp_mult_distr_l. ring.
Qed.

Lemma discount_derivable_T (K T r : R) :
  derivable_pt_lim (fun t => K * exp (- (r * t))) T
    (- (K * r * exp (- (r * T)))).
Proof.
  apply (derivable_pt_lim_eq (fun q => K * exp (- (q * r)))
           (fun t => K * exp (- (r * t))) T (- (K * r * exp (- (T * r))))).
  - apply discount_derivable_r.
  - intro t. rewrite (Rmult_comm t r). reflexivity.
  - rewrite (Rmult_comm T r). reflexivity.
Qed.

Section Rate.

Variables S K T sigma : R.
Hypothesis S_pos : 0 < S.
Hypothesis K_pos : 0 < K.
Hypothesis T_pos : 0 < T.
Hypothesis sigma_pos : 0 < sigma.

Let d1 := fun q : R => ClosedForm.d1_spot S K T q sigma.
Let d2 := fun q : R => ClosedForm.d2_spot S K T q sigma.

Lemma d1_derivable_r (r : R) :
  derivable_pt_lim d1 r (T / (sigma * sqrt T)).
Proof.
  apply (derivable_pt_lim_eq
           (fun q => (fct_cte (ln (S / K) + 0.5 * sigma ^ 2 * T)
                      + (fun y => (id y * T)%R))%F q / (sigma * sqrt T))
           d1 r ((0 + 1 * T) / (sigma * sqrt T))).
  - apply derivable_pt_lim_div_scal, derivable_pt_lim_plus;
      [apply derivable_pt_lim_const |].
    apply derivable_pt_lim_scal_right, derivable_pt_lim_id.
  - intro q. unfold d1, ClosedForm.d1_spot, plus_fct, fct_cte, id.
    f_equal. ring.
  - f_equal. ring.
Qed.

Lemma d2_derivable_r (r : R) :
  derivable_pt_lim d2 r (T / (sigma * sqrt T)).
Proof.
  apply (derivable_pt_lim_eq (d1 - fct_cte (sigma * sqrt T))%F d2 r
           (T / (sigma * sqrt T) - 0)).
  - apply derivable_pt_lim_minus;
      [apply d1_derivable_r | apply derivable_pt_lim_const].
  - intro y; reflexivity.
  - ring.
Qed.

(** The spot call price moves with the rate at the rate
    [K T exp(-rT) Phi(d2)]. *)
Lemma call_spot_derivable_r (r : R) :
  derivable_pt_lim (fun q => ClosedForm.call_spot S K T q sigma) r
    (K * T * exp (- (r * T)) * norm_cdf (d2 r)).
Proof.
  apply (derivable_pt_lim_eq
           (fun q => fct_cte S q * norm_cdf (d1 q)
                     - (fun y => K * exp (- (y * T))) q * norm_cdf (d2 q))
           (fun q => ClosedForm.call_spot S K T q sigma) r
           (0 * norm_cdf (d1 r)
            - - (K * T * exp (- (r * T))) * norm_cdf (d2 r)
            + fct_cte S r * norm_pdf (d1 r)
              * (T / (sigma * sqrt T) - T / (sigma * sqrt T)))).
  - apply call_form_derivable_balanced.
    + apply derivable_pt_lim_const.
    + apply discount_derivable_r.
    + apply d1_derivable_r.
    + apply d2_derivable_r.
    + unfold fct_cte.
      apply (pdf_d1_d2 S K T r S_pos K_pos T_pos sigma sigma_pos).
  - intro y; reflexivity.
  - ring.
Qed.

End Rate.

Section Expiry.

Variables S K r sigma : R.
Hypothesis S_pos : 0 < S.
Hypothesis K_pos : 0 < K.
Hypothesis sigma_pos : 0 < sigma.

Let d1 := fun t : R => ClosedForm.d1_spot S K t r sigma.
Let d2 := fun t : R => ClosedForm.d2_spot S K t r sigma.

(** The derivative of [d1] in the expiry. *)
Let d1_T (T : R) : R :=
  ((r + 0.5 * sigma ^ 2) * (sigma * sqrt T)
   - sigma * / (2 * sqrt T) * (ln (S / K) + (r + 0.5 * sigma ^ 2) * T))
  / Rsqr (sigma * sqrt T).

Lemma vol_sqrt_derivable (T : R) :
  0 < T ->
  derivable_pt_lim (fun t => sigma * sqrt t) T (sigma * / (2 * sqrt T)).
Proof.
  intro HT.
  apply (derivable_pt_lim_eq (mult_real_fct sigma sqrt)
           (fun t => sigma * sqrt t) T (sigma * / (2 * sqrt T))).
  - apply derivable_pt_lim_scal, derivable_pt_lim_sqrt, HT.
  - intro y; reflexivity.
  - reflexivity.
Qed.

Lemma d1_derivable_T (T : R) : 0 < T -> derivable_pt_lim d1 T (d1_T T).
Proof.
  intro HT.
  set (u := fun t : R => ln (S / K) + (r + 0.5 * sigma ^ 2) * t).
  set (v := fun t : R => sigma * sqrt t).
  assert (Hu : derivable_pt_lim u T (r + 0.5 * sigma ^ 2)).
  { apply (derivable_pt_lim_eq
             (fct_cte (ln (S / K))
              + mult_real_fct (r + 0.5 * sigma ^ 2) id)%F u T
             (0 + (r + 0.5 * sigma ^ 2) * 1)).
    - apply derivable_pt_lim_plus; [apply derivable_pt_lim_const |].
      apply derivable_pt_lim_scal, derivable_pt_lim_id.
    - intro y; reflexivity.
    - ring. }
  apply (derivable_pt_lim_eq (u / v)%F d1 T
           (((r + 0.5 * sigma ^ 2) * v T - sigma * / (2 * sqrt T) * u T)
            / Rsqr (v T))).
  - apply derivable_pt_lim_div;
      [exact Hu | apply vol_sqrt_derivable, HT |].
    unfold v. apply Rgt_not_eq, vol_sqrt_T_pos; assumption.
  - intro y; reflexivity.
  - reflexivity.
Qed.

Lemma d2_derivable_T (T : R) :
  0 < T -> derivable_pt_lim d2 T (d1_T T - sigma * / (2 * sqrt T)).
Proof.
  intro HT.
  apply (derivable_pt_lim_eq (d1 - (fun t => (sigma * sqrt t)%R))%F d2 T
           (d1_T T - sigma * / (2 * sqrt T))).
  - apply derivable_pt_lim_minus;
      [apply d1_derivable_T, HT | apply vol_sqrt_derivable, HT].
  - intro y; reflexivity.
  - reflexivity.
Qed.

(** The spot call price grows with the expiry at the rate
    [S phi(d1) sigma / (2 sqrt T) + r K exp(-rT) Phi(d2)]. *)
Lemma call_spot_derivable_T (T : R) :
  0 < T ->
  derivable_pt_lim (fun t => ClosedForm.call_spot S K t r sigma) T
    (S * norm_pdf (d1 T) * sigma / (2 * sqrt T)
     + r * K * exp (- (r * T)) * norm_cdf (d2 T)).
Proof.
  intro HT.
  apply (derivable_pt_lim_eq
           (fun t => fct_cte S t * norm_cdf (d1 t)
                     - (fun y => K * exp (- (r * y))) t * norm_cdf (d2 t))
           (fun t => ClosedForm.call_spot S K t r sigma) T
           (0 * norm_cdf (d1 T)
            - - (K * r * exp (- (r * T))) * norm_cdf (d2 T)
            + fct_cte S T * norm_pdf (d1 T)
              * (d1_T T - (d1_T T - sigma * / (2 * sqrt T))))).
  - apply call_form_derivable_balanced.
    + apply derivable_pt_lim_const.
    + apply discount_derivable_T.
    + apply d1_derivable_T, HT.
    + apply d2_derivable_T, HT.
    + unfold fct_cte.
      apply (pdf_d1_d2 S K T r S_pos K_pos HT sigma sigma_pos).
  - intro y; reflexivity.
  - unfold fct_cte. pose proof (sqrt_T_pos T HT). field. lra.
Qed.

End Expiry.

(** *** Puts, by parity *)

Lemma put_from_call_derivable (c p k : R -> R) (x c' k' : R) :
  (forall y, c y - p y = k y) ->
  derivable_pt_lim c x c' -> derivable_pt_lim k x k' ->
  derivable_pt_lim p x (c' - k').
Proof.
  intros Hpar Hc Hk.
  apply (derivable_pt_lim_eq (c - k)%F p x (c' - k')).
  - apply derivable_pt_lim_minus; assumption.
  - intro y. unfold minus_fct. pose proof (Hpar y). lra.
  - reflexivity.
Qed.

Lemma forward_derivable_S (K T r S : R) :
  derivable_pt_lim (fun s => s - K * exp (- (r * T))) S 1.
Proof.
  apply (derivable_pt_lim_eq (id - fct_cte (K * exp (- (r * T))))%F
           (fun s => s - K * exp (- (r * T))) S (1 - 0)).
  - apply derivable_pt_lim_minus;
      [apply derivable_pt_lim_id | apply derivable_pt_lim_const].
  - intro y; reflexivity.
  - ring.
Qed.

Lemma forward_derivable_r (S K T r : R) :
  derivable_pt_lim (fun q => S - K * exp (- (q * T))) r
    (K * T * exp (- (r * T))).
Proof.
  apply (derivable_pt_lim_eq
           (fct_cte S - (fun q => (K * exp (- (q * T)))%R))%F
           (fun q => S - K * exp (- (q * T))) r
           (0 - - (K * T * exp (- (r * T))))).
  - apply derivable_pt_lim_minus;
      [apply derivable_pt_lim_const | apply discount_derivable_r].
  - intro y; reflexivity.
  - ring.
Qed.

Lemma forward_derivable_T (S K r T : R) :
  derivable_pt_lim (fun t => S - K * exp (- (r * t))) T
    (K * r * exp (- (r * T))).
Proof.
  apply (derivable_pt_lim_eq
           (fct_cte S - (fun t => (K * exp (- (r * t)))%R))%F
           (fun t => S - K * exp (- (r * t))) T
           (0 - - (K * r * exp (- (r * T))))).
  - apply derivable_pt_lim_minus;
      [apply derivable_pt_lim_const | apply discount_derivable_T].
  - intro y; reflexivity.
  - ring.
Qed.

Section SpotPut.

Variables S K T r sigma : R.
Hypothesis S_pos : 0 < S.
Hypothesis K_pos : 0 < K.
Hypothesis T_pos : 0 < T.
Hypothesis sigma_pos : 0 < sigma.

Let d1 := ClosedForm.d1_spot S K T r sigma.
Let d2 := ClosedForm.d2_spot S K T r sigma.

Lemma put_spot_derivable_S :
  derivable_pt_lim (fun s => ClosedForm.put_spot s K T r sigma) S
    (norm_cdf d1 - 1).
Proof.
  apply (put_from_call_derivable
           (fun s => ClosedForm.call_spot s K T r sigma)
           (fun s => ClosedForm.put_spot s K T r sigma)
           (fun s => s - K * exp (- (r * T)))).
  - intro s. apply parity_spot.
  - apply call_spot_derivable_S; assumption.
  - apply forward_derivable_S.
Qed.

Lemma put_spot_derivable_sigma :
  derivable_pt_lim (fun v => ClosedForm.put_spot S K T r v) sigma
    (S * norm_pdf d1 * sqrt T).
Proof.
  apply (derivable_pt_lim_eq
           (fun v => ClosedForm.put_spot S K T r v)
           (fun v => ClosedForm.put_spot S K T r v) sigma
           (S * norm_pdf d1 * sqrt T - 0)).
  - apply (put_from_call_derivable
             (fun v => ClosedForm.call_spot S K T r v)
             (fun v => ClosedForm.put_spot S K T r v)
             (fct_cte (S - K * exp (- (r * T))))).
    + intro v. apply parity_spot.
    + apply call_spot_derivable; assumption.
    + apply derivable_pt_lim_const.
  - intro y; reflexivity.
  - ring.
Qed.

Lemma put_spot_derivable_r :
  derivable_pt_lim (fun q => ClosedForm.put_spot S K T q sigma) r
    (- K * T * exp (- (r * T)) * norm_cdf (- d2)).
Proof.
  apply (derivable_pt_lim_eq
           (fun q => ClosedForm.put_spot S K T q sigma)
           (fun q => ClosedForm.put_spot S K T q sigma) r
           (K * T * exp (- (r * T)) * norm_cdf d2
            - K * T * exp (- (r * T)))).
  - apply (put_from_call_derivable
             (fun q => ClosedForm.call_spot S K T q sigma)
             (fun q => ClosedForm.put_spot S K T q sigma)
             (fun q => S - K * exp (- (q * T)))).
    + intro q. apply parity_spot.
    + apply call_spot_derivable_r; assumption.
    + apply forward_derivable_r.
  - intro y; reflexivity.
  - rewrite norm_cdf_opp. ring.
Qed.

Lemma put_spot_derivable_T :
  derivable_pt_lim (fun t => ClosedForm.put_spot S K t r sigma) T
    (S * norm_pdf d1 * sigma / (2 * sqrt T)
     - r * K * exp (- (r * T)) * norm_cdf (- d2)).
Proof.
  apply (derivable_pt_lim_eq
           (fun t => ClosedForm.put_spot S K t r sigma)
           (fun t => ClosedForm.put_spot S K t r sigma) T
           (S * norm_pdf d1 * sigma / (2 * sqrt T)
            + r * K * exp (- (r * T)) * norm_cdf d2
            - K * r * exp (- (r * T)))).
  - apply (put_from_call_derivable
             (fun t => ClosedForm.call_spot S K t r sigma)
             (fun t => ClosedForm.put_spot S K t r sigma)
             (fun t => S - K * exp (- (r * t)))).
    + intro t. apply parity_spot.
    + apply call_spot_derivable_T; assumption.
    + apply forward_derivable_T.
  - intro y; reflexivity.
  - rewrite norm_cdf_opp. ring.
Qed.

End SpotPut.

(** *** The unrounded Greeks of [calculate_greeks_bs] *)

Lemma calculate_greeks_bs_call (S K T r sigma : R) :
  K <> 0 ->
  let d1 := ClosedForm.d1_spot S K T r sigma in
  let d2 := ClosedForm.d2_spot S K T r sigma in
  calculate_greeks_bs S K T r sigma "call"
  = Return
      (greeks_dict
         (norm_cdf d1)
         (norm_pdf d1 / (S * sigma * sqrt T))
         (S * norm_pdf d1 * sqrt T / 100)
         ((- S * norm_pdf d1 * sigma / (2 * sqrt T)
           - r * K * exp (- (r * T)) * norm_cdf d2) / 365)
         (K * T * exp (- (r * T)) * norm_cdf d2 / 100)).
Proof.
  intro HK.
  unfold calculate_greeks_bs, ClosedForm.d2_spot, ClosedForm.d1_spot.
  rewrite (div_nonzero S K HK). cbn [bind].
  cbv zeta. rewrite String.eqb_refl. cbn [bind].
  replace (- r * T) with (- (r * T)) by ring. reflexivity.
Qed.

Lemma calculate_greeks_bs_put (S K T r sigma : R) :
  K <> 0 ->
  let d1 := ClosedForm.d1_spot S K T r sigma in
  let d2 := ClosedForm.d2_spot S K T r sigma in
  calculate_greeks_bs S K T r sigma "put"
  = Return
      (greeks_dict
         (norm_cdf d1 - 1)
         (norm_pdf d1 / (S * sigma * sqrt T))
         (S * norm_pdf d1 * sqrt T / 100)
         ((- S * norm_pdf d1 * sigma / (2 * sqrt T)
           + r * K * exp (- (r * T)) * norm_cdf (- d2)) / 365)
         (- K * T * exp (- (r * T)) * norm_cdf (- d2) / 100)).
Proof.
  intro HK.
  unfold calculate_greeks_bs, ClosedForm.d2_spot, ClosedForm.d1_spot.
  rewrite (div_nonzero S K HK). cbn [bind].
  cbv zeta. change ("put" =? "call") with false. rewrite String.eqb_refl.
  cbn [bind].
  replace (- r * T) with (- (r * T)) by ring. reflexivity.
Qed.

(** *** The spot Greeks are the partial derivatives of the spot price *)

Section SpotGreeks.

Variables S K T r sigma : R.
Hypothesis S_pos : 0 < S.
Hypothesis K_pos : 0 < K.
Hypothesis T_pos : 0 < T.
Hypothesis sigma_pos : 0 < sigma.

Variable option_type : string.
Hypothesis option_type_ok : valid_option_type option_type.

Let d1 := ClosedForm.d1_spot S K T r sigma.
Let d2 := ClosedForm.d2_spot S K T r sigma.

(** Delta, Gamma, Vega, Theta and Rho before rounding, as the two branches
    of [calculate_greeks_bs] compute them. *)
Let delta := if option_type =? "call" then norm_cdf d1 else norm_cdf d1 - 1.
Let gamma := norm_pdf d1 / (S * sigma * sqrt T).
Let vega := S * norm_pdf d1 * sqrt T / 100.
Let theta :=
  if option_type =? "call" then
    (- S * norm_pdf d1 * sigma / (2 * sqrt T)
     - r * K * exp (- (r * T)) * norm_cdf d2) / 365
  else
    (- S * norm_pdf d1 * sigma / (2 * sqrt T)
     + r * K * exp (- (r * T)) * norm_cdf (- d2)) / 365.
Let rho :=
  if option_type =? "call" then K * T * exp (- (r * T)) * norm_cdf d2 / 100
  else - K * T * exp (- (r * T)) * norm_cdf (- d2) / 100.

Lemma calculate_greeks_spot_raw :
  calculate_greeks "spot" S K T r sigma option_type
  = Return (greeks_dict delta gamma vega theta rho).
Proof.
  destruct option_type_ok as [E | E]; subst delta theta rho; rewrite E.
  - exact (calculate_greeks_bs_call S K T r sigma (Rgt_not_eq _ _ K_pos)).
  - exact (calculate_greeks_bs_put S K T r sigma (Rgt_not_eq _ _ K_pos)).
Qed.

Lemma price_value_spot_slope (s : R) :
  0 < s ->
  derivable_pt_lim (fun x => price_value "spot" x K T r sigma option_type) s
    (if option_type =? "call"
     then norm_cdf (ClosedForm.d1_spot s K T r sigma)
     else norm_cdf (ClosedForm.d1_spot s K T r sigma) - 1).
Proof.
  intro Hs.
  apply (derivable_pt_lim_eq
           (fun x => ClosedForm.price "spot" x K T r sigma option_type)
           (fun x => price_value "spot" x K T r sigma option_type) s
           (if option_type =? "call"
            then norm_cdf (ClosedForm.d1_spot s K T r sigma)
            else norm_cdf (ClosedForm.d1_spot s K T r sigma) - 1)).
  - destruct option_type_ok as [E | E]; rewrite E.
    + apply (call_spot_derivable_S K T r sigma K_pos T_pos sigma_pos s Hs).
    + apply (put_spot_derivable_S s K T r sigma Hs K_pos T_pos sigma_pos).
  - intro x. symmetry. apply price_value_closed_form;
      [left; reflexivity | exact option_type_ok | nonzero].
  - reflexivity.
Qed.

Lemma spot_delta_slope :
  derivable_pt_lim (fun s => price_value "spot" s K T r sigma option_type) S
    delta.
Proof. exact (price_value_spot_slope S S_pos). Qed.

Lemma spot_gamma_slope :
  derivable_pt_lim
    (fun s => if option_type =? "call"
              then norm_cdf (ClosedForm.d1_spot s K T r sigma)
              else norm_cdf (ClosedForm.d1_spot s K T r sigma) - 1)
    S gamma.
Proof.
  pose proof (delta_spot_derivable_S K T r sigma K_pos T_pos sigma_pos S S_pos)
    as Hd.
  destruct (option_type =? "call").
  - exact Hd.
  - apply (derivable_pt_lim_eq
             ((fun s => norm_cdf (ClosedForm.d1_spot s K T r sigma))
              - fct_cte 1)%F
             (fun s => norm_cdf (ClosedForm.d1_spot s K T r sigma) - 1) S
             (gamma - 0)).
    + apply derivable_pt_lim_minus; [exact Hd | apply derivable_pt_lim_const].
    + intro y; reflexivity.
    + ring.
Qed.

Lemma spot_vega_slope :
  derivable_pt_lim (fun v => price_value "spot" S K T r v option_type) sigma
    (100 * vega).
Proof.
  apply (derivable_pt_lim_eq
           (fun v => ClosedForm.price "spot" S K T r v option_type)
           (fun v => price_value "spot" S K T r v option_type) sigma
           (S * norm_pdf d1 * sqrt T)).
  - destruct option_type_ok as [E | E]; rewrite E.
    + apply (call_spot_derivable S K T r S_pos K_pos T_pos sigma sigma_pos).
    + apply (put_spot_derivable_sigma S K T r sigma S_pos K_pos T_pos
               sigma_pos).
  - intro x. symmetry. apply price_value_closed_form;
      [left; reflexivity | exact option_type_ok | nonzero].
  - unfold vega. field.
Qed.

Lemma spot_theta_slope :
  derivable_pt_lim (fun t => price_value "spot" S K t r sigma option_type) T
    (- (365 * theta)).
Proof.
  apply (derivable_pt_lim_eq
           (fun t => ClosedForm.price "spot" S K t r sigma option_type)
           (fun t => price_value "spot" S K t r sigma option_type) T
           (if option_type =? "call"
            then S * norm_pdf d1 * sigma / (2 * sqrt T)
                 + r * K * exp (- (r * T)) * norm_cdf d2
            else S * norm_pdf d1 * sigma / (2 * sqrt T)
                 - r * K * exp (- (r * T)) * norm_cdf (- d2))).
  - destruct option_type_ok as [E | E]; rewrite E.
    + apply (call_spot_derivable_T S K r sigma S_pos K_pos sigma_pos T T_pos).
    + apply (put_spot_derivable_T S K T r sigma S_pos K_pos T_pos sigma_pos).
  - intro x. symmetry. apply price_value_closed_form;
      [left; reflexivity | exact option_type_ok | nonzero].
  - pose proof (sqrt_T_pos T T_pos). unfold theta.
    destruct (option_type =? "call"); field; lra.
Qed.

Lemma spot_rho_slope :
  derivable_pt_lim (fun q => price_value "spot" S K T q sigma option_type) r
    (100 * rho).
Proof.
  apply (derivable_pt_lim_eq
           (fun q => ClosedForm.price "spot" S K T q sigma option_type)
           (fun q => price_value "spot" S K T q sigma option_type) r
           (if option_type =? "call"
            then K * T * exp (- (r * T)) * norm_cdf d2
            else - K * T * exp (- (r * T)) * norm_cdf (- d2))).
  - destruct option_type_ok as [E | E]; rewrite E.
    + apply (call_spot_derivable_r S K T sigma S_pos K_pos T_pos sigma_pos r).
    + apply (put_spot_derivable_r S K T r sigma S_pos K_pos T_pos sigma_pos).
  - intro x. symmetry. apply price_value_closed_form;
      [left; reflexivity | exact option_type_ok | nonzero].
  - unfold rho. destruct (option_type =? "call"); field.
Qed.

End SpotGreeks.

(** X1: in the spot model the Delta that [calculate_greeks] reports is the
    rounding to 4 decimals of the derivative of the price in the underlying. *)
Theorem spot_delta_is_price_derivative
  (option_type : string) (S K T r sigma : R) :
  valid_option_type option_type ->
  0 < S -> 0 < K -> 0 < T -> 0 < sigma ->
  exists delta g,
    calculate_greeks "spot" S K T r sigma option_type = Return g
    /\ dict_get "Delta" g = Some (round delta 4)
    /\ derivable_pt_lim
         (fun s => price_value "spot" s K T r sigma option_type) S delta.
Proof.
  intros Ho HS HK HT Hs. eexists. eexists.
  split; [apply calculate_greeks_spot_raw; assumption |].
  split; [reflexivity |].
  apply spot_delta_slope; assumption.
Qed.

Lemma spot_delta_is_price_derivative_witness :
  exists delta g,
    calculate_greeks "spot" 100 100 0.0822 0.03 0.2 "call" = Return g
    /\ dict_get "Delta" g = Some (round delta 4)
    /\ derivable_pt_lim
         (fun s => price_value "spot" s 100 0.0822 0.03 0.2 "call") 100 delta.
Proof.
  apply spot_delta_is_price_derivative; solve [lra | left; reflexivity].
Defined.

(** X2: in the spot model the reported Gamma is the rounding of the second
    derivative of the price in the underlying: the price has a slope at every
    positive underlying, and that slope moves at the rate Gamma. *)
Theorem spot_gamma_is_second_derivative
  (option_type : string) (S K T r sigma : R) :
  valid_option_type option_type ->
  0 < S -> 0 < K -> 0 < T -> 0 < sigma ->
  exists gamma g slope,
    calculate_greeks "spot" S K T r sigma option_type = Return g
    /\ dict_get "Gamma" g = Some (round gamma 4)
    /\ (forall s, 0 < s ->
          derivable_pt_lim
            (fun x => price_value "spot" x K T r sigma option_type) s
            (slope s))
    /\ derivable_pt_lim slope S gamma.
Proof.
  intros Ho HS HK HT Hs. eexists. eexists.
  exists (fun s => if option_type =? "call"
                   then norm_cdf (ClosedForm.d1_spot s K T r sigma)
                   else norm_cdf (ClosedForm.d1_spot s K T r sigma) - 1).
  split; [apply calculate_greeks_spot_raw; assumption |].
  split; [reflexivity |]. split.
  - intros s Hs0. apply price_value_spot_slope; assumption.
  - apply spot_gamma_slope; assumption.
Qed.

Lemma spot_gamma_is_second_derivative_witness :
  exists gamma g slope,
    calculate_greeks "spot" 100 100 0.0822 0.03 0.2 "put" = Return g
    /\ dict_get "Gamma" g = Some (round gamma 4)
    /\ (forall s, 0 < s ->
          derivable_pt_lim
            (fun x => price_value "spot" x 100 0.0822 0.03 0.2 "put") s
            (slope s))
    /\ derivable_pt_lim slope 100 gamma.
Proof.
  apply spot_gamma_is_second_derivative; solve [lra | right; reflexivity].
Defined.

(** X3: in the spot model the reported Vega is the rounding of one hundredth
    of the derivative of the price in the volatility (the change in price per
    volatility point). *)
Theorem spot_vega_is_price_derivative
  (option_type : string) (S K T r sigma : R) :
  valid_option_type option_type ->
  0 < S -> 0 < K -> 0 < T -> 0 < sigma ->
  exists vega g,
    calculate_greeks "spot" S K T r sigma option_type = Return g
    /\ dict_get "Vega" g = Some (round vega 4)
    /\ derivable_pt_lim
         (fun v => price_value "spot" S K T r v option_type) sigma
         (100 * vega).
Proof.
  intros Ho HS HK HT Hs. eexists. eexists.
  split; [apply calculate_greeks_spot_raw; assumption |].
  split; [reflexivity |].
  apply spot_vega_slope; assumption.
Qed.

Lemma spot_vega_is_price_derivative_witness :
  exists vega g,
    calculate_greeks "spot" 100 100 0.0822 0.03 0.2 "call" = Return g
    /\ dict_get "Vega" g = Some (round vega 4)
    /\ derivable_pt_lim
         (fun v => price_value "spot" 100 100 0.0822 0.03 v "call") 0.2
         (100 * vega).
Proof.
  apply spot_vega_is_price_derivative; solve [lra | left; reflexivity].
Defined.

(** X4: in the spot model the reported Theta is the rounding of the daily
    time decay: minus the derivative of the price in the time to expiry,
    divided by 365. *)
Theorem spot_theta_is_time_decay
  (option_type : string) (S K T r sigma : R) :
  valid_option_type option_type ->
  0 < S -> 0 < K -> 0 < T -> 0 < sigma ->
  exists theta g,
    calculate_greeks "spot" S K T r sigma option_type = Return g
    /\ dict_get "Theta" g = Some (round theta 4)
    /\ derivable_pt_lim
         (fun t => price_value "spot" S K t r sigma option_type) T
         (- (365 * theta)).
Proof.
  intros Ho HS HK HT Hs. eexists. eexists.
  split; [apply calculate_greeks_spot_raw; assumption |].
  split; [reflexivity |].
  apply spot_theta_slope; assumption.
Qed.

Lemma spot_theta_is_time_decay_witness :
  exists theta g,
    calculate_greeks "spot" 100 100 0.0822 0.03 0.2 "put" = Return g
    /\ dict_get "Theta" g = Some (round theta 4)
    /\ derivable_pt_lim
         (fun t => price_value "spot" 100 100 t 0.03 0.2 "put") 0.0822
         (- (365 * theta)).
Proof.
  apply spot_theta_is_time_decay; solve [lra | right; reflexivity].
Defined.

(** X5: in the spot model the reported Rho is the rounding of one hundredth
    of the derivative of the price in the risk-free rate. *)
Theorem spot_rho_is_price_derivative
  (option_type : string) (S K T r sigma : R) :
  valid_option_type option_type ->
  0 < S -> 0 < K -> 0 < T -> 0 < sigma ->
  exists rho g,
    calculate_greeks "spot" S K T r sigma option_type = Return g
    /\ dict_get "Rho" g = Some (round rho 4)
    /\ derivable_pt_lim
         (fun q => price_value "spot" S K T q sigma option_type) r
         (100 * rho).
Proof.
  intros Ho HS HK HT Hs. eexists. eexists.
  split; [apply calculate_greeks_spot_raw; assumption |].
  split; [reflexivity |].
  apply spot_rho_slope; assumption.
Qed.

Lemma spot_rho_is_price_derivative_witness :
  exists rho g,
    calculate_greeks "spot" 100 100 0.0822 0.03 0.2 "put" = Return g
    /\ dict_get "Rho" g = Some (round rho 4)
    /\ derivable_pt_lim
         (fun q => price_value "spot" 100 100 0.0822 q 0.2 "put") 0.03
         (100 * rho).
Proof.
  apply spot_rho_is_price_derivative; solve [lra | right; reflexivity].
Defined.

(** *** Delta, Gamma and Vega of the futures model *)

Lemma put_futures_spot (F K T r sigma : R) :
  ClosedForm.put_futures F K T r sigma
  = ClosedForm.df T r * ClosedForm.put_spot F K T 0 sigma.
Proof.
  pose proof (parity_futures F K T r sigma) as Hf.
  pose proof (parity_spot F K T 0 sigma) as Hs.
  pose proof (call_futures_spot F K T r sigma) as Hc.
  replace (- (0 * T)) with 0 in Hs by ring. rewrite exp_0 in Hs.
  assert (E : ClosedForm.put_spot F K T 0 sigma
              = ClosedForm.call_spot F K T 0 sigma - (F - K)) by lra.
  rewrite E. lra.
Qed.

Lemma price_futures_spot (option_type : string) (F K T r sigma : R) :
  valid_option_type option_type ->
  ClosedForm.price "futures" F K T r sigma option_type
  = ClosedForm.df T r * ClosedForm.price "spot" F K T 0 sigma option_type.
Proof.
  intros [-> | ->].
  - apply call_futures_spot.
  - apply put_futures_spot.
Qed.

Lemma calculate_greeks_black76_raw (F K T r sigma : R) (option_type : string) :
  valid_option_type option_type -> K <> 0 ->
  let d1 := ClosedForm.d1_futures F K T sigma in
  let d2 := ClosedForm.d2_futures F K T sigma in
  let df := ClosedForm.df T r in
  calculate_greeks "futures" F K T r sigma option_type
  = Return
      (greeks_dict
         (if option_type =? "call" then df * norm_cdf d1
          else - df * norm_cdf (- d1))
         (norm_pdf d1 / (F * sigma * sqrt T))
         (F * norm_pdf d1 * sqrt T * df / 100)
         (if option_type =? "call" then
            (- F * norm_pdf d1 * sigma * df / (2 * sqrt T)
             - r * F * norm_cdf d1 * df) / 365
          else
            (- F * norm_pdf d1 * sigma * df / (2 * sqrt T)
             + r * F * norm_cdf (- d1) * df) / 365)
         (if option_type =? "call" then T * K * df * norm_cdf d2 / 100
          else - T * K * df * norm_cdf (- d2) / 100)).
Proof.
  intros [-> | ->] HK; cbv zeta;
    change (calculate_greeks "futures" F K T r sigma)
      with (calculate_greeks_black76 F K T r sigma);
    unfold calculate_greeks_black76, ClosedForm.d2_futures,
      ClosedForm.d1_futures, ClosedForm.df;
    rewrite (div_nonzero F K HK); cbn [bind]; cbv zeta.
  - rewrite String.eqb_refl. cbn [bind].
    replace (- r * T) with (- (r * T)) by ring. reflexivity.
  - change ("put" =? "call") with false. rewrite String.eqb_refl.
    cbn [bind].
    replace (- r * T) with (- (r * T)) by ring. reflexivity.
Qed.

Section FuturesSlopes.

Variables F K T r sigma : R.
Hypothesis F_pos : 0 < F.
Hypothesis K_pos : 0 < K.
Hypothesis T_pos : 0 < T.
Hypothesis sigma_pos : 0 < sigma.

Variable option_type : string.
Hypothesis option_type_ok : valid_option_type option_type.

Let df := ClosedForm.df T r.

Lemma price_value_futures_slope (f : R) :
  0 < f ->
  derivable_pt_lim (fun x => price_value "futures" x K T r sigma option_type) f
    (if option_type =? "call"
     then df * norm_cdf (ClosedForm.d1_futures f K T sigma)
     else - df * norm_cdf (- ClosedForm.d1_futures f K T sigma)).
Proof.
  intro Hf.
  apply (derivable_pt_lim_eq
           (mult_real_fct df
              (fun x => price_value "spot" x K T 0 sigma option_type))
           (fun x => price_value "futures" x K T r sigma option_type) f
           (df * (if option_type =? "call"
                  then norm_cdf (ClosedForm.d1_spot f K T 0 sigma)
                  else norm_cdf (ClosedForm.d1_spot f K T 0 sigma) - 1))).
  - apply derivable_pt_lim_scal.
    apply price_value_spot_slope; assumption.
  - intro x. unfold mult_real_fct.
    rewrite !price_value_closed_form;
      try solve [left; reflexivity | right; reflexivity | nonzero].
    symmetry. apply price_futures_spot, option_type_ok.
  - rewrite d1_futures_spot. destruct (option_type =? "call").
    + reflexivity.
    + rewrite norm_cdf_opp. ring.
Qed.

Lemma futures_gamma_slope :
  derivable_pt_lim
    (fun f => if option_type =? "call"
              then df * norm_cdf (ClosedForm.d1_futures f K T sigma)
              else - df * norm_cdf (- ClosedForm.d1_futures f K T sigma))
    F
    (df * (norm_pdf (ClosedForm.d1_futures F K T sigma)
           / (F * sigma * sqrt T))).
Proof.
  apply (derivable_pt_lim_eq
           (mult_real_fct df
              (fun s => if option_type =? "call"
                        then norm_cdf (ClosedForm.d1_spot s K T 0 sigma)
                        else norm_cdf (ClosedForm.d1_spot s K T 0 sigma) - 1))
           (fun f => if option_type =? "call"
                     then df * norm_cdf (ClosedForm.d1_futures f K T sigma)
                     else - df * norm_cdf (- ClosedForm.d1_futures f K T sigma))
           F
           (df * (norm_pdf (ClosedForm.d1_spot F K T 0 sigma)
                  / (F * sigma * sqrt T)))).
  - apply derivable_pt_lim_scal.
    apply (spot_gamma_slope F K T 0 sigma F_pos K_pos T_pos sigma_pos
             option_type).
  - intro f. unfold mult_real_fct. rewrite d1_futures_spot.
    destruct (option_type =? "call").
    + reflexivity.
    + rewrite norm_cdf_opp. ring.
  - rewrite d1_futures_spot. reflexivity.
Qed.

Lemma futures_vega_slope :
  derivable_pt_lim (fun v => price_value "futures" F K T r v option_type) sigma
    (F * norm_pdf (ClosedForm.d1_futures F K T sigma) * sqrt T * df).
Proof.
  apply (derivable_pt_lim_eq
           (mult_real_fct df
              (fun v => price_value "spot" F K T 0 v option_type))
           (fun v => price_value "futures" F K T r v option_type) sigma
           (df * (100 * (F * norm_pdf (ClosedForm.d1_spot F K T 0 sigma)
                         * sqrt T / 100)))).
  - apply derivable_pt_lim_scal.
    apply (spot_vega_slope F K T 0 sigma F_pos K_pos T_pos sigma_pos
             option_type option_type_ok).
  - intro v. unfold mult_real_fct.
    rewrite !price_value_closed_form;
      try solve [left; reflexivity | right; reflexivity | nonzero].
    symmetry. apply price_futures_spot, option_type_ok.
  - rewrite d1_futures_spot. field.
Qed.

(** In the futures model the rate acts through the discount factor only. *)
Lemma futures_rate_slope :
  derivable_pt_lim (fun q => price_value "futures" F K T q sigma option_type) r
    (- T * price_value "futures" F K T r sigma option_type).
Proof.
  set (p0 := ClosedForm.price "spot" F K T 0 sigma option_type).
  apply (derivable_pt_lim_eq (fun q => p0 * exp (- (q * T)))
           (fun q => price_value "futures" F K T q sigma option_type) r
           (- (p0 * T * exp (- (r * T))))).
  - apply discount_derivable_r.
  - intro q.
    rewrite price_value_closed_form;
      try solve [right; reflexivity | nonzero].
    rewrite price_futures_spot by exact option_type_ok.
    unfold ClosedForm.df, p0. ring.
  - rewrite price_value_closed_form;
      try solve [right; reflexivity | nonzero].
    rewrite price_futures_spot by exact option_type_ok.
    unfold ClosedForm.df, p0. ring.
Qed.

End FuturesSlopes.

(** X6: in the futures model the reported Delta is the rounding of the
    derivative of the price in the futures price. *)
Theorem futures_delta_is_price_derivative
  (option_type : string) (F K T r sigma : R) :
  valid_option_type option_type ->
  0 < F -> 0 < K -> 0 < T -> 0 < sigma ->
  exists delta g,
    calculate_greeks "futures" F K T r sigma option_type = Return g
    /\ dict_get "Delta" g = Some (round delta 4)
    /\ derivable_pt_lim
         (fun f => price_value "futures" f K T r sigma option_type) F delta.
Proof.
  intros Ho HF HK HT Hs. eexists. eexists.
  split; [apply calculate_greeks_black76_raw; nonzero |].
  split; [reflexivity |].
  apply price_value_futures_slope; assumption.
Qed.

Lemma futures_delta_is_price_derivative_witness :
  exists delta g,
    calculate_greeks "futures" 100 100 0.0822 0.03 0.2 "put" = Return g
    /\ dict_get "Delta" g = Some (round delta 4)
    /\ derivable_pt_lim
         (fun f => price_value "futures" f 100 0.0822 0.03 0.2 "put") 100
         delta.
Proof.
  apply futures_delta_is_price_derivative; solve [lra | right; reflexivity].
Defined.

(** X7: in the futures model the reported Vega is the rounding of one
    hundredth of the derivative of the price in the volatility. *)
Theorem futures_vega_is_price_derivative
  (option_type : string) (F K T r sigma : R) :
  valid_option_type option_type ->
  0 < F -> 0 < K -> 0 < T -> 0 < sigma ->
  exists vega g,
    calculate_greeks "futures" F K T r sigma option_type = Return g
    /\ dict_get "Vega" g = Some (round vega 4)
    /\ derivable_pt_lim
         (fun v => price_value "futures" F K T r v option_type) sigma
         (100 * vega).
Proof.
  intros Ho HF HK HT Hs. eexists. eexists.
  split; [apply calculate_greeks_black76_raw; nonzero |].
  split; [reflexivity |].
  apply (derivable_pt_lim_eq
           (fun v => price_value "futures" F K T r v option_type)
           (fun v => price_value "futures" F K T r v option_type) sigma
           (F * norm_pdf (ClosedForm.d1_futures F K T sigma) * sqrt T
            * ClosedForm.df T r)).
  - apply futures_vega_slope; assumption.
  - intro v; reflexivity.
  - field.
Qed.

Lemma futures_vega_is_price_derivative_witness :
  exists vega g,
    calculate_greeks "futures" 100 100 0.0822 0.03 0.2 "call" = Return g
    /\ dict_get "Vega" g = Some (round vega 4)
    /\ derivable_pt_lim
         (fun v => price_value "futures" 100 100 0.0822 0.03 v "call") 0.2
         (100 * vega).
Proof.
  apply futures_vega_is_price_derivative; solve [lra | left; reflexivity].
Defined.

(** X8: in the futures model the reported Gamma carries no discount factor:
    the price has a slope at every positive futures price, and that slope
    moves at the rate [exp(-rT)] times the unrounded Gamma. *)
Theorem futures_gamma_is_undiscounted
  (option_type : string) (F K T r sigma : R) :
  valid_option_type option_type ->
  0 < F -> 0 < K -> 0 < T -> 0 < sigma ->
  exists gamma g slope,
    calculate_greeks "futures" F K T r sigma option_type = Return g
    /\ dict_get "Gamma" g = Some (round gamma 4)
    /\ (forall f, 0 < f ->
          derivable_pt_lim
            (fun x => price_value "futures" x K T r sigma option_type) f
            (slope f))
    /\ derivable_pt_lim slope F (exp (- (r * T)) * gamma).
Proof.
  intros Ho HF HK HT Hs. eexists. eexists.
  exists (fun f => if option_type =? "call"
                   then ClosedForm.df T r
                        * norm_cdf (ClosedForm.d1_futures f K T sigma)
                   else - ClosedForm.df T r
                        * norm_cdf (- ClosedForm.d1_futures f K T sigma)).
  split; [apply calculate_greeks_black76_raw; nonzero |].
  split; [reflexivity |]. split.
  - intros f Hf. apply price_value_futures_slope; assumption.
  - apply futures_gamma_slope; assumption.
Qed.

Lemma futures_gamma_is_undiscounted_witness :
  exists gamma g slope,
    calculate_greeks "futures" 100 100 0.0822 0.03 0.2 "call" = Return g
    /\ dict_get "Gamma" g = Some (round gamma 4)
    /\ (forall f, 0 < f ->
          derivable_pt_lim
            (fun x => price_value "futures" x 100 0.0822 0.03 0.2 "call") f
            (slope f))
    /\ derivable_pt_lim slope 100 (exp (- (0.03 * 0.0822)) * gamma).
Proof.
  apply futures_gamma_is_undiscounted; solve [lra | left; reflexivity].
Defined.

(** X9: in the futures model the rate acts on the price through the discount
    factor only: the derivative of the price in the rate is minus the time to
    expiry times the price. *)
Theorem futures_price_rate_derivative
  (option_type : string) (F K T r sigma : R) :
  valid_option_type option_type ->
  0 < F -> 0 < K -> 0 < T -> 0 < sigma ->
  exists p,
    price_option "futures" F K T r sigma option_type = Return p
    /\ derivable_pt_lim
         (fun q => price_value "futures" F K T q sigma option_type) r
         (- T * p).
Proof.
  intros Ho HF HK HT Hs.
  exists (price_value "futures" F K T r sigma option_type). split.
  - unfold price_value.
    rewrite price_option_valid;
      [reflexivity | right; reflexivity | exact Ho | nonzero].
  - apply futures_rate_slope; assumption.
Qed.

Lemma futures_price_rate_derivative_witness :
  exists p,
    price_option "futures" 100 100 0.0822 0.03 0.2 "call" = Return p
    /\ derivable_pt_lim
         (fun q => price_value "futures" 100 100 0.0822 q 0.2 "call") 0.03
         (Ropp 0.0822 * p).
Proof.
  apply futures_price_rate_derivative; solve [lra | left; reflexivity].
Defined.

(** *** More on rounding *)

Lemma rint_monotone (x y : R) : x <= y -> (rint x <= rint y)%Z.
Proof.
  intro Hxy.
  destruct (Z_lt_le_dec (rint y) (rint x)) as [Hlt | Hle]; [| exact Hle].
  exfalso.
  pose proof (rint_error x) as Hx. pose proof (rint_error y) as Hy.
  apply Rabs_le_bounds in Hx. apply Rabs_le_bounds in Hy.
  assert (H1 : IZR (rint y) + 1 <= IZR (rint x)).
  { rewrite <- plus_IZR. apply IZR_le. lia. }
  assert (E : x = y) by lra.
  rewrite E in Hlt. lia.
Qed.

Lemma round_monotone (x y : R) (n : nat) : x <= y -> round x n <= round y n.
Proof.
  intro Hxy. pose proof (pow10_pos n) as Hp. unfold round.
  apply Rmult_le_compat_r; [left; apply Rinv_0_lt_compat, Hp |].
  apply IZR_le, rint_monotone. apply Rmult_le_compat_r; lra.
Qed.

(** A number with [n] decimals is its own rounding. *)
Lemma round_decimal (z : Z) (n : nat) : round (IZR z / 10 ^ n) n = IZR z / 10 ^ n.
Proof.
  pose proof (pow10_pos n) as Hp. unfold round.
  replace (IZR z / 10 ^ n * 10 ^ n) with (IZR z) by (field; lra).
  rewrite rint_IZR. reflexivity.
Qed.

Lemma round_nonneg (x : R) (n : nat) : 0 <= x -> 0 <= round x n.
Proof.
  intro Hx. pose proof (round_decimal 0 n) as E.
  replace (0 / 10 ^ n) with 0 in E
    by (unfold Rdiv; rewrite Rmult_0_l; reflexivity).
  rewrite <- E. apply round_monotone, Hx.
Qed.

(** Shifting by an even integer commutes with rounding to the nearest
    integer, ties included. *)
Lemma rint_shift_even (x : R) (k : Z) :
  Z.even k = true -> rint (x + IZR k) = (rint x + k)%Z.
Proof.
  intro Hk.
  pose proof (base_Int_part x) as [Hi1 Hi2].
  assert (Hi : Int_part (x + IZR k) = (Int_part x + k)%Z).
  { symmetry. apply Int_part_spec. rewrite plus_IZR. lra. }
  assert (Hf : frac_part (x + IZR k) = frac_part x).
  { unfold frac_part. rewrite Hi, plus_IZR. ring. }
  unfold rint. rewrite Hi, Hf.
  destruct (Rlt_dec (frac_part x) (1 / 2)); [reflexivity |].
  destruct (Rlt_dec (1 / 2) (frac_part x)); [lia |].
  rewrite Z.even_add, Hk.
  destruct (Z.even (Int_part x)); cbn; lia.
Qed.

Lemma round_4_minus_1 (x : R) : round (x - 1) 4 = round x 4 - 1.
Proof.
  unfold round.
  replace ((x - 1) * 10 ^ 4) with (x * 10 ^ 4 + IZR (- 10000)) by (simpl; lra).
  rewrite rint_shift_even by reflexivity.
  rewrite plus_IZR. simpl. lra.
Qed.

(** *** The Greeks dictionary across option types *)

(** X10: for either model, Gamma and Vega do not depend on the option type:
    the call and the put dictionaries hold the same two values. *)
Theorem gamma_vega_same_for_call_and_put
  (model : string) (S_or_F K T r sigma : R) :
  valid_model model ->
  0 < S_or_F -> 0 < K -> 0 < T -> 0 < sigma ->
  exists g_call g_put,
    calculate_greeks model S_or_F K T r sigma "call" = Return g_call
    /\ calculate_greeks model S_or_F K T r sigma "put" = Return g_put
    /\ dict_get "Gamma" g_call = dict_get "Gamma" g_put
    /\ dict_get "Vega" g_call = dict_get "Vega" g_put.
Proof.
  intros Hm _ HK _ _.
  assert (HK0 : K <> 0) by lra.
  destruct Hm as [-> | ->]; eexists; eexists.
  - split; [exact (calculate_greeks_bs_call S_or_F K T r sigma HK0) |].
    split; [exact (calculate_greeks_bs_put S_or_F K T r sigma HK0) |].
    split; reflexivity.
  - split; [exact (calculate_greeks_black76_raw S_or_F K T r sigma "call"
                     (or_introl eq_refl) HK0) |].
    split; [exact (calculate_greeks_black76_raw S_or_F K T r sigma "put"
                     (or_intror eq_refl) HK0) |].
    split; reflexivity.
Qed.

Lemma gamma_vega_same_for_call_and_put_witness :
  exists g_call g_put,
    calculate_greeks "futures" 100 100 0.0822 0.03 0.2 "call" = Return g_call
    /\ calculate_greeks "futures" 100 100 0.0822 0.03 0.2 "put" = Return g_put
    /\ dict_get "Gamma" g_call = dict_get "Gamma" g_put
    /\ dict_get "Vega" g_call = dict_get "Vega" g_put.
Proof.
  apply gamma_vega_same_for_call_and_put; solve [lra | right; reflexivity].
Defined.

(** X11: in the spot model the reported put Delta is exactly the reported
    call Delta minus one, also after rounding to 4 decimals. *)
Theorem spot_put_delta_is_call_delta_minus_one (S K T r sigma : R) :
  0 < S -> 0 < K -> 0 < T -> 0 < sigma ->
  exists g_call g_put delta_call,
    calculate_greeks "spot" S K T r sigma "call" = Return g_call
    /\ calculate_greeks "spot" S K T r sigma "put" = Return g_put
    /\ dict_get "Delta" g_call = Some delta_call
    /\ dict_get "Delta" g_put = Some (delta_call - 1).
Proof.
  intros _ HK _ _.
  assert (HK0 : K <> 0) by lra.
  eexists. eexists. eexists.
  split; [exact (calculate_greeks_bs_call S K T r sigma HK0) |].
  split; [exact (calculate_greeks_bs_put S K T r sigma HK0) |].
  split; [reflexivity |].
  cbn [greeks_dict dict_get]. cbv zeta.
  change ("Delta" =? "Delta") with true. cbv iota.
  f_equal. apply round_4_minus_1.
Qed.

Lemma spot_put_delta_is_call_delta_minus_one_witness :
  exists g_call g_put delta_call,
    calculate_greeks "spot" 100 100 0.0822 0.03 0.2 "call" = Return g_call
    /\ calculate_greeks "spot" 100 100 0.0822 0.03 0.2 "put" = Return g_put
    /\ dict_get "Delta" g_call = Some delta_call
    /\ dict_get "Delta" g_put = Some (delta_call - 1).
Proof. apply spot_put_delta_is_call_delta_minus_one; lra. Defined.

(** X12: on a valid input the reported Gamma and Vega are never negative,
    for both models and both option types. *)
Theorem gamma_vega_nonnegative
  (model option_type : string) (S_or_F K T r sigma : R) :
  valid_model model -> valid_option_type option_type ->
  0 < S_or_F -> 0 < K -> 0 < T -> 0 < sigma ->
  exists g gamma vega,
    calculate_greeks model S_or_F K T r sigma option_type = Return g
    /\ dict_get "Gamma" g = Some gamma /\ 0 <= gamma
    /\ dict_get "Vega" g = Some vega /\ 0 <= vega.
Proof.
  intros Hm Ho HS HK HT Hs.
  pose proof (sqrt_T_pos T HT) as HsT.
  assert (Hden : 0 < S_or_F * sigma * sqrt T).
  { apply Rmult_lt_0_compat; [| exact HsT].
    apply Rmult_lt_0_compat; assumption. }
  destruct Hm as [-> | ->].
  - pose proof (norm_pdf_pos (ClosedForm.d1_spot S_or_F K T r sigma)) as Hp.
    eexists. eexists. eexists.
    split; [apply calculate_greeks_spot_raw; assumption |].
    split; [reflexivity |]. split.
    { apply round_nonneg. left. apply Rdiv_lt_0_compat; assumption. }
    split; [reflexivity |].
    apply round_nonneg. left. apply Rdiv_lt_0_compat; [| lra].
    apply Rmult_lt_0_compat; [| exact HsT].
    apply Rmult_lt_0_compat; assumption.
  - pose proof (norm_pdf_pos (ClosedForm.d1_futures S_or_F K T sigma)) as Hp.
    pose proof (df_pos T r) as Hdf.
    eexists. eexists. eexists.
    split; [apply calculate_greeks_black76_raw; nonzero |].
    split; [reflexivity |]. split.
    { apply round_nonneg. left. apply Rdiv_lt_0_compat; assumption. }
    split; [reflexivity |].
    apply round_nonneg. left. apply Rdiv_lt_0_compat; [| lra].
    apply Rmult_lt_0_compat; [| exact Hdf].
    apply Rmult_lt_0_compat; [| exact HsT].
    apply Rmult_lt_0_compat; assumption.
Qed.

Lemma gamma_vega_nonnegative_witness :
  exists g gamma vega,
    calculate_greeks "spot" 100 100 0.0822 0.03 0.2 "call" = Return g
    /\ dict_get "Gamma" g = Some gamma /\ 0 <= gamma
    /\ dict_get "Vega" g = Some vega /\ 0 <= vega.
Proof.
  apply gamma_vega_nonnegative; solve [lra | left; reflexivity].
Defined.

(** *** Algebra of the prices *)

Lemma d1_spot_scale (c S K T r sigma : R) :
  0 < c -> 0 < K ->
  ClosedForm.d1_spot (c * S) (c * K) T r sigma
  = ClosedForm.d1_spot S K T r sigma.
Proof.
  intros Hc HK. unfold ClosedForm.d1_spot.
  replace (c * S / (c * K)) with (S / K) by (field; lra). reflexivity.
Qed.

Lemma price_scale (model option_type : string) (c S K T r sigma : R) :
  0 < c -> 0 < K ->
  ClosedForm.price model (c * S) (c * K) T r sigma option_type
  = c * ClosedForm.price model S K T r sigma option_type.
Proof.
  intros Hc HK.
  unfold ClosedForm.price, ClosedForm.call_spot, ClosedForm.put_spot,
    ClosedForm.call_futures, ClosedForm.put_futures, ClosedForm.d2_futures,
    ClosedForm.d2_spot.
  rewrite !d1_futures_spot, !d1_spot_scale by assumption.
  destruct (model =? "spot"), (option_type =? "call"); ring.
Qed.

(** X13: the price is homogeneous of degree one in underlying and strike:
    scaling both by a positive factor scales the price by that factor, for
    both models and both option types. *)
Theorem price_homogeneous
  (model option_type : string) (c S_or_F K T r sigma : R) :
  valid_model model -> valid_option_type option_type ->
  0 < c -> 0 < S_or_F -> 0 < K -> 0 < T -> 0 < sigma ->
  exists p,
    price_option model S_or_F K T r sigma option_type = Return p
    /\ price_option model (c * S_or_F) (c * K) T r sigma option_type
       = Return (c * p).
Proof.
  intros Hm Ho Hc _ HK _ _.
  exists (ClosedForm.price model S_or_F K T r sigma option_type). split.
  - apply price_option_valid; nonzero.
  - rewrite price_option_valid;
      [| assumption | assumption
       | apply Rgt_not_eq, Rmult_lt_0_compat; assumption].
    f_equal. apply price_scale; assumption.
Qed.

Lemma price_homogeneous_witness :
  exists p,
    price_option "spot" 100 110 0.5 0.03 0.2 "put" = Return p
    /\ price_option "spot" (2 * 100) (2 * 110) 0.5 0.03 0.2 "put"
       = Return (2 * p).
Proof.
  apply price_homogeneous; solve [lra | left; reflexivity | right; reflexivity].
Defined.

Lemma d1_futures_swap (F K T sigma : R) :
  0 < F -> 0 < K -> 0 < T -> 0 < sigma ->
  ClosedForm.d1_futures K F T sigma = - ClosedForm.d2_futures F K T sigma.
Proof.
  intros HF HK HT Hs. pose proof (sqrt_T_pos T HT) as HsT.
  pose proof (sqrt_T_sqr T HT) as HTT.
  assert (Hln : ln (K / F) = - ln (F / K)).
  { replace (K / F) with (/ (F / K)) by (field; lra).
    apply ln_Rinv. apply Rdiv_lt_0_compat; assumption. }
  unfold ClosedForm.d2_futures, ClosedForm.d1_futures. rewrite Hln.
  apply (Rmult_eq_reg_r (sigma * sqrt T)); [| nra].
  set (L := ln (F / K)).
  replace ((- L + 0.5 * sigma ^ 2 * T) / (sigma * sqrt T) * (sigma * sqrt T))
    with (- L + 0.5 * sigma ^ 2 * T) by (field; lra).
  replace (- ((L + 0.5 * sigma ^ 2 * T) / (sigma * sqrt T) - sigma * sqrt T)
           * (sigma * sqrt T))
    with (- (L + 0.5 * sigma ^ 2 * T) + sigma ^ 2 * (sqrt T * sqrt T))
    by (field; lra).
  rewrite HTT. lra.
Qed.

(** X14: put-call symmetry of the futures model: a call on F struck at K is
    worth exactly as much as a put on K struck at F. *)
Theorem futures_put_call_symmetry (F K T r sigma : R) :
  0 < F -> 0 < K -> 0 < T -> 0 < sigma ->
  exists p,
    price_option "futures" F K T r sigma "call" = Return p
    /\ price_option "futures" K F T r sigma "put" = Return p.
Proof.
  intros HF HK HT Hs.
  exists (ClosedForm.call_futures F K T r sigma). split.
  - apply (price_option_valid "futures" F K T r sigma "call");
      [right; reflexivity | left; reflexivity | nonzero].
  - rewrite (price_option_valid "futures" K F T r sigma "put")
      by solve [right; reflexivity | nonzero].
    f_equal. cbn.
    unfold ClosedForm.put_futures, ClosedForm.call_futures.
    assert (E1 : ClosedForm.d1_futures K F T sigma
                 = - ClosedForm.d2_futures F K T sigma)
      by (apply d1_futures_swap; assumption).
    assert (E2 : ClosedForm.d2_futures K F T sigma
                 = - ClosedForm.d1_futures F K T sigma).
    { unfold ClosedForm.d2_futures at 1. rewrite E1.
      unfold ClosedForm.d2_futures. ring. }
    rewrite E1, E2, !Ropp_involutive. reflexivity.
Qed.

Lemma futures_put_call_symmetry_witness :
  exists p,
    price_option "futures" 100 110 0.5 0.03 0.2 "call" = Return p
    /\ price_option "futures" 110 100 0.5 0.03 0.2 "put" = Return p.
Proof. apply futures_put_call_symmetry; lra. Defined.

(** X15: the futures price is the spot price computed at a zero rate,
    multiplied by the discount factor [exp(-rT)]. *)
Theorem futures_price_is_discounted_spot
  (option_type : string) (F K T r sigma : R) :
  valid_option_type option_type ->
  0 < F -> 0 < K -> 0 < T -> 0 < sigma ->
  exists p,
    price_option "spot" F K T 0 sigma option_type = Return p
    /\ price_option "futures" F K T r sigma option_type
       = Return (exp (- (r * T)) * p).
Proof.
  intros Ho _ HK _ _.
  exists (ClosedForm.price "spot" F K T 0 sigma option_type). split.
  - apply price_option_valid; [left; reflexivity | exact Ho | nonzero].
  - rewrite price_option_valid; [| right; reflexivity | exact Ho | nonzero].
    f_equal. apply price_futures_spot, Ho.
Qed.

Lemma futures_price_is_discounted_spot_witness :
  exists p,
    price_option "spot" 100 110 0.5 0 0.2 "call" = Return p
    /\ price_option "futures" 100 110 0.5 0.03 0.2 "call"
       = Return (exp (- (0.03 * 0.5)) * p).
Proof.
  apply futures_price_is_discounted_spot; solve [lra | left; reflexivity].
Defined.

(** *** More on the implied-volatility entry point *)

(** The two ends of the volatility bracket have 4 decimals. *)
Lemma round_bracket_low : round 0.0001 4 = 0.0001.
Proof.
  assert (E : 0.0001 = IZR 1 / 10 ^ 4) by (simpl; lra).
  rewrite E. apply round_decimal.
Qed.

Lemma round_bracket_high : round 3.0 4 = 3.0.
Proof.
  assert (E : 3.0 = IZR 30000 / 10 ^ 4) by (simpl; lra).
  rewrite E. apply round_decimal.
Qed.

Lemma valid_option_type_cases (option_type : string) :
  valid_option_type option_type \/ ~ valid_option_type option_type.
Proof.
  unfold valid_option_type.
  destruct (string_dec option_type "call"); [tauto |].
  destruct (string_dec option_type "put"); tauto.
Qed.

Lemma root_finding_cases
  (brentq : (R -> result R) -> R -> R -> result R)
  (model option_type : string) (S_or_F K T r market_price : R) :
  (exists x,
      brentq (objective model S_or_F K T r option_type market_price)
        0.0001 3.0 = Return x
      /\ root_finding brentq model S_or_F K T r option_type market_price
         = Return (Some (round x 4)))
  \/ root_finding brentq model S_or_F K T r option_type market_price
     = Return None
  \/ (exists e,
         root_finding brentq model S_or_F K T r option_type market_price
         = Raise e
         /\ forall msg, e <> ValueError msg).
Proof.
  unfold root_finding.
  destruct (brentq _ 0.0001 3.0) as [x | [msg | msg |]].
  - left. exists x. split; reflexivity.
  - right; left. reflexivity.
  - right; right. eexists. split; [reflexivity | discriminate].
  - right; right. eexists. split; [reflexivity | discriminate].
Qed.

(** X17: an unrecognised model makes the implied-volatility entry point
    raise the model ValueError whatever the other arguments are, a bad
    option type included: the dispatch is outside the solver's handler. *)
Theorem implied_volatility_invalid_model
  (brentq : (R -> result R) -> R -> R -> result R)
  (model option_type : string) (market_price S_or_F K T r : R) :
  ~ valid_model model ->
  get_implied_volatility brentq model market_price S_or_F K T r option_type
  = Raise (ValueError "model must be 'spot' or 'futures'").
Proof.
  intro Hm. destruct (not_spot_futures _ Hm) as [E1 E2].
  unfold get_implied_volatility. rewrite E1, E2. reflexivity.
Qed.

Lemma implied_volatility_invalid_model_witness :
  get_implied_volatility exact_root "stocks" 10 100 100 0.25 0 "straddle"
  = Raise (ValueError "model must be 'spot' or 'futures'").
Proof.
  apply implied_volatility_invalid_model.
  intros [H | H]; discriminate H.
Defined.

(** X18: with a recognised model the implied-volatility entry point never
    raises a ValueError, whatever the root finder does and whatever the
    option type and the numbers are. *)
Theorem implied_volatility_never_value_error
  (brentq : (R -> result R) -> R -> R -> result R)
  (model option_type : string) (market_price S_or_F K T r : R) :
  valid_model model ->
  ~ is_ValueError
      (get_implied_volatility brentq model market_price S_or_F K T r
         option_type).
Proof.
  intros Hm [msg E].
  destruct (Req_dec K 0) as [-> | HK];
    [rewrite get_implied_volatility_zero_strike in E by exact Hm;
     discriminate E |].
  destruct (valid_option_type_cases option_type) as [Ho | Ho].
  - rewrite get_implied_volatility_valid in E by assumption.
    destruct (negb _); [discriminate E |].
    destruct (root_finding_cases brentq model option_type S_or_F K T r
                market_price) as [(x & _ & H) | [H | (e & H & He)]];
      rewrite H in E; try discriminate E.
    injection E as E. exact (He msg E).
  - rewrite get_implied_volatility_invalid in E by assumption.
    discriminate E.
Qed.

Lemma implied_volatility_never_value_error_witness :
  ~ is_ValueError
      (get_implied_volatility no_convergence "futures" 10 100 100 0.25 0
         "straddle").
Proof.
  apply implied_volatility_never_value_error. right; reflexivity.
Defined.

(** X19: whenever the implied-volatility entry point returns a volatility,
    the model and the option type were recognised, the market price lay in
    the closed bracket of prices, and the volatility is the root finder's
    result rounded to 4 decimals; it lies in [0.0001, 3.0] when that result
    does. *)
Theorem implied_volatility_returned
  (brentq : (R -> result R) -> R -> R -> result R)
  (model option_type : string) (market_price S_or_F K T r iv : R) :
  get_implied_volatility brentq model market_price S_or_F K T r option_type
  = Return (Some iv) ->
  valid_model model /\ valid_option_type option_type
  /\ ClosedForm.price model S_or_F K T r 0.0001 option_type <= market_price
     <= ClosedForm.price model S_or_F K T r 3.0 option_type
  /\ exists x,
       brentq (objective model S_or_F K T r option_type market_price)
         0.0001 3.0 = Return x
       /\ iv = round x 4
       /\ has_decimals 4 iv
       /\ (0.0001 <= x <= 3.0 -> 0.0001 <= iv <= 3.0).
Proof.
  intro E.
  destruct (valid_model_cases model) as [Hm | Hm];
    [| rewrite implied_volatility_invalid_model in E by exact Hm;
       discriminate E].
  destruct (Req_dec K 0) as [HK | HK];
    [rewrite HK, get_implied_volatility_zero_strike in E by exact Hm;
     discriminate E |].
  destruct (valid_option_type_cases option_type) as [Ho | Ho];
    [| rewrite get_implied_volatility_invalid in E by assumption;
       discriminate E].
  rewrite get_implied_volatility_valid in E by assumption.
  split; [exact Hm |]. split; [exact Ho |].
  unfold Rle_bool in E.
  destruct (Rle_dec _ market_price) as [H1 | H1]; [| discriminate E].
  destruct (Rle_dec market_price _) as [H2 | H2]; [| discriminate E].
  cbn [andb negb] in E. split; [split; assumption |].
  destruct (root_finding_cases brentq model option_type S_or_F K T r
              market_price) as [(x & Hx & H) | [H | (e & H & _)]];
    rewrite H in E; try discriminate E.
  injection E as <-. exists x.
  split; [exact Hx |]. split; [reflexivity |].
  split; [apply round_has_decimals |].
  intros [Hlo Hhi]. split.
  - apply Rle_trans with (round 0.0001 4);
      [rewrite round_bracket_low; lra | apply round_monotone, Hlo].
  - apply Rle_trans with (round 3.0 4);
      [apply round_monotone, Hhi | rewrite round_bracket_high; lra].
Qed.

Lemma implied_volatility_returned_witness :
  exists iv,
    get_implied_volatility exact_root "spot" 10 100 100 0.25 0 "call"
    = Return (Some iv)
    /\ valid_model "spot" /\ valid_option_type "call"
    /\ ClosedForm.price "spot" 100 100 0.25 0 0.0001 "call" <= 10
       <= ClosedForm.price "spot" 100 100 0.25 0 3.0 "call"
    /\ exists x,
         exact_root (objective "spot" 100 100 0.25 0 "call" 10) 0.0001 3.0
         = Return x
         /\ iv = round x 4
         /\ has_decimals 4 iv
         /\ (0.0001 <= x <= 3.0 -> 0.0001 <= iv <= 3.0).
Proof.
  destruct (solver_returns exact_root "spot" "call" 10 100 100 0.25 0
              exact_root_contract (or_introl eq_refl) (or_introl eq_refl)
              ltac:(lra) ltac:(lra) ltac:(lra) atm_bracket)
    as (x0 & _ & Hiv & _).
  exists (round x0 4). split; [exact Hiv |].
  exact (implied_volatility_returned exact_root "spot" "call" 10 100 100 0.25
           0 (round x0 4) Hiv).
Defined.

(** ** Properties of the Calculate handler *)

Lemma get_implied_volatility_no_value_error
  (brentq : (R -> result R) -> R -> R -> result R)
  (model option_type : string) (market_price S_or_F K T r : R) :
  valid_model model ->
  ~ is_ValueError
      (get_implied_volatility brentq model market_price S_or_F K T r
         option_type).
Proof.
  intros Hm [msg E].
  destruct (Req_dec K 0) as [-> | HK];
    [rewrite get_implied_volatility_zero_strike in E by exact Hm;
     discriminate E |].
  destruct (valid_option_type_cases option_type) as [Ho | Ho].
  - rewrite get_implied_volatility_valid in E by assumption.
    destruct (negb _); [discriminate E |].
    destruct (root_finding_cases brentq model option_type S_or_F K T r
                market_price) as [(x & _ & H) | [H | (e & H & He)]];
      rewrite H in E; try discriminate E.
    injection E as E. exact (He msg E).
  - rewrite get_implied_volatility_invalid in E by assumption.
    discriminate E.
Qed.

Lemma model_type_valid (f : form) : valid_model (model_type f).
Proof.
  unfold model_type. destruct (instrument f =? "stocks");
    [left | right]; reflexivity.
Qed.

Lemma calculate_greeks_valid
  (model option_type : string) (S_or_F K T r sigma : R) :
  valid_model model -> valid_option_type option_type -> K <> 0 ->
  exists delta gamma vega theta rho,
    calculate_greeks model S_or_F K T r sigma option_type
    = Return (greeks_dict delta gamma vega theta rho).
Proof.
  intros [-> | ->] Ho HK.
  - apply calculate_greeks_bs_valid; assumption.
  - apply calculate_greeks_black76_valid; assumption.
Qed.

Lemma calculate_greeks_invalid
  (model option_type : string) (S_or_F K T r sigma : R) :
  valid_model model -> ~ valid_option_type option_type -> K <> 0 ->
  calculate_greeks model S_or_F K T r sigma option_type
  = Raise option_type_error.
Proof.
  intros [-> | ->] Ho HK.
  - apply calculate_greeks_bs_invalid; assumption.
  - apply calculate_greeks_black76_invalid; assumption.
Qed.

Lemma price_option_invalid
  (model option_type : string) (S_or_F K T r sigma : R) :
  valid_model model -> ~ valid_option_type option_type -> K <> 0 ->
  price_option model S_or_F K T r sigma option_type
  = Raise option_type_error.
Proof.
  intros [-> | ->] Ho HK.
  - apply black_scholes_invalid; assumption.
  - apply black_76_invalid; assumption.
Qed.

Lemma price_option_zero_strike
  (model option_type : string) (S_or_F T r sigma : R) :
  valid_model model ->
  price_option model S_or_F 0 T r sigma option_type = Raise ZeroDivisionError.
Proof.
  intros [-> | ->].
  - apply black_scholes_zero_strike.
  - apply black_76_zero_strike.
Qed.

Section Handler.

Variable brentq : (R -> result R) -> R -> R -> result R.
Variables (today : Z) (f : form) (positions : list dict).

Let T := IZR (expiry_date f - today) / 365.

Lemma expiry_not_positive :
  (expiry_date f <= today)%Z -> Rle_bool T 0 = true.
Proof.
  intro H. apply Rle_bool_true. unfold T.
  assert (IZR (expiry_date f - today) <= 0) by (apply IZR_le; lia).
  lra.
Qed.

Lemma expiry_positive :
  (today < expiry_date f)%Z -> Rle_bool T 0 = false /\ 0 < T.
Proof.
  intro H.
  assert (1 <= IZR (expiry_date f - today)) by (apply IZR_le; lia).
  assert (0 < T) by (unfold T; lra).
  split; [apply Rle_bool_false |]; assumption.
Qed.

Lemma handler_sigma_no_value_error :
  ~ is_ValueError (handler_sigma brentq f T).
Proof.
  intros [msg E]. unfold handler_sigma in E.
  destruct (use_iv f); [| discriminate E].
  pose proof (get_implied_volatility_no_value_error brentq (model_type f)
                (form_option_type f) (form_market_price f) (form_S_or_F f)
                (form_K f) T (form_r f) (model_type_valid f)) as Hno.
  destruct (get_implied_volatility _ _ _ _ _ _ _ _) as [[v |] | e];
    cbn [bind] in E.
  - destruct (Req_dec_T v 0); discriminate E.
  - discriminate E.
  - apply Hno. exists msg. injection E as ->. reflexivity.
Qed.

(** What the handler does with a contract that expires after today. *)
Lemma on_calculate_live :
  (today < expiry_date f)%Z -> valid_option_type (form_option_type f) ->
  form_K f <> 0 ->
  (exists e, handler_sigma brentq f T = Raise e
             /\ on_calculate brentq today f positions = Raise e)
  \/ (exists sigma delta gamma vega theta rho,
         handler_sigma brentq f T = Return sigma
         /\ on_calculate brentq today f positions
            = Return
                (positions
                 ++ [dict_update
                       [ ("Book", VStr (book f));
                         ("Product Code", VStr (product_code f));
                         ("Instrument", VStr (instrument f));
                         ("Type", VStr (form_option_type f));
                         ("Strike", VNum (form_K f));
                         ("Entry Date", VDate (entry_date f));
                         ("Expiry Date", VDate (expiry_date f));
                         ("Entry Price", VNum (entry_price f));
                         ("Model Price",
                          VNum (round
                                  (ClosedForm.price (model_type f)
                                     (form_S_or_F f) (form_K f) T (form_r f)
                                     sigma (form_option_type f)) 2));
                         ("PnL",
                          VNum (round
                                  (ClosedForm.price (model_type f)
                                     (form_S_or_F f) (form_K f) T (form_r f)
                                     sigma (form_option_type f)
                                   - entry_price f) 2));
                         ("Status", VStr "Open") ]
                       (greeks_dict delta gamma vega theta rho)])%list).
Proof.
  intros Hlive Ho HK.
  destruct (expiry_positive Hlive) as [HT _].
  unfold on_calculate. fold T. cbv zeta. rewrite HT.
  destruct (handler_sigma brentq f T) as [sigma | e].
  - right.
    destruct (calculate_greeks_valid (model_type f) (form_option_type f)
                (form_S_or_F f) (form_K f) T (form_r f) sigma
                (model_type_valid f) Ho HK)
      as (delta & gamma & vega & theta & rho & Hg).
    exists sigma, delta, gamma, vega, theta, rho.
    split; [reflexivity |]. cbn [bind].
    rewrite price_option_valid
      by solve [apply model_type_valid | exact Ho | exact HK].
    cbn [bind]. rewrite Hg. cbn [bind].
    apply Z.ltb_lt in Hlive. rewrite Hlive. reflexivity.
  - left. exists e. split; reflexivity.
Qed.

End Handler.

Definition status_open (p : dict) : Prop :=
  dict_lookup "Status" p = Some (VStr "Open").

Section HandlerReturns.

Variable brentq : (R -> result R) -> R -> R -> result R.
Variables (today : Z) (f : form) (positions positions' : list dict).

Let T := IZR (expiry_date f - today) / 365.

(** Every way the handler can return. *)
Lemma on_calculate_returns :
  on_calculate brentq today f positions = Return positions' ->
  ((expiry_date f <= today)%Z /\ positions' = positions)
  \/ ((today < expiry_date f)%Z
      /\ valid_option_type (form_option_type f)
      /\ exists sigma p,
           handler_sigma brentq f T = Return sigma
           /\ positions' = (positions ++ [p])%list
           /\ map fst p = position_keys
           /\ status_open p
           /\ dict_lookup "Type" p = Some (VStr (form_option_type f))
           /\ dict_lookup "Model Price" p
              = Some (VNum (round
                              (ClosedForm.price (model_type f) (form_S_or_F f)
                                 (form_K f) T (form_r f) sigma
                                 (form_option_type f)) 2))
           /\ dict_lookup "PnL" p
              = Some (VNum (round
                              (ClosedForm.price (model_type f) (form_S_or_F f)
                                 (form_K f) T (form_r f) sigma
                                 (form_option_type f) - entry_price f) 2))).
Proof.
  intro E.
  destruct (Z_le_gt_dec (expiry_date f) today) as [Hexp | Hlive].
  - left. split; [exact Hexp |].
    unfold on_calculate in E. cbv zeta in E.
    rewrite (expiry_not_positive today f Hexp) in E.
    injection E as <-. reflexivity.
  - right. apply Z.gt_lt in Hlive. split; [exact Hlive |].
    destruct (Req_dec (form_K f) 0) as [HK | HK].
    { exfalso.
      destruct (expiry_positive today f Hlive) as [HT _].
      unfold on_calculate in E. cbv zeta in E. rewrite HT in E.
      destruct (handler_sigma brentq f _) as [sigma | e];
        cbn [bind] in E; [| discriminate E].
      rewrite HK, price_option_zero_strike in E by apply model_type_valid.
      discriminate E. }
    destruct (valid_option_type_cases (form_option_type f)) as [Ho | Ho].
    + split; [exact Ho |].
      destruct (on_calculate_live brentq today f positions Hlive Ho HK)
        as [(e & _ & H) | (sigma & delta & gamma & vega & theta & rho & Hs & H)];
        rewrite H in E; [discriminate E |].
      injection E as <-. exists sigma. eexists.
      split; [exact Hs |]. split; [reflexivity |].
      repeat split.
    + exfalso.
      destruct (expiry_positive today f Hlive) as [HT _].
      unfold on_calculate in E. cbv zeta in E. rewrite HT in E.
      destruct (handler_sigma brentq f _) as [sigma | e];
        cbn [bind] in E; [| discriminate E].
      rewrite price_option_invalid in E
        by solve [apply model_type_valid | exact Ho | exact HK].
      discriminate E.
Qed.

End HandlerReturns.

(** X20: a contract that expires today or earlier is rejected: the handler
    stores nothing and raises nothing, whatever the other fields are. *)
Theorem expired_contract_is_not_stored
  (brentq : (R -> result R) -> R -> R -> result R)
  (today : Z) (f : form) (positions : list dict) :
  (expiry_date f <= today)%Z ->
  on_calculate brentq today f positions = Return positions.
Proof.
  intro Hexp. unfold on_calculate. cbv zeta.
  rewrite (expiry_not_positive today f Hexp). reflexivity.
Qed.

Lemma expired_contract_is_not_stored_witness :
  on_calculate no_convergence 30 (sample_form 1000) [] = Return [].
Proof.
  apply expired_contract_is_not_stored. cbn. lia.
Defined.

(** X21: when the handler returns for a contract that expires after today,
    it has appended exactly one position; the position has the eleven form
    keys followed by the five Greeks, none of them overwritten, its Status
    is Open and its option type was call or put. *)
Theorem stored_position_shape
  (brentq : (R -> result R) -> R -> R -> result R)
  (today : Z) (f : form) (positions positions' : list dict) :
  (today < expiry_date f)%Z ->
  0 < form_S_or_F f -> 0 < form_K f ->
  on_calculate brentq today f positions = Return positions' ->
  valid_option_type (form_option_type f)
  /\ exists p,
       positions' = (positions ++ [p])%list
       /\ map fst p = position_keys
       /\ dict_lookup "Status" p = Some (VStr "Open")
       /\ dict_lookup "Type" p = Some (VStr (form_option_type f)).
Proof.
  intros Hlive _ _ E.
  destruct (on_calculate_returns brentq today f positions positions' E)
    as [[Hexp _] | (_ & Ho & sigma & p & _ & Hp & Hk & Hst & Hty & _)];
    [lia |].
  split; [exact Ho |]. exists p. repeat split; assumption.
Qed.

Lemma sample_form_no_market_price (today : Z) :
  (today < 30)%Z ->
  exists positions',
    on_calculate exact_root today (sample_form 0) [] = Return positions'.
Proof.
  intro Hlive.
  destruct (on_calculate_live exact_root today (sample_form 0) [] Hlive
              (or_introl eq_refl) ltac:(cbn; lra))
    as [(e & He & _) | (sigma & d & g & v & t & r & _ & H)].
  - unfold handler_sigma, use_iv, Rlt_bool in He. cbn in He.
    destruct (Rlt_dec 0 0) as [H0 | _]; [lra | discriminate He].
  - eexists. exact H.
Qed.

Lemma stored_position_shape_witness :
  exists positions',
    on_calculate exact_root 0 (sample_form 0) [] = Return positions'
    /\ valid_option_type "call"
    /\ exists p,
         positions' = ([] ++ [p])%list
         /\ map fst p = position_keys
         /\ dict_lookup "Status" p = Some (VStr "Open")
         /\ dict_lookup "Type" p = Some (VStr "call").
Proof.
  destruct (sample_form_no_market_price 0 ltac:(lia)) as [positions' H].
  exists positions'. split; [exact H |].
  apply (stored_position_shape exact_root 0 (sample_form 0) [] positions');
    solve [cbn; lia | cbn; lra | exact H].
Defined.

(** X22: with an option type from the form's list (call or put) the handler
    never raises a ValueError, whatever the instrument text and the root
    finder are: the model it passes on is always spot or futures. *)
Theorem handler_never_value_error
  (brentq : (R -> result R) -> R -> R -> result R)
  (today : Z) (f : form) (positions : list dict) :
  valid_option_type (form_option_type f) ->
  0 < form_S_or_F f -> 0 < form_K f ->
  valid_model (model_type f)
  /\ ~ is_ValueError (on_calculate brentq today f positions).
Proof.
  intros Ho _ HK. split; [apply model_type_valid |].
  intros [msg E].
  destruct (Z_le_gt_dec (expiry_date f) today) as [Hexp | Hlive].
  - unfold on_calculate in E. cbv zeta in E.
    rewrite (expiry_not_positive today f Hexp) in E. discriminate E.
  - apply Z.gt_lt in Hlive.
    destruct (on_calculate_live brentq today f positions Hlive Ho
                (Rgt_not_eq _ _ HK))
      as [(e & He & H) | (sigma & d & g & v & t & r & _ & H)];
      rewrite H in E; [| discriminate E].
    injection E as ->.
    apply (handler_sigma_no_value_error brentq today f).
    exists msg. exact He.
Qed.

Lemma handler_never_value_error_witness :
  valid_model (model_type (sample_form 1000))
  /\ ~ is_ValueError (on_calculate no_convergence 0 (sample_form 1000) []).
Proof.
  apply handler_never_value_error; solve [cbn; lra | left; reflexivity].
Defined.

(** An at-the-money spot call at a zero rate is worth at most
    [S sigma sqrt(T) / 2]. *)
Lemma atm_call_upper (S T sigma : R) :
  0 < S -> 0 < T -> 0 < sigma ->
  ClosedForm.call_spot S S T 0 sigma <= S * (0.5 * sigma * sqrt T).
Proof.
  intros HS HT Hs. pose proof (sqrt_T_pos T HT) as HsT.
  pose proof (sqrt_T_sqr T HT) as HTT.
  assert (H1 : ClosedForm.d1_spot S S T 0 sigma = 0.5 * sigma * sqrt T).
  { unfold ClosedForm.d1_spot.
    replace (S / S) with 1 by (field; lra). rewrite ln_1.
    apply (Rmult_eq_reg_r (sigma * sqrt T)); [| nra].
    unfold Rdiv. rewrite Rmult_assoc, Rinv_l by nra.
    replace (0.5 * sigma * sqrt T * (sigma * sqrt T))
      with (0.5 * sigma ^ 2 * (sqrt T * sqrt T)) by ring.
    rewrite HTT. ring. }
  assert (H2 : ClosedForm.d2_spot S S T 0 sigma = - (0.5 * sigma * sqrt T)).
  { unfold ClosedForm.d2_spot. rewrite H1. lra. }
  unfold ClosedForm.call_spot. rewrite H1, H2.
  replace (- (0 * T)) with 0 by ring. rewrite exp_0.
  set (d := 0.5 * sigma * sqrt T) in *.
  assert (Hd : 0 < d) by (unfold d; nra).
  pose proof (norm_cdf_diff_upper (- d) d ltac:(lra)) as Hup.
  nra.
Qed.

Lemma sample_form_overpriced (today : Z) :
  (0 <= today < 30)%Z ->
  get_implied_volatility exact_root "spot" 1000 100 100
    (IZR (30 - today) / 365) 0 "call" = Return None.
Proof.
  intro Ht.
  assert (H1 : 1 <= IZR (30 - today)) by (apply IZR_le; lia).
  assert (H2 : IZR (30 - today) <= 30) by (apply IZR_le; lia).
  set (T := IZR (30 - today) / 365).
  assert (HT : 0 < T < 1) by (unfold T; lra).
  assert (HsT : sqrt T <= 1).
  { rewrite <- sqrt_1. apply sqrt_le_1_alt. lra. }
  rewrite get_implied_volatility_valid by solve [left; reflexivity | lra].
  change (ClosedForm.price "spot" 100 100 T 0 3.0 "call")
    with (ClosedForm.call_spot 100 100 T 0 3.0).
  pose proof (atm_call_upper 100 T 3.0 ltac:(lra) ltac:(lra) ltac:(lra)) as Hup.
  rewrite (Rle_bool_false 1000 (ClosedForm.call_spot 100 100 T 0 3.0))
    by nra.
  rewrite andb_false_r. reflexivity.
Qed.

(** X23: when a market price is given and the solver finds no volatility,
    the handler prices with the default volatility 0.2: the stored Model
    Price is the price at sigma = 0.2 rounded to 2 decimals, and the stored
    PnL is that price minus the entry price, rounded to 2 decimals. *)
Theorem handler_default_volatility
  (brentq : (R -> result R) -> R -> R -> result R)
  (today : Z) (f : form) (positions : list dict) :
  (today < expiry_date f)%Z ->
  valid_option_type (form_option_type f) ->
  0 < form_S_or_F f -> 0 < form_K f ->
  0 < form_market_price f ->
  get_implied_volatility brentq (model_type f) (form_market_price f)
    (form_S_or_F f) (form_K f) (IZR (expiry_date f - today) / 365)
    (form_r f) (form_option_type f) = Return None ->
  exists price p,
    price_option (model_type f) (form_S_or_F f) (form_K f)
      (IZR (expiry_date f - today) / 365) (form_r f) 0.2
      (form_option_type f) = Return price
    /\ on_calculate brentq today f positions
       = Return (positions ++ [p])%list
    /\ dict_lookup "Model Price" p = Some (VNum (round price 2))
    /\ dict_lookup "PnL" p
       = Some (VNum (round (price - entry_price f) 2)).
Proof.
  intros Hlive Ho _ HK Hmp Hiv.
  assert (Hs : handler_sigma brentq f (IZR (expiry_date f - today) / 365)
               = Return 0.2).
  { unfold handler_sigma, use_iv, Rlt_bool.
    destruct (Rlt_dec 0 (form_market_price f)); [| contradiction].
    rewrite Hiv. reflexivity. }
  destruct (on_calculate_live brentq today f positions Hlive Ho
              (Rgt_not_eq _ _ HK))
    as [(e & He & _) | (sigma & d & g & v & t & r & Hs' & H)].
  - rewrite Hs in He. discriminate He.
  - rewrite Hs in Hs'. injection Hs' as <-.
    eexists. eexists.
    split; [apply price_option_valid;
            [apply model_type_valid | exact Ho | nonzero] |].
    split; [exact H |]. split; reflexivity.
Qed.

Lemma handler_default_volatility_witness :
  exists price p,
    price_option "spot" 100 100 (IZR (30 - 0) / 365) 0 0.2 "call"
    = Return price
    /\ on_calculate exact_root 0 (sample_form 1000) []
       = Return ([] ++ [p])%list
    /\ dict_lookup "Model Price" p = Some (VNum (round price 2))
    /\ dict_lookup "PnL" p = Some (VNum (round (price - 10) 2)).
Proof.
  apply (handler_default_volatility exact_root 0 (sample_form 1000) []);
    solve [cbn; lia | cbn; lra | left; reflexivity
          | exact (sample_form_overpriced 0 ltac:(lia))].
Defined.

(** X24: the handler keeps the stored positions all Open: if every stored
    position has Status Open before a press of Calculate, every one has it
    after; the handler never stores a Closed position. *)
Theorem stored_positions_stay_open
  (brentq : (R -> result R) -> R -> R -> result R)
  (today : Z) (f : form) (positions positions' : list dict) :
  0 < form_S_or_F f -> 0 < form_K f ->
  Forall status_open positions ->
  on_calculate brentq today f positions = Return positions' ->
  Forall status_open positions'.
Proof.
  intros _ _ Hall E.
  destruct (on_calculate_returns brentq today f positions positions' E)
    as [[_ ->] | (_ & _ & sigma & p & _ & -> & _ & Hst & _)];
    [exact Hall |].
  apply Forall_app. split; [exact Hall |]. constructor; [exact Hst | constructor].
Qed.

Lemma stored_positions_stay_open_witness :
  exists positions',
    on_calculate exact_root 0 (sample_form 0) [] = Return positions'
    /\ Forall status_open positions'.
Proof.
  destruct (sample_form_no_market_price 0 ltac:(lia)) as [positions' H].
  exists positions'. split; [exact H |].
  apply (stored_positions_stay_open exact_root 0 (sample_form 0) []
           positions'); solve [cbn; lra | constructor | exact H].
Defined.

(** ** The distribution function lies strictly between 0 and 1 *)

(** Fundamental theorem of calculus for a function with a continuous
    derivative everywhere. *)
Lemma RiemannInt_primitive (G f : R -> R) (a b : R)
  (pr : Riemann_integrable f a b) :
  a <= b ->
  (forall y, derivable_pt_lim G y (f y)) ->
  (forall y, continuity_pt f y) ->
  RiemannInt pr = G b - G a.
Proof.
  intros Hab HG Hf.
  destruct Hab as [Hlt | Heq].
  - assert (Hle : a <= b) by lra.
    assert (C0 : forall y, a <= y <= b -> continuity_pt f y) by (intros; apply Hf).
    set (P := primitive Hle (FTC_P1 Hle C0)).
    destruct (MVT_cor2 (G - P)%F (fct_cte 0) a b Hlt) as [c [Hc _]].
    + intros y Hy. unfold fct_cte.
      replace 0 with (f y - f y) by ring.
      apply derivable_pt_lim_minus; [apply HG | apply RiemannInt_P28, Hy].
    + unfold minus_fct, fct_cte in Hc.
      assert (Pa : P a = 0).
      { unfold P, primitive.
        destruct (Rle_dec a a) as [H1 | H1]; [| lra].
        destruct (Rle_dec a b) as [H2 | H2]; [| lra].
        apply RiemannInt_P9. }
      assert (Pb : P b = RiemannInt pr).
      { unfold P, primitive.
        destruct (Rle_dec a b) as [H1 | H1]; [| lra].
        destruct (Rle_dec b b) as [H2 | H2]; [| lra].
        apply RiemannInt_P5. }
      lra.
  - subst b. rewrite RiemannInt_P9. ring.
Qed.

Lemma gauss_pos (x : R) : 0 < gauss x.
Proof. apply exp_pos. Qed.

Lemma gauss_le_1 (x : R) : gauss x <= 1.
Proof.
  unfold gauss. rewrite <- exp_0.
  destruct (Req_dec (x ^ 2) 0) as [E | E].
  - rewrite E. replace (- 0 / 2) with 0 by field. lra.
  - left. apply exp_increasing. pose proof (pow2_ge_0 x). lra.
Qed.

Lemma Psi_derivable (x : R) : derivable_pt_lim Psi x (gauss x).
Proof.
  pose proof sqrt_2PI_pos as Hs.
  apply (derivable_pt_lim_eq
           (mult_real_fct (sqrt (2 * PI)) (norm_cdf - fct_cte (1 / 2))%F)
           Psi x (sqrt (2 * PI) * (norm_pdf x - 0))).
  - apply derivable_pt_lim_scal, derivable_pt_lim_minus;
      [apply norm_cdf_derivable | apply derivable_pt_lim_const].
  - intro y; reflexivity.
  - unfold norm_pdf, gauss. field. lra.
Qed.

Lemma Psi_0 : Psi 0 = 0.
Proof. unfold Psi. rewrite norm_cdf_0. ring. Qed.

Lemma exp_arg_derivable (c x : R) :
  derivable_pt_lim (fun y => - (y ^ 2 * c) / 2) x (- x * c).
Proof.
  apply (derivable_pt_lim_eq (fun y => (fun z => z ^ 2) y * (- c / 2))
           (fun y => - (y ^ 2 * c) / 2) x
           (INR 2 * x ^ Nat.pred 2 * (- c / 2))).
  - apply derivable_pt_lim_scal_right, derivable_pt_lim_pow.
  - intro y. field.
  - simpl. field.
Qed.

Lemma exp_sq_derivable (c x : R) :
  derivable_pt_lim (fun y => exp (- (y ^ 2 * c) / 2)) x
    (exp (- (x ^ 2 * c) / 2) * (- x * c)).
Proof.
  apply (derivable_pt_lim_comp (fun y => - (y ^ 2 * c) / 2) exp x
           (- x * c) (exp (- (x ^ 2 * c) / 2))).
  - apply exp_arg_derivable.
  - apply derivable_pt_lim_exp.
Qed.

Lemma aux_derivable_x (t x : R) :
  derivable_pt_lim (fun y => aux y t) x (aux_x x t).
Proof.
  pose proof (one_plus_sq_pos t) as Hp.
  apply (derivable_pt_lim_eq
           (fun y => (fun z => exp (- (z ^ 2 * (1 + t ^ 2)) / 2)) y
                     * / (1 + t ^ 2))
           (fun y => aux y t) x
           (exp (- (x ^ 2 * (1 + t ^ 2)) / 2) * (- x * (1 + t ^ 2))
            * / (1 + t ^ 2))).
  - apply derivable_pt_lim_scal_right, exp_sq_derivable.
  - intro y; reflexivity.
  - unfold aux_x. field. lra.
Qed.

Lemma aux_x_derivable_x (t x : R) :
  derivable_pt_lim (fun y => aux_x y t) x (aux_xx x t).
Proof.
  apply (derivable_pt_lim_eq
           ((- id) * (fun z => exp (- (z ^ 2 * (1 + t ^ 2)) / 2)))%F
           (fun y => aux_x y t) x
           (- 1 * exp (- (x ^ 2 * (1 + t ^ 2)) / 2)
            + (- id)%F x
              * (exp (- (x ^ 2 * (1 + t ^ 2)) / 2) * (- x * (1 + t ^ 2))))).
  - apply (derivable_pt_lim_mult (- id)%F
             (fun z => exp (- (z ^ 2 * (1 + t ^ 2)) / 2)) x (- 1)
             (exp (- (x ^ 2 * (1 + t ^ 2)) / 2) * (- x * (1 + t ^ 2)))).
    + apply derivable_pt_lim_opp, derivable_pt_lim_id.
    + apply exp_sq_derivable.
  - intro y; reflexivity.
  - unfold aux_xx, opp_fct, id. ring.
Qed.

Lemma exp_neg_le_1 (y : R) : 0 <= y -> exp (- y / 2) <= 1.
Proof.
  intro Hy. rewrite <- exp_0. destruct Hy as [Hy | <-].
  - left. apply exp_increasing. lra.
  - replace (- 0 / 2) with 0 by field. lra.
Qed.

Lemma aux_xx_bound (x t : R) :
  0 <= t <= 1 -> Rabs (aux_xx x t) <= 2 * x ^ 2 + 1.
Proof.
  intros Ht. unfold aux_xx.
  pose proof (pow2_ge_0 x) as Hx. pose proof (pow2_ge_0 t) as Ht2.
  assert (Ht1 : t ^ 2 <= 1) by nra.
  assert (Hq : 0 <= x ^ 2 * (1 + t ^ 2)) by nra.
  pose proof (exp_neg_le_1 _ Hq) as He.
  pose proof (exp_pos (- (x ^ 2 * (1 + t ^ 2)) / 2)) as Hpos.
  set (e := exp (- (x ^ 2 * (1 + t ^ 2)) / 2)) in *.
  apply Rabs_le. split; nra.
Qed.

Lemma between_dist (a b c : R) :
  Rmin a b <= c <= Rmax a b -> Rabs (c - a) <= Rabs (b - a).
Proof.
  unfold Rmin, Rmax. destruct (Rle_dec a b); intros [H1 H2].
  - rewrite !Rabs_pos_eq by lra. lra.
  - rewrite !Rabs_left1 by lra. lra.
Qed.

Lemma sq_le_abs (y x : R) : Rabs y <= Rabs x + 1 -> y ^ 2 <= (Rabs x + 1) ^ 2.
Proof.
  intro H. pose proof (Rabs_pos y). pose proof (Rabs_pos x).
  replace (y ^ 2) with (Rabs y ^ 2) by (rewrite RPow_abs, Rabs_pos_eq;
    [reflexivity | apply pow2_ge_0]).
  nra.
Qed.

(** Second-order remainder of [aux] in [x], uniformly in [t]. *)
Lemma aux_remainder (x d t : R) :
  0 <= t <= 1 -> Rabs d <= 1 ->
  Rabs (aux (x + d) t - aux x t - d * aux_x x t)
  <= (2 * (Rabs x + 1) ^ 2 + 1) * d ^ 2.
Proof.
  intros Ht Hd.
  set (M := 2 * (Rabs x + 1) ^ 2 + 1).
  set (Rm := fun y => aux y t - aux x t - (y - x) * aux_x x t).
  set (Rm' := fun y => aux_x y t - aux_x x t).
  assert (HR : forall y, derivable_pt_lim Rm y (Rm' y)).
  { intro y.
    apply (derivable_pt_lim_eq
             ((fun z => aux z t) - fct_cte (aux x t)
              - (fun z => ((id - fct_cte x)%F z * aux_x x t)%R))%F
             Rm y (aux_x y t - 0 - (1 - 0) * aux_x x t)).
    - apply derivable_pt_lim_minus; [apply derivable_pt_lim_minus |].
      + apply aux_derivable_x.
      + apply derivable_pt_lim_const.
      + apply derivable_pt_lim_scal_right, derivable_pt_lim_minus;
          [apply derivable_pt_lim_id | apply derivable_pt_lim_const].
    - intro z; reflexivity.
    - unfold Rm'. ring. }
  destruct (MVT_abs Rm Rm' x (x + d)) as [xi [Hxi Bxi]];
    [intros; apply HR |].
  apply between_dist in Bxi.
  replace (x + d - x) with d in * by ring.
  assert (E : Rm (x + d) - Rm x = aux (x + d) t - aux x t - d * aux_x x t)
    by (unfold Rm; ring).
  rewrite E in Hxi. rewrite Hxi.
  destruct (MVT_abs (fun y => aux_x y t) (fun y => aux_xx y t) x xi)
    as [eta [Heta Beta]]; [intros; apply aux_x_derivable_x |].
  apply between_dist in Beta.
  unfold Rm'. rewrite Heta.
  assert (Hxx : Rabs (aux_xx eta t) <= M).
  { apply Rle_trans with (2 * eta ^ 2 + 1); [apply aux_xx_bound, Ht |].
    assert (Rabs eta <= Rabs x + 1).
    { replace eta with (x + (eta - x)) by ring.
      apply Rle_trans with (Rabs x + Rabs (eta - x)); [apply Rabs_triang |].
      lra. }
    pose proof (sq_le_abs eta x H). unfold M. lra. }
  pose proof (Rabs_pos (aux_xx eta t)). pose proof (Rabs_pos (xi - x)).
  pose proof (Rabs_pos d).
  replace (d ^ 2) with (Rabs d * Rabs d)
    by (rewrite <- Rabs_mult, Rabs_pos_eq; [ring | nra]).
  assert (HAB : Rabs (aux_xx eta t) * Rabs (xi - x) <= M * Rabs d)
    by (apply Rmult_le_compat; assumption).
  replace (M * (Rabs d * Rabs d)) with (M * Rabs d * Rabs d) by ring.
  apply Rmult_le_compat_r; assumption.
Qed.

Lemma aux_x_continuous (x : R) : continuity (aux_x x).
Proof. unfold aux_x. reg. Qed.

Lemma aux_x_integrable (x : R) : Riemann_integrable (aux_x x) 0 1.
Proof.
  apply continuity_implies_RiemannInt; [lra |].
  intros; apply aux_x_continuous.
Qed.

Lemma gauss_mult (x t : R) :
  gauss x * gauss (x * t) = exp (- (x ^ 2 * (1 + t ^ 2)) / 2).
Proof.
  unfold gauss. rewrite <- exp_plus. f_equal. field.
Qed.

Lemma aux_x_integral (x : R) :
  RiemannInt (aux_x_integrable x) = - gauss x * Psi x.
Proof.
  rewrite (RiemannInt_primitive (fun t => - gauss x * Psi (x * t)) (aux_x x)
             0 1 (aux_x_integrable x)).
  - rewrite Rmult_0_r, Rmult_1_r, Psi_0. ring.
  - lra.
  - intro t.
    apply (derivable_pt_lim_eq
             (mult_real_fct (- gauss x) (comp Psi (fun s => (id s * x)%R)))
             (fun s => - gauss x * Psi (x * s)) t
             (- gauss x * (gauss (id t * x) * (1 * x)))).
    + apply derivable_pt_lim_scal.
      apply (derivable_pt_lim_comp (fun s => (id s * x)%R) Psi t (1 * x)
               (gauss (id t * x))).
      * apply derivable_pt_lim_scal_right, derivable_pt_lim_id.
      * apply Psi_derivable.
    + intro s. unfold mult_real_fct, comp, id. rewrite (Rmult_comm s x).
      reflexivity.
    + unfold id, aux_x. rewrite <- gauss_mult, (Rmult_comm t x). ring.
  - intro t. apply aux_x_continuous.
Qed.

Lemma J_increment (x d : R) :
  exists pr : Riemann_integrable
                (fun t => aux (x + d) t + - 1 * aux x t + - d * aux_x x t) 0 1,
    RiemannInt pr = J (x + d) - J x - d * (- gauss x * Psi x).
Proof.
  pose (pr1 := RiemannInt_P10 (- 1) (aux_integrable (x + d))
                 (aux_integrable x)).
  pose (pr2 := RiemannInt_P10 (- d) pr1 (aux_x_integrable x)).
  exists pr2.
  rewrite (RiemannInt_P13 pr1 (aux_x_integrable x) pr2).
  rewrite (RiemannInt_P13 (aux_integrable (x + d)) (aux_integrable x) pr1).
  rewrite aux_x_integral. unfold J. ring.
Qed.

Lemma RiemannInt_bound (f : R -> R) (m : R)
  (pr : Riemann_integrable f 0 1) :
  (forall t, 0 <= t <= 1 -> Rabs (f t) <= m) -> Rabs (RiemannInt pr) <= m.
Proof.
  intro Hf.
  pose proof (RiemannInt_P19 pr (RiemannInt_P14 0 1 m) ltac:(lra)) as Hup.
  pose proof (RiemannInt_P19 (RiemannInt_P14 0 1 (- m)) pr ltac:(lra)) as Hlo.
  rewrite RiemannInt_P15 in Hup, Hlo.
  assert (H1 : RiemannInt pr <= m * (1 - 0)).
  { apply Hup. intros t Ht. unfold fct_cte.
    specialize (Hf t ltac:(lra)). apply Rabs_le_bounds in Hf. lra. }
  assert (H2 : - m * (1 - 0) <= RiemannInt pr).
  { apply Hlo. intros t Ht. unfold fct_cte.
    specialize (Hf t ltac:(lra)). apply Rabs_le_bounds in Hf. lra. }
  apply Rabs_le. lra.
Qed.

Lemma J_derivable (x : R) : derivable_pt_lim J x (- gauss x * Psi x).
Proof.
  set (M := 2 * (Rabs x + 1) ^ 2 + 1).
  assert (HM : 1 <= M).
  { unfold M. pose proof (pow2_ge_0 (Rabs x + 1)). lra. }
  intros eps Heps.
  assert (Hdel : 0 < Rmin 1 (eps / M)).
  { apply Rmin_pos; [lra | apply Rdiv_lt_0_compat; lra]. }
  exists (mkposreal _ Hdel). cbn [pos]. intros d Hd0 Hd.
  assert (Hd1 : Rabs d <= 1)
    by (left; apply Rlt_le_trans with (1 := Hd), Rmin_l).
  assert (Hd2 : Rabs d < eps / M)
    by (apply Rlt_le_trans with (1 := Hd), Rmin_r).
  destruct (J_increment x d) as [pr Hpr].
  assert (Hb : Rabs (RiemannInt pr) <= M * d ^ 2).
  { apply RiemannInt_bound. intros t Ht.
    replace (aux (x + d) t + - 1 * aux x t + - d * aux_x x t)
      with (aux (x + d) t - aux x t - d * aux_x x t) by ring.
    apply aux_remainder; assumption. }
  rewrite Hpr in Hb.
  replace ((J (x + d) - J x) / d - - gauss x * Psi x)
    with ((J (x + d) - J x - d * (- gauss x * Psi x)) * / d)
    by (field; exact Hd0).
  rewrite Rabs_mult, Rabs_inv.
  assert (Hdpos : 0 < Rabs d) by (apply Rabs_pos_lt, Hd0).
  apply (Rmult_lt_reg_r (Rabs d)); [exact Hdpos |].
  rewrite Rmult_assoc, Rinv_l, Rmult_1_r by lra.
  apply Rle_lt_trans with (1 := Hb).
  replace (d ^ 2) with (Rabs d * Rabs d)
    by (rewrite <- Rabs_mult, Rabs_pos_eq; [ring | nra]).
  assert (M * Rabs d < eps).
  { apply (Rmult_lt_reg_r (/ M)); [apply Rinv_0_lt_compat; lra |].
    replace (M * Rabs d * / M) with (Rabs d) by (field; lra). exact Hd2. }
  nra.
Qed.

Lemma aux_0 (t : R) : aux 0 t = / (1 + t ^ 2).
Proof.
  unfold aux. replace (- (0 ^ 2 * (1 + t ^ 2)) / 2) with 0 by (simpl; field).
  rewrite exp_0. unfold Rdiv. ring.
Qed.

Lemma J_0 : J 0 = PI / 4.
Proof.
  unfold J.
  rewrite (RiemannInt_primitive atan (aux 0) 0 1 (aux_integrable 0)).
  - rewrite atan_1, atan_0. ring.
  - lra.
  - intro t. rewrite aux_0. apply derivable_pt_lim_atan.
  - intro t. apply aux_continuous.
Qed.

Lemma aux_lower (x t : R) : 0 <= t <= 1 -> exp (- x ^ 2) / 2 <= aux x t.
Proof.
  intro Ht. unfold aux.
  pose proof (pow2_ge_0 x) as Hx. pose proof (pow2_ge_0 t) as Ht2.
  assert (Ht1 : t ^ 2 <= 1) by nra.
  assert (He : exp (- x ^ 2) <= exp (- (x ^ 2 * (1 + t ^ 2)) / 2)).
  { destruct (Req_dec (- x ^ 2) (- (x ^ 2 * (1 + t ^ 2)) / 2)) as [E | E].
    - rewrite E. lra.
    - left. apply exp_increasing. nra. }
  pose proof (exp_pos (- x ^ 2)) as Hp.
  apply Rle_trans with (exp (- x ^ 2) / (1 + t ^ 2)).
  - unfold Rdiv. apply Rmult_le_compat_l; [lra |].
    apply Rinv_le_contravar; lra.
  - unfold Rdiv. apply Rmult_le_compat_r; [| exact He].
    left. apply Rinv_0_lt_compat. lra.
Qed.

Lemma J_pos (x : R) : 0 < J x.
Proof.
  pose proof (RiemannInt_P19 (RiemannInt_P14 0 1 (exp (- x ^ 2) / 2))
                (aux_integrable x) ltac:(lra)) as H.
  rewrite RiemannInt_P15 in H.
  pose proof (exp_pos (- x ^ 2)).
  assert (exp (- x ^ 2) / 2 * (1 - 0) <= J x).
  { apply H. intros t Ht. unfold fct_cte. apply aux_lower. lra. }
  lra.
Qed.

Lemma aux_upper (x t : R) : aux x t <= gauss x * aux 0 t.
Proof.
  rewrite aux_0. unfold aux. rewrite <- gauss_mult.
  pose proof (one_plus_sq_pos t) as Hp.
  pose proof (gauss_le_1 (x * t)). pose proof (gauss_pos x).
  pose proof (gauss_pos (x * t)).
  unfold Rdiv. apply Rmult_le_compat_r; [left; apply Rinv_0_lt_compat, Hp |].
  nra.
Qed.

Lemma J_upper (x : R) : J x <= gauss x * (PI / 4).
Proof.
  pose (pr0 := RiemannInt_P14 0 1 0).
  pose (pr := RiemannInt_P10 (gauss x) pr0 (aux_integrable 0)).
  pose proof (RiemannInt_P19 (aux_integrable x) pr ltac:(lra)) as H.
  rewrite (RiemannInt_P13 pr0 (aux_integrable 0) pr) in H.
  unfold pr0 in H. rewrite RiemannInt_P15 in H.
  fold (J 0) in H. rewrite J_0 in H. fold (J x) in H.
  assert (J x <= 0 * (1 - 0) + gauss x * (PI / 4)).
  { apply H. intros t _. unfold fct_cte. rewrite Rplus_0_l.
    apply aux_upper. }
  lra.
Qed.

(** The square of the area under [gauss] on [0, x], and the auxiliary
    integral, add up to a constant. *)
Lemma Psi_sq (x : R) : Psi x ^ 2 / 2 + J x = PI / 4.
Proof.
  set (W := fun y => Psi y ^ 2 / 2 + J y).
  assert (HW : forall y, derivable_pt_lim W y 0).
  { intro y.
    apply (derivable_pt_lim_eq
             ((fun z => ((Psi * Psi)%F z * / 2)%R) + J)%F W y
             ((gauss y * Psi y + Psi y * gauss y) * / 2
              + - gauss y * Psi y)).
    - apply derivable_pt_lim_plus; [| apply J_derivable].
      apply derivable_pt_lim_scal_right.
      apply derivable_pt_lim_mult; apply Psi_derivable.
    - intro z. unfold W, plus_fct, mult_fct. field.
    - field. }
  assert (pr : derivable W) by (intro y; exists 0; apply HW).
  assert (Hc : constant W).
  { apply (null_derivative_1 W pr). intro y.
    apply (uniqueness_limite W y); [| apply HW].
    destruct (pr y) as [l Hl]; exact Hl. }
  specialize (Hc x 0). unfold W in Hc.
  rewrite Psi_0, J_0 in Hc. rewrite Hc. simpl. field.
Qed.

Lemma sqrt_2PI_sqr : sqrt (2 * PI) * sqrt (2 * PI) = 2 * PI.
Proof. apply sqrt_sqrt. pose proof PI_RGT_0. lra. Qed.

(** The distribution function takes its values strictly between 0 and 1. *)
Lemma norm_cdf_lt_1 (x : R) : norm_cdf x < 1.
Proof.
  pose proof (Psi_sq x) as H. pose proof (J_pos x) as HJ.
  pose proof sqrt_2PI_pos as Hs. pose proof sqrt_2PI_sqr as Hss.
  pose proof PI_RGT_0 as Hpi.
  destruct (Rlt_dec (norm_cdf x) 1) as [Hlt | Hge]; [exact Hlt | exfalso].
  unfold Psi in H.
  set (s := sqrt (2 * PI)) in *. set (p := norm_cdf x - 1 / 2) in *.
  assert (Hp : 1 / 2 <= p) by (unfold p; lra).
  assert (Hpp : 1 / 4 <= p * p) by nra.
  assert (Hsp : (s * p) ^ 2 = s * s * (p * p)) by ring.
  rewrite Hsp, Hss in H.
  assert (2 * PI * (1 / 4) <= 2 * PI * (p * p))
    by (apply Rmult_le_compat_l; lra).
  lra.
Qed.

Lemma norm_cdf_pos (x : R) : 0 < norm_cdf x.
Proof.
  pose proof (norm_cdf_lt_1 (- x)) as H. rewrite norm_cdf_opp in H. lra.
Qed.

(** Gaussian tail: [1 - Phi(x) <= exp(-x^2/2) / 2] for [x >= 0]. *)
Lemma norm_cdf_tail (x : R) : 0 <= x -> norm_cdf (- x) <= gauss x / 2.
Proof.
  intro Hx. rewrite norm_cdf_opp.
  pose proof (Psi_sq x) as H. pose proof (J_upper x) as HJ.
  pose proof sqrt_2PI_pos as Hs. pose proof sqrt_2PI_sqr as Hss.
  pose proof (gauss_pos x) as Hg. pose proof PI_RGT_0 as Hpi.
  assert (Hhalf : 1 / 2 <= norm_cdf x).
  { destruct Hx as [Hx | <-]; [| rewrite norm_cdf_0; lra].
    pose proof (norm_cdf_increasing 0 x Hx). rewrite norm_cdf_0 in *. lra. }
  unfold Psi in H.
  set (s := sqrt (2 * PI)) in *. set (p := norm_cdf x - 1 / 2) in *.
  assert (Hp : 0 <= p) by (unfold p; lra).
  replace (1 - norm_cdf x) with (1 / 2 - p) by (unfold p; lra).
  (* (1/2 - p)(1/2 + p) s^2 = s^2/4 - (s p)^2 = 2 J *)
  assert (Hsp : (s * p) ^ 2 = s * s * (p * p)) by ring.
  rewrite Hsp, Hss in H.
  assert (E : (1 / 2 - p) * (1 / 2 + p) * (2 * PI) = 2 * J x).
  { replace ((1 / 2 - p) * (1 / 2 + p) * (2 * PI))
      with (PI / 2 - 2 * PI * (p * p)) by field.
    lra. }
  assert (Hq : (1 / 2 - p) * (1 / 2 + p) * (2 * PI) <= gauss x * (PI / 2))
    by lra.
  assert (Hle : 0 <= 1 / 2 - p).
  { pose proof (norm_cdf_lt_1 x). unfold p. lra. }
  assert (Hq2 : (1 / 2 - p) * (1 / 2) * (2 * PI) <= gauss x * (PI / 2)).
  { apply Rle_trans with (2 := Hq).
    apply Rmult_le_compat_r; [lra |]. apply Rmult_le_compat_l; lra. }
  apply (Rmult_le_reg_r PI); [exact Hpi |]. lra.
Qed.

(** *** The Mills ratio *)

Lemma mills_gap_derivable (y : R) :
  derivable_pt_lim mills_gap y (- norm_cdf (- y)).
Proof.
  apply (derivable_pt_lim_eq
           (norm_pdf - (id * comp norm_cdf (- id)))%F mills_gap y
           (- y * norm_pdf y
            - (1 * comp norm_cdf (- id)%F y
               + id y * (norm_pdf ((- id)%F y) * - 1)))).
  - apply derivable_pt_lim_minus; [apply norm_pdf_derivable |].
    apply (derivable_pt_lim_mult id (comp norm_cdf (- id)%F) y 1
             (norm_pdf ((- id)%F y) * - 1)).
    + apply derivable_pt_lim_id.
    + apply (derivable_pt_lim_comp (- id)%F norm_cdf y (- 1)
               (norm_pdf ((- id)%F y))).
      * apply derivable_pt_lim_opp, derivable_pt_lim_id.
      * apply norm_cdf_derivable.
  - intro z; reflexivity.
  - unfold comp, opp_fct, id. rewrite norm_pdf_even. ring.
Qed.

Lemma mills_gap_decreasing (y z : R) : y < z -> mills_gap z < mills_gap y.
Proof.
  intro Hyz.
  destruct (MVT_cor2 mills_gap (fun w => - norm_cdf (- w)) y z Hyz)
    as [c [Hc _]].
  - intros; apply mills_gap_derivable.
  - cbv beta in Hc. pose proof (norm_cdf_pos (- c)). nra.
Qed.

Lemma gauss_decay (z : R) : 0 < z -> z * gauss z <= 2 / z.
Proof.
  intro Hz. unfold gauss.
  pose proof (exp_ineq1_le (z ^ 2 / 2)) as H1.
  pose proof (exp_pos (z ^ 2 / 2)) as Hp.
  assert (E : exp (- z ^ 2 / 2) = / exp (z ^ 2 / 2)).
  { rewrite <- exp_Ropp. f_equal. field. }
  rewrite E.
  assert (Hsq : 0 < z ^ 2) by (apply pow_lt; exact Hz).
  apply (Rmult_le_reg_r (exp (z ^ 2 / 2))); [exact Hp |].
  rewrite Rmult_assoc, Rinv_l by lra. rewrite Rmult_1_r.
  apply (Rmult_le_reg_r z); [exact Hz |].
  replace (2 / z * exp (z ^ 2 / 2) * z) with (2 * exp (z ^ 2 / 2))
    by (field; lra).
  nra.
Qed.

Lemma mills_gap_lower (z : R) : 0 < z -> - / z <= mills_gap z.
Proof.
  intro Hz. unfold mills_gap.
  pose proof (norm_pdf_pos z) as Hphi.
  pose proof (norm_cdf_tail z ltac:(lra)) as Ht.
  pose proof (gauss_decay z Hz) as Hd.
  assert (z * norm_cdf (- z) <= z * (gauss z / 2))
    by (apply Rmult_le_compat_l; lra).
  assert (z * (gauss z / 2) <= / z).
  { replace (z * (gauss z / 2)) with (z * gauss z / 2) by field.
    replace (/ z) with (2 / z / 2) by (field; lra). lra. }
  lra.
Qed.

Lemma mills_gap_pos (y : R) : 0 < mills_gap y.
Proof.
  assert (Hnn : forall w, 0 <= mills_gap w).
  { intro w. destruct (Rle_dec 0 (mills_gap w)) as [H | H]; [exact H |].
    exfalso. apply Rnot_le_lt in H.
    set (z := Rmax (w + 1) (- / mills_gap w + 1)).
    assert (Hz1 : w < z) by (unfold z; pose proof (Rmax_l (w + 1) (- / mills_gap w + 1)); lra).
    assert (Hz2 : - / mills_gap w < z)
      by (unfold z; pose proof (Rmax_r (w + 1) (- / mills_gap w + 1)); lra).
    assert (Hinv : 0 < - / mills_gap w).
    { rewrite <- Rinv_opp. apply Rinv_0_lt_compat. lra. }
    assert (Hz : 0 < z) by lra.
    pose proof (mills_gap_decreasing w z Hz1) as Hdec.
    pose proof (mills_gap_lower z Hz) as Hlow.
    (* / z < - mills_gap w, since z > - / mills_gap w > 0 *)
    assert (Hz3 : / z < - mills_gap w).
    { replace (- mills_gap w) with (/ (- / mills_gap w))
        by (rewrite <- Rinv_opp, Rinv_inv; reflexivity).
      apply Rinv_lt_contravar; [nra | exact Hz2]. }
    lra. }
  pose proof (mills_gap_decreasing y (y + 1) ltac:(lra)).
  pose proof (Hnn (y + 1)). lra.
Qed.

Lemma mills_derivable (x : R) :
  derivable_pt_lim mills x (mills_gap (- x) / norm_pdf x).
Proof.
  pose proof (norm_pdf_pos x) as Hp.
  apply (derivable_pt_lim_eq (norm_cdf / norm_pdf)%F mills x
           ((norm_pdf x * norm_pdf x - - x * norm_pdf x * norm_cdf x)
            / Rsqr (norm_pdf x))).
  - apply derivable_pt_lim_div;
      [apply norm_cdf_derivable | apply norm_pdf_derivable | lra].
  - intro y; reflexivity.
  - unfold mills_gap, Rsqr. rewrite norm_pdf_even, Ropp_involutive.
    field. lra.
Qed.

Lemma mills_increasing (x y : R) : x < y -> mills x < mills y.
Proof.
  intro Hxy.
  destruct (MVT_cor2 mills (fun w => mills_gap (- w) / norm_pdf w) x y Hxy)
    as [c [Hc _]].
  - intros; apply mills_derivable.
  - cbv beta in Hc.
    assert (0 < mills_gap (- c) / norm_pdf c)
      by (apply Rdiv_lt_0_compat; [apply mills_gap_pos | apply norm_pdf_pos]).
    nra.
Qed.

(** If [A phi(a) = B phi(b)] with [B > 0] and [b < a], then
    [A Phi(a) > B Phi(b)]. *)
Lemma balanced_call_pos (A B a b : R) :
  0 < B -> b < a -> A * norm_pdf a = B * norm_pdf b ->
  0 < A * norm_cdf a - B * norm_cdf b.
Proof.
  intros HB Hba Hid.
  pose proof (norm_pdf_pos a) as Ha. pose proof (norm_pdf_pos b) as Hb.
  pose proof (mills_increasing b a Hba) as Hm. unfold mills in Hm.
  assert (E : A * norm_cdf a - B * norm_cdf b
              = B * norm_pdf b
                * (norm_cdf a / norm_pdf a - norm_cdf b / norm_pdf b)).
  { replace (B * norm_pdf b
             * (norm_cdf a / norm_pdf a - norm_cdf b / norm_pdf b))
      with (B * norm_pdf b * norm_cdf a / norm_pdf a - B * norm_cdf b)
      by (field; lra).
    rewrite <- Hid. field. lra. }
  rewrite E. apply Rmult_lt_0_compat; [apply Rmult_lt_0_compat |]; lra.
Qed.

(** *** Bounds on prices and on Delta *)

Section PriceBounds.

Variables S K T r sigma : R.
Hypothesis S_pos : 0 < S.
Hypothesis K_pos : 0 < K.
Hypothesis T_pos : 0 < T.
Hypothesis sigma_pos : 0 < sigma.

Let d1 := ClosedForm.d1_spot S K T r sigma.
Let d2 := ClosedForm.d2_spot S K T r sigma.

Lemma d2_lt_d1 : d2 < d1.
Proof using S_pos K_pos T_pos sigma_pos.
  unfold d2, ClosedForm.d2_spot. fold d1.
  pose proof (vol_sqrt_T_pos T sigma T_pos sigma_pos). lra.
Qed.

Lemma discounted_strike_pos : 0 < K * exp (- (r * T)).
Proof using S_pos K_pos T_pos sigma_pos.
  apply Rmult_lt_0_compat; [exact K_pos | apply exp_pos].
Qed.

Lemma call_spot_pos : 0 < ClosedForm.call_spot S K T r sigma.
Proof using S_pos K_pos T_pos sigma_pos.
  unfold ClosedForm.call_spot. fold d1 d2.
  apply balanced_call_pos.
  - exact discounted_strike_pos.
  - exact d2_lt_d1.
  - exact (pdf_d1_d2 S K T r S_pos K_pos T_pos sigma sigma_pos).
Qed.

Lemma put_spot_pos : 0 < ClosedForm.put_spot S K T r sigma.
Proof using S_pos K_pos T_pos sigma_pos.
  unfold ClosedForm.put_spot. fold d1 d2.
  apply balanced_call_pos.
  - exact S_pos.
  - pose proof d2_lt_d1. lra.
  - rewrite !norm_pdf_even. symmetry.
    exact (pdf_d1_d2 S K T r S_pos K_pos T_pos sigma sigma_pos).
Qed.

Lemma call_spot_lt_S : ClosedForm.call_spot S K T r sigma < S.
Proof using S_pos K_pos T_pos sigma_pos.
  unfold ClosedForm.call_spot. fold d1 d2.
  pose proof (norm_cdf_lt_1 d1). pose proof (norm_cdf_pos d2).
  pose proof discounted_strike_pos.
  assert (0 < K * exp (- (r * T)) * norm_cdf d2)
    by (apply Rmult_lt_0_compat; assumption).
  nra.
Qed.

Lemma put_spot_lt_K : ClosedForm.put_spot S K T r sigma < K * exp (- (r * T)).
Proof using S_pos K_pos T_pos sigma_pos.
  unfold ClosedForm.put_spot. fold d1 d2.
  pose proof (norm_cdf_lt_1 (- d2)). pose proof (norm_cdf_pos (- d1)).
  pose proof discounted_strike_pos.
  assert (0 < S * norm_cdf (- d1)) by (apply Rmult_lt_0_compat; assumption).
  nra.
Qed.

End PriceBounds.

(** The discounted underlying and strike that bound the price. *)
Lemma price_bounds_closed_form
  (model option_type : string) (S_or_F K T r sigma : R) :
  valid_model model -> valid_option_type option_type ->
  0 < S_or_F -> 0 < K -> 0 < T -> 0 < sigma ->
  let fwd := if model =? "spot" then S_or_F
             else exp (- (r * T)) * S_or_F in
  let strike := K * exp (- (r * T)) in
  let p := ClosedForm.price model S_or_F K T r sigma option_type in
  0 < p
  /\ (option_type = "call" -> fwd - strike < p < fwd)
  /\ (option_type = "put" -> strike - fwd < p < strike).
Proof.
  intros Hm Ho HS HK HT Hs. cbv zeta.
  pose proof (call_spot_pos S_or_F K T r sigma HS HK HT Hs) as Hc.
  pose proof (put_spot_pos S_or_F K T r sigma HS HK HT Hs) as Hp.
  pose proof (call_spot_lt_S S_or_F K T r sigma HS HK HT Hs) as Hcu.
  pose proof (put_spot_lt_K S_or_F K T r sigma HS HK HT Hs) as Hpu.
  pose proof (parity_spot S_or_F K T r sigma) as Hpar.
  pose proof (call_spot_pos S_or_F K T 0 sigma HS HK HT Hs) as Hc0.
  pose proof (put_spot_pos S_or_F K T 0 sigma HS HK HT Hs) as Hp0.
  pose proof (call_spot_lt_S S_or_F K T 0 sigma HS HK HT Hs) as Hcu0.
  pose proof (put_spot_lt_K S_or_F K T 0 sigma HS HK HT Hs) as Hpu0.
  pose proof (parity_spot S_or_F K T 0 sigma) as Hpar0.
  replace (- (0 * T)) with 0 in * by ring. rewrite exp_0 in *.
  pose proof (df_pos T r) as Hdf. unfold ClosedForm.df in Hdf.
  destruct Hm as [-> | ->], Ho as [-> | ->].
  - change (ClosedForm.price "spot" S_or_F K T r sigma "call")
      with (ClosedForm.call_spot S_or_F K T r sigma).
    change ("spot" =? "spot") with true. cbv iota.
    split; [lra |]. split; intro E; [split; lra | discriminate E].
  - change (ClosedForm.price "spot" S_or_F K T r sigma "put")
      with (ClosedForm.put_spot S_or_F K T r sigma).
    change ("spot" =? "spot") with true. cbv iota.
    split; [lra |]. split; intro E; [discriminate E | split; lra].
  - change (ClosedForm.price "futures" S_or_F K T r sigma "call")
      with (ClosedForm.call_futures S_or_F K T r sigma).
    change ("futures" =? "spot") with false. cbv iota.
    rewrite call_futures_spot. unfold ClosedForm.df.
    set (D := exp (- (r * T))) in *.
    set (c := ClosedForm.call_spot S_or_F K T 0 sigma) in *.
    split; [nra |]. split; intro E; [split; nra | discriminate E].
  - change (ClosedForm.price "futures" S_or_F K T r sigma "put")
      with (ClosedForm.put_futures S_or_F K T r sigma).
    change ("futures" =? "spot") with false. cbv iota.
    rewrite put_futures_spot. unfold ClosedForm.df.
    set (D := exp (- (r * T))) in *.
    set (c := ClosedForm.put_spot S_or_F K T 0 sigma) in *.
    split; [nra |]. split; intro E; [discriminate E | split; nra].
Qed.

Lemma round_4_0 : round 0 4 = 0.
Proof.
  pose proof (round_decimal 0 4) as E.
  replace (0 / 10 ^ 4) with 0 in E by (simpl; lra). exact E.
Qed.

Lemma round_4_1 : round 1 4 = 1.
Proof.
  pose proof (round_decimal 10000 4) as E.
  replace (10000 / 10 ^ 4) with 1 in E by (simpl; lra). exact E.
Qed.

Lemma round_4_unit (x : R) : 0 <= x <= 1 -> 0 <= round x 4 <= 1.
Proof.
  intros [H0 H1]. split.
  - rewrite <- round_4_0. apply round_monotone, H0.
  - rewrite <- round_4_1. apply round_monotone, H1.
Qed.

Lemma round_4_neg_unit (x : R) : - 1 <= x <= 0 -> - 1 <= round x 4 <= 0.
Proof.
  intros [H0 H1].
  pose proof (round_4_unit (x + 1) ltac:(lra)) as H.
  pose proof (round_4_minus_1 (x + 1)) as E.
  replace (x + 1 - 1) with x in E by ring. lra.
Qed.

(** X25: on a valid input the price is never negative and never above its
    cap: a call is worth at most the underlying (discounted in the futures
    model), a put at most the discounted strike. *)
Theorem price_within_bounds
  (model option_type : string) (S_or_F K T r sigma : R) :
  valid_model model -> valid_option_type option_type ->
  0 < S_or_F -> 0 < K -> 0 < T -> 0 < sigma ->
  exists p,
    price_option model S_or_F K T r sigma option_type = Return p
    /\ 0 <= p
    /\ (option_type = "call" ->
        p <= (if model =? "spot" then S_or_F
              else exp (- (r * T)) * S_or_F))
    /\ (option_type = "put" -> p <= K * exp (- (r * T))).
Proof.
  intros Hm Ho HS HK HT Hs.
  exists (ClosedForm.price model S_or_F K T r sigma option_type).
  split; [apply price_option_valid; nonzero |].
  destruct (price_bounds_closed_form model option_type S_or_F K T r sigma
              Hm Ho HS HK HT Hs) as (Hpos & Hcall & Hput).
  split; [lra |]. split; intro E.
  - destruct (Hcall E) as [_ H]. lra.
  - destruct (Hput E) as [_ H]. lra.
Qed.

Lemma price_within_bounds_witness :
  exists p,
    price_option "spot" 100 110 0.5 0.03 0.2 "call" = Return p
    /\ 0 <= p
    /\ ("call" = "call" ->
        p <= (if "spot" =? "spot" then 100
              else exp (- (0.03 * 0.5)) * 100))
    /\ ("call" = "put" -> p <= 110 * exp (- (0.03 * 0.5))).
Proof.
  apply price_within_bounds; solve [lra | left; reflexivity].
Defined.

(** X26: on a valid input the reported Delta of a call lies in [0, 1] and
    the reported Delta of a put in [-1, 0]; in the futures model this needs a
    non-negative rate, since Delta carries the discount factor. *)
Theorem delta_within_unit_interval
  (model option_type : string) (S_or_F K T r sigma : R) :
  valid_model model -> valid_option_type option_type ->
  0 < S_or_F -> 0 < K -> 0 < T -> 0 < sigma ->
  (model = "futures" -> 0 <= r) ->
  exists g delta,
    calculate_greeks model S_or_F K T r sigma option_type = Return g
    /\ dict_get "Delta" g = Some delta
    /\ (option_type = "call" -> 0 <= delta <= 1)
    /\ (option_type = "put" -> - 1 <= delta <= 0).
Proof.
  intros Hm Ho HS HK HT Hs Hr.
  destruct Hm as [-> | ->].
  - set (d1 := ClosedForm.d1_spot S_or_F K T r sigma).
    pose proof (norm_cdf_pos d1) as H0. pose proof (norm_cdf_lt_1 d1) as H1.
    eexists. eexists.
    split; [apply calculate_greeks_spot_raw; assumption |].
    split; [reflexivity |]. fold d1.
    destruct Ho as [-> | ->].
    + change ("call" =? "call") with true. cbv iota.
      split; intro E; [apply round_4_unit; lra | discriminate E].
    + change ("put" =? "call") with false. cbv iota.
      split; intro E; [discriminate E | apply round_4_neg_unit; lra].
  - specialize (Hr eq_refl).
    set (d1 := ClosedForm.d1_futures S_or_F K T sigma).
    pose proof (norm_cdf_pos d1) as H0. pose proof (norm_cdf_lt_1 d1) as H1.
    pose proof (norm_cdf_pos (- d1)) as H2.
    pose proof (norm_cdf_lt_1 (- d1)) as H3.
    pose proof (df_pos T r) as Hdf.
    assert (Hdf1 : ClosedForm.df T r <= 1).
    { unfold ClosedForm.df. rewrite <- exp_0.
      destruct (Req_dec (r * T) 0) as [E | E].
      - rewrite E, Ropp_0. lra.
      - left. apply exp_increasing. nra. }
    eexists. eexists.
    split; [apply calculate_greeks_black76_raw; nonzero |].
    split; [reflexivity |]. fold d1.
    set (D := ClosedForm.df T r) in *.
    destruct Ho as [-> | ->].
    + change ("call" =? "call") with true. cbv iota.
      split; intro E; [apply round_4_unit; nra | discriminate E].
    + change ("put" =? "call") with false. cbv iota.
      split; intro E; [discriminate E | apply round_4_neg_unit; nra].
Qed.

Lemma delta_within_unit_interval_witness :
  exists g delta,
    calculate_greeks "futures" 100 110 0.5 0.03 0.2 "put" = Return g
    /\ dict_get "Delta" g = Some delta
    /\ ("put" = "call" -> 0 <= delta <= 1)
    /\ ("put" = "put" -> - 1 <= delta <= 0).
Proof.
  apply delta_within_unit_interval;
    solve [lra | right; reflexivity | intros _; lra].
Defined.

(** X27: a negative market price is always rejected: the
    implied-volatility entry point returns None without running the root
    finder, because the price at sigma = 0.0001 is not negative. *)
Theorem negative_market_price_rejected
  (brentq : (R -> result R) -> R -> R -> result R)
  (model option_type : string) (market_price S_or_F K T r : R) :
  valid_model model -> valid_option_type option_type ->
  0 < S_or_F -> 0 < K -> 0 < T ->
  market_price < 0 ->
  get_implied_volatility brentq model market_price S_or_F K T r option_type
  = Return None.
Proof.
  intros Hm Ho HS HK HT Hmp.
  rewrite get_implied_volatility_valid by nonzero.
  destruct (price_bounds_closed_form model option_type S_or_F K T r 0.0001
              Hm Ho HS HK HT ltac:(lra)) as [Hpos _].
  rewrite Rle_bool_false by lra. reflexivity.
Qed.

Lemma negative_market_price_rejected_witness :
  get_implied_volatility no_convergence "spot" (- 1) 100 110 0.5 0.03 "call"
  = Return None.
Proof.
  apply negative_market_price_rejected;
    solve [lra | left; reflexivity].
Defined.

Lemma call_spot_increasing_S (K T r sigma S1 S2 : R) :
  0 < K -> 0 < T -> 0 < sigma -> 0 < S1 -> S1 < S2 ->
  ClosedForm.call_spot S1 K T r sigma < ClosedForm.call_spot S2 K T r sigma.
Proof.
  intros HK HT Hs H1 H12.
  destruct (MVT_cor2 (fun s => ClosedForm.call_spot s K T r sigma)
              (fun s => norm_cdf (ClosedForm.d1_spot s K T r sigma))
              S1 S2 H12) as [c [Hc _]].
  - intros c Hc. apply call_spot_derivable_S; try assumption. lra.
  - cbv beta in Hc.
    pose proof (norm_cdf_pos (ClosedForm.d1_spot c K T r sigma)). nra.
Qed.

Lemma put_spot_decreasing_S (K T r sigma S1 S2 : R) :
  0 < K -> 0 < T -> 0 < sigma -> 0 < S1 -> S1 < S2 ->
  ClosedForm.put_spot S2 K T r sigma < ClosedForm.put_spot S1 K T r sigma.
Proof.
  intros HK HT Hs H1 H12.
  destruct (MVT_cor2 (fun s => ClosedForm.put_spot s K T r sigma)
              (fun s => norm_cdf (ClosedForm.d1_spot s K T r sigma) - 1)
              S1 S2 H12) as [c [Hc _]].
  - intros c Hc. apply put_spot_derivable_S; try assumption. lra.
  - cbv beta in Hc.
    pose proof (norm_cdf_lt_1 (ClosedForm.d1_spot c K T r sigma)). nra.
Qed.

(** X28: the call price does not decrease and the put price does not
    increase when the underlying rises, for both models. *)
Theorem price_monotone_in_underlying
  (model : string) (S1 S2 K T r sigma : R) :
  valid_model model ->
  0 < S1 -> S1 <= S2 -> 0 < K -> 0 < T -> 0 < sigma ->
  exists c1 c2 p1 p2,
    price_option model S1 K T r sigma "call" = Return c1
    /\ price_option model S2 K T r sigma "call" = Return c2
    /\ price_option model S1 K T r sigma "put" = Return p1
    /\ price_option model S2 K T r sigma "put" = Return p2
    /\ c1 <= c2 /\ p2 <= p1.
Proof.
  intros Hm H1 H12 HK HT Hs.
  exists (ClosedForm.price model S1 K T r sigma "call"),
    (ClosedForm.price model S2 K T r sigma "call"),
    (ClosedForm.price model S1 K T r sigma "put"),
    (ClosedForm.price model S2 K T r sigma "put").
  repeat (split; [apply price_option_valid;
                  solve [nonzero | left; reflexivity | right; reflexivity]
                 |]).
  destruct H12 as [H12 | <-]; [| split; apply Rle_refl].
  destruct Hm as [-> | ->].
  - split; left.
    + apply call_spot_increasing_S; assumption.
    + apply put_spot_decreasing_S; assumption.
  - pose proof (df_pos T r) as Hdf.
    pose proof (call_spot_increasing_S K T 0 sigma S1 S2 HK HT Hs H1 H12).
    pose proof (put_spot_decreasing_S K T 0 sigma S1 S2 HK HT Hs H1 H12).
    change (ClosedForm.price "futures" S1 K T r sigma "call")
      with (ClosedForm.call_futures S1 K T r sigma).
    change (ClosedForm.price "futures" S2 K T r sigma "call")
      with (ClosedForm.call_futures S2 K T r sigma).
    change (ClosedForm.price "futures" S1 K T r sigma "put")
      with (ClosedForm.put_futures S1 K T r sigma).
    change (ClosedForm.price "futures" S2 K T r sigma "put")
      with (ClosedForm.put_futures S2 K T r sigma).
    rewrite !call_futures_spot, !put_futures_spot.
    split; left; apply Rmult_lt_compat_l; assumption.
Qed.

Lemma price_monotone_in_underlying_witness :
  exists c1 c2 p1 p2,
    price_option "futures" 100 110 0.5 0.03 0.2 "call" = Return c1
    /\ price_option "futures" 105 110 0.5 0.03 0.2 "call" = Return c2
    /\ price_option "futures" 100 110 0.5 0.03 0.2 "put" = Return p1
    /\ price_option "futures" 105 110 0.5 0.03 0.2 "put" = Return p2
    /\ c1 <= c2 /\ p2 <= p1.
Proof.
  apply price_monotone_in_underlying; solve [lra | right; reflexivity].
Defined.

Ltac product_pos :=
  repeat match goal with
         | |- 0 < _ * _ => apply Rmult_lt_0_compat
         end; assumption.

Ltac product_nonneg :=
  repeat match goal with
         | |- 0 <= _ * _ => apply Rmult_le_pos
         end; lra.

(** X29: signs of Rho and Theta: on a valid input the reported Rho of a call
    is never negative and that of a put never positive, for both models; with
    a non-negative rate the reported Theta of a call is never positive. *)
Theorem rho_theta_signs
  (model option_type : string) (S_or_F K T r sigma : R) :
  valid_model model -> valid_option_type option_type ->
  0 < S_or_F -> 0 < K -> 0 < T -> 0 < sigma ->
  exists g rho theta,
    calculate_greeks model S_or_F K T r sigma option_type = Return g
    /\ dict_get "Rho" g = Some rho
    /\ dict_get "Theta" g = Some theta
    /\ (option_type = "call" -> 0 <= rho)
    /\ (option_type = "put" -> rho <= 0)
    /\ (option_type = "call" -> 0 <= r -> theta <= 0).
Proof.
  intros Hm Ho HS HK HT Hs.
  pose proof (sqrt_T_pos T HT) as HsT.
  pose proof (exp_pos (- (r * T))) as He.
  assert (Hneg : forall x, x <= 0 -> round x 4 <= 0).
  { intros x Hx. rewrite <- round_4_0. apply round_monotone, Hx. }
  destruct Hm as [-> | ->].
  - set (d1 := ClosedForm.d1_spot S_or_F K T r sigma).
    set (d2 := ClosedForm.d2_spot S_or_F K T r sigma).
    pose proof (norm_cdf_pos d2) as H2. pose proof (norm_cdf_pos (- d2)) as H3.
    pose proof (norm_pdf_pos d1) as Hp.
    eexists. eexists. eexists.
    split; [apply calculate_greeks_spot_raw; assumption |].
    split; [reflexivity |]. split; [reflexivity |]. fold d1 d2.
    set (e := exp (- (r * T))) in *.
    destruct Ho as [-> | ->].
    + change ("call" =? "call") with true. cbv iota.
      split; [| split]; intro E; try discriminate E.
      * apply round_nonneg.
        assert (0 < K * T * e * norm_cdf d2)
          by (product_pos).
        lra.
      * intro Hr. apply Hneg.
        assert (0 < S_or_F * norm_pdf d1 * sigma / (2 * sqrt T)).
        { apply Rdiv_lt_0_compat; [| lra].
          product_pos. }
        assert (0 <= r * K * e * norm_cdf d2).
        { product_nonneg. }
        lra.
    + change ("put" =? "call") with false. cbv iota.
      split; [| split]; intro E; try discriminate E.
      apply Hneg.
      assert (0 < K * T * e * norm_cdf (- d2))
        by (product_pos).
      lra.
  - set (d1 := ClosedForm.d1_futures S_or_F K T sigma).
    set (d2 := ClosedForm.d2_futures S_or_F K T sigma).
    pose proof (norm_cdf_pos d2) as H2. pose proof (norm_cdf_pos (- d2)) as H3.
    pose proof (norm_cdf_pos d1) as H1.
    pose proof (norm_pdf_pos d1) as Hp.
    eexists. eexists. eexists.
    split; [apply calculate_greeks_black76_raw; nonzero |].
    split; [reflexivity |]. split; [reflexivity |]. fold d1 d2.
    unfold ClosedForm.df. set (e := exp (- (r * T))) in *.
    destruct Ho as [-> | ->].
    + change ("call" =? "call") with true. cbv iota.
      split; [| split]; intro E; try discriminate E.
      * apply round_nonneg.
        assert (0 < T * K * e * norm_cdf d2)
          by (product_pos).
        lra.
      * intro Hr. apply Hneg.
        assert (0 < S_or_F * norm_pdf d1 * sigma * e / (2 * sqrt T)).
        { apply Rdiv_lt_0_compat; [| lra].
          product_pos. }
        assert (0 <= r * S_or_F * norm_cdf d1 * e).
        { product_nonneg. }
        lra.
    + change ("put" =? "call") with false. cbv iota.
      split; [| split]; intro E; try discriminate E.
      apply Hneg.
      assert (0 < T * K * e * norm_cdf (- d2))
        by (product_pos).
      lra.
Qed.

Lemma rho_theta_signs_witness :
  exists g rho theta,
    calculate_greeks "spot" 100 110 0.5 0.03 0.2 "call" = Return g
    /\ dict_get "Rho" g = Some rho
    /\ dict_get "Theta" g = Some theta
    /\ ("call" = "call" -> 0 <= rho)
    /\ ("call" = "put" -> rho <= 0)
    /\ ("call" = "call" -> 0 <= 0.03 -> theta <= 0).
Proof.
  apply rho_theta_signs; solve [lra | left; reflexivity].
Defined.

(** *** The implied volatility reproduces the market price *)

Section PriceLipschitz.

Variables (model option_type : string) (S_or_F K T r : R).
Hypothesis model_ok : valid_model model.
Hypothesis option_type_ok : valid_option_type option_type.
Hypothesis S_pos : 0 < S_or_F.
Hypothesis K_pos : 0 < K.
Hypothesis T_pos : 0 < T.

Let price := fun sigma : R =>
  ClosedForm.price model S_or_F K T r sigma option_type.

(** The underlying, discounted in the futures model. *)
Let fwd := if model =? "spot" then S_or_F else exp (- (r * T)) * S_or_F.

Lemma price_sigma_slope (sigma : R) :
  0 < sigma ->
  exists v, derivable_pt_lim price sigma v /\ 0 <= v <= fwd * sqrt T / 2.
Proof using model_ok option_type_ok S_pos K_pos T_pos.
  intro Hs. pose proof (sqrt_T_pos T T_pos) as HsT.
  assert (Hb : forall d, 0 <= S_or_F * norm_pdf d * sqrt T
                         <= S_or_F * sqrt T / 2).
  { intro d. pose proof (norm_pdf_pos d). pose proof (norm_pdf_le_half d).
    assert (0 < S_or_F * sqrt T) by (apply Rmult_lt_0_compat; assumption).
    split; [| nra].
    apply Rmult_le_pos; [apply Rmult_le_pos |]; lra. }
  unfold price, fwd. destruct model_ok as [-> | ->].
  - change ("spot" =? "spot") with true. cbv iota.
    exists (S_or_F * norm_pdf (ClosedForm.d1_spot S_or_F K T r sigma)
            * sqrt T).
    split; [| apply Hb].
    destruct option_type_ok as [-> | ->].
    + apply (call_spot_derivable S_or_F K T r S_pos K_pos T_pos sigma Hs).
    + apply (put_spot_derivable_sigma S_or_F K T r sigma S_pos K_pos T_pos Hs).
  - change ("futures" =? "spot") with false. cbv iota.
    pose proof (exp_pos (- (r * T))) as He.
    exists (exp (- (r * T))
            * (S_or_F * norm_pdf (ClosedForm.d1_spot S_or_F K T 0 sigma)
               * sqrt T)).
    split.
    + apply (derivable_pt_lim_eq
               (mult_real_fct (exp (- (r * T)))
                  (fun v => ClosedForm.price "spot" S_or_F K T 0 v
                              option_type))
               (fun v => ClosedForm.price "futures" S_or_F K T r v
                           option_type)
               sigma
               (exp (- (r * T))
                * (S_or_F * norm_pdf (ClosedForm.d1_spot S_or_F K T 0 sigma)
                   * sqrt T))).
      * apply derivable_pt_lim_scal.
        destruct option_type_ok as [-> | ->].
        -- apply (call_spot_derivable S_or_F K T 0 S_pos K_pos T_pos sigma Hs).
        -- apply (put_spot_derivable_sigma S_or_F K T 0 sigma S_pos K_pos
                    T_pos Hs).
      * intro v. unfold mult_real_fct. symmetry.
        apply price_futures_spot, option_type_ok.
      * reflexivity.
    + specialize (Hb (ClosedForm.d1_spot S_or_F K T 0 sigma)).
      set (w := S_or_F * norm_pdf (ClosedForm.d1_spot S_or_F K T 0 sigma)
                * sqrt T) in *.
      split; [apply Rmult_le_pos; lra |].
      replace (exp (- (r * T)) * S_or_F * sqrt T / 2)
        with (exp (- (r * T)) * (S_or_F * sqrt T / 2)) by field.
      apply Rmult_le_compat_l; lra.
Qed.

(** Two positive volatilities [s] apart give prices at most
    [fwd sqrt(T) / 2 * s] apart. *)
Lemma price_sigma_lipschitz (s1 s2 : R) :
  0 < s1 -> 0 < s2 ->
  Rabs (price s1 - price s2) <= fwd * sqrt T / 2 * Rabs (s1 - s2).
Proof using model_ok option_type_ok S_pos K_pos T_pos.
  assert (Hlt : forall a b, 0 < a -> a < b ->
                  Rabs (price b - price a) <= fwd * sqrt T / 2 * (b - a)).
  { intros a b Ha Hab.
    assert (Hex : forall c, a <= c <= b ->
                    {v | derivable_pt_lim price c v
                         /\ 0 <= v <= fwd * sqrt T / 2}).
    { intros c Hc. apply constructive_indefinite_description.
      apply price_sigma_slope. lra. }
    set (f' := fun c =>
                 match Rle_dec a c, Rle_dec c b with
                 | left H1, left H2 => proj1_sig (Hex c (conj H1 H2))
                 | _, _ => 0
                 end).
    destruct (MVT_cor2 price f' a b Hab) as [c [Hc Hin]].
    - intros c [H1 H2]. unfold f'.
      destruct (Rle_dec a c) as [H1' | H1']; [| contradiction].
      destruct (Rle_dec c b) as [H2' | H2']; [| contradiction].
      destruct (Hex c (conj H1' H2')) as [v [Hv Hv']]. exact Hv.
    - assert (Hf : 0 <= f' c <= fwd * sqrt T / 2).
      { unfold f'.
        destruct (Rle_dec a c) as [H1' | H1']; [| lra].
        destruct (Rle_dec c b) as [H2' | H2']; [| lra].
        destruct (Hex c (conj H1' H2')) as [v [Hv' Hv]]. exact Hv. }
      rewrite Hc. rewrite Rabs_pos_eq by nra. nra. }
  intros H1 H2.
  destruct (Rtotal_order s1 s2) as [H | [-> | H]].
  - rewrite Rabs_minus_sym, (Rabs_minus_sym s1 s2).
    rewrite (Rabs_pos_eq (s2 - s1)) by lra. apply Hlt; assumption.
  - rewrite !Rminus_diag, Rabs_R0. lra.
  - rewrite (Rabs_pos_eq (s1 - s2)) by lra. apply Hlt; assumption.
Qed.

End PriceLipschitz.

(** X30: if the root finder meets the contract of [brentq] and the market
    price lies in the closed bracket of prices, the solver returns a
    volatility, and the price at that volatility is within
    [fwd * sqrt(T) * 0.00005] of the market price, where [fwd] is the
    underlying (discounted in the futures model). *)
Theorem implied_volatility_reprices
  (brentq : (R -> result R) -> R -> R -> result R)
  (model option_type : string) (market_price S_or_F K T r price_lo price_hi : R) :
  brentq_contract brentq ->
  valid_model model -> valid_option_type option_type ->
  0 < S_or_F -> 0 < K -> 0 < T ->
  price_option model S_or_F K T r 0.0001 option_type = Return price_lo ->
  price_option model S_or_F K T r 3.0 option_type = Return price_hi ->
  price_lo <= market_price <= price_hi ->
  exists iv p,
    get_implied_volatility brentq model market_price S_or_F K T r option_type
    = Return (Some iv)
    /\ price_option model S_or_F K T r iv option_type = Return p
    /\ Rabs (p - market_price)
       <= (if model =? "spot" then S_or_F else exp (- (r * T)) * S_or_F)
          * sqrt T * 0.00005.
Proof.
  intros Hb Hm Ho HS HK HT Hlo Hhi Hmp.
  rewrite price_option_valid in Hlo, Hhi by nonzero.
  injection Hlo as <-. injection Hhi as <-.
  destruct (solver_returns brentq model option_type market_price S_or_F K T r
              Hb Hm Ho HS HK HT Hmp)
    as (x0 & x & Hiv & Hx0 & Hx & Hroot & Htol).
  set (price := fun s => ClosedForm.price model S_or_F K T r s option_type).
  exists (round x0 4), (price (round x0 4)).
  assert (Hr : 0.0001 <= round x0 4 <= 3.0).
  { split.
    - apply Rle_trans with (round 0.0001 4);
        [rewrite round_bracket_low; lra | apply round_monotone; lra].
    - apply Rle_trans with (round 3.0 4);
        [apply round_monotone; lra | rewrite round_bracket_high; lra]. }
  split; [exact Hiv |]. split; [apply price_option_valid; nonzero |].
  rewrite <- Hroot. fold (price x).
  pose proof (price_sigma_lipschitz model option_type S_or_F K T r
                Hm Ho HS HK HT (round x0 4) x ltac:(lra) ltac:(lra))
    as HL.
  fold price in HL.
  apply Rle_trans with (1 := HL).
  assert (Hd : Rabs (round x0 4 - x) <= 0.0001).
  { pose proof (round_4_error x0) as He.
    apply Rabs_le_bounds in He. apply Rabs_le_bounds in Htol.
    assert (Hab : Rabs x0 <= 3) by (apply Rabs_le; lra).
    unfold xtol, rtol in Htol. apply Rabs_le. lra. }
  pose proof (sqrt_T_pos T HT) as HsT.
  set (fwd := if model =? "spot" then S_or_F
              else exp (- (r * T)) * S_or_F).
  assert (Hf : 0 < fwd).
  { unfold fwd. destruct (model =? "spot"); [exact HS |].
    apply Rmult_lt_0_compat; [apply exp_pos | exact HS]. }
  assert (0 < fwd * sqrt T) by (apply Rmult_lt_0_compat; assumption).
  nra.
Qed.

Lemma implied_volatility_reprices_witness :
  exists iv p,
    get_implied_volatility exact_root "spot" 10 100 100 0.25 0 "call"
    = Return (Some iv)
    /\ price_option "spot" 100 100 0.25 0 iv "call" = Return p
    /\ Rabs (p - 10)
       <= (if "spot" =? "spot" then 100 else exp (- (0 * 0.25)) * 100)
          * sqrt 0.25 * 0.00005.
Proof.
  apply (implied_volatility_reprices exact_root "spot" "call" 10 100 100 0.25
           0 (ClosedForm.call_spot 100 100 0.25 0 0.0001)
           (ClosedForm.call_spot 100 100 0.25 0 3.0));
    solve [exact exact_root_contract | lra | left; reflexivity
          | apply (price_option_valid "spot" 100 100 0.25 0 _ "call");
            solve [left; reflexivity | lra]
          | exact atm_bracket].
Defined.
